(** * GroupCache (src/groupCache.ts): a promise-heap model of the cache and its
    stale-while-revalidate refresh coordination.

    The TypeScript class keeps two objects used as maps from subscription id
    to promise ([updates], the refreshes in flight, and [current], the last
    successful refresh), the tracked default subscription, and it talks to
    three collaborators: the login watcher ([lookupCredentials]), the
    subscription watcher (its [subscriptions] and its update notification)
    and the remote listing call of the resource management client.

    Promises are mutable cells of a heap, [then] registers reactions on a
    cell, settled cells queue reaction jobs on the microtask queue, and
    [setTimeout] adds a timer to the timer list; the host's event loop is a
    total step function over events.  The own properties of the two objects
    are the entries of a [gmap]; a read also finds what an object literal
    inherits from [Object.prototype]. *)

From stdpp Require Import base option list gmap strings fin_maps.

(** ** Data *)

Record Group := { group_id : string; group_name : string }.

Record Subscription := {
  sub_id : string;
  tenantId : string;
  isDefault : bool
}.

(** [ServiceClientCredentials] is opaque to the cache. *)
Inductive ServiceClientCredentials := Token (t : string).

Inductive error :=
  | UIError (message : string)
  | ListError (message : string)
  | TypeError (message : string).

(** The message of line 49, whose quotation marks are code point 34. *)
Definition not_logged_in : string :=
  let q := String (Ascii.ascii_of_nat 34) EmptyString in
  "Not logged in, use " +:+ q +:+ "az login" +:+ q +:+ " to do so.".

Inductive outcome :=
  | Fulfilled (groups : list Group)
  | Rejected (err : error).

(** A promise is its index in the heap. *)
Abbreviation promise := nat (only parsing).

(** The properties of [Object.prototype].  [current] and [updates] are
    object literals (lines 22-23) and inherit them. *)
Definition Object_prototype : list string :=
  ["constructor"; "__defineGetter__"; "__defineSetter__"; "hasOwnProperty";
   "__lookupGetter__"; "__lookupSetter__"; "isPrototypeOf";
   "propertyIsEnumerable"; "toString"; "valueOf"; "__proto__";
   "toLocaleString"].

(** What a read of [current] or [updates] returns when it is not
    [undefined]: a promise stored there, or the property of
    [Object.prototype] of that name.  An inherited value is a function (for
    [__proto__], the prototype object): it is truthy and it has no [then]
    and no [catch]. *)
Inductive value :=
  | VPromise (p : promise)
  | VInherited (name : string).

Coercion VPromise : nat >-> value.

(** What a promise is settled with: the outcome of a listing, or a value
    that is not a list of groups. *)
Inductive settlement :=
  | Of (o : outcome)
  | FulfilledWith (name : string).

Coercion Of : outcome >-> settlement.

(** The callbacks this file passes to [then]:
    - [RForward d]: the resolving functions of [d] (an adopted thenable, an
      awaited promise, an element of [Promise.race]);
    - [RCatch d c]: [.catch(() => current)] with derived promise [d];
    - [RDone id u]: the completion handlers of lines 66-72. *)
Inductive reaction :=
  | RForward (d : promise)
  | RCatch (d : promise) (c : value)
  | RDone (id : string) (u : promise).

Inductive cell :=
  | Pending (rs : list reaction)
  | Settled (o : settlement).

(** Microtasks: a reaction job, or the job that adopts the state of the
    thenable [c] a promise [d] was resolved with. *)
Inductive job :=
  | JReact (r : reaction) (o : settlement)
  | JAdopt (d c : promise).

(** [setTimeout(resolve, 500, current)]: at [due], resolve [tpromise] with
    [tvalue]. *)
Record timer := { due : nat; tpromise : promise; tvalue : value }.

(** One invocation of the remote listing operation. *)
Record call := {
  call_credentials : ServiceClientCredentials;
  call_subscription : string;
  call_promise : promise
}.

Record state := {
  heap : list cell;
  jobs : list job;
  timers : list timer;
  now : nat;
  (* GroupCache fields *)
  current : gmap string promise;
  updates : gmap string promise;
  defaultSubscription : option Subscription;
  (* collaborators *)
  subscriptions : list Subscription;
  login : gmap string ServiceClientCredentials;
  (* observable effects *)
  calls : list call;
  lookups : list string;
  console : list error
}.

Definition set_heap (f : list cell → list cell) (s : state) : state :=
  {| heap := f (heap s); jobs := jobs s; timers := timers s; now := now s;
     current := current s; updates := updates s;
     defaultSubscription := defaultSubscription s;
     subscriptions := subscriptions s; login := login s;
     calls := calls s; lookups := lookups s; console := console s |}.
Definition set_jobs (f : list job → list job) (s : state) : state :=
  {| heap := heap s; jobs := f (jobs s); timers := timers s; now := now s;
     current := current s; updates := updates s;
     defaultSubscription := defaultSubscription s;
     subscriptions := subscriptions s; login := login s;
     calls := calls s; lookups := lookups s; console := console s |}.
Definition set_timers (f : list timer → list timer) (s : state) : state :=
  {| heap := heap s; jobs := jobs s; timers := f (timers s); now := now s;
     current := current s; updates := updates s;
     defaultSubscription := defaultSubscription s;
     subscriptions := subscriptions s; login := login s;
     calls := calls s; lookups := lookups s; console := console s |}.
Definition set_now (f : nat → nat) (s : state) : state :=
  {| heap := heap s; jobs := jobs s; timers := timers s; now := f (now s);
     current := current s; updates := updates s;
     defaultSubscription := defaultSubscription s;
     subscriptions := subscriptions s; login := login s;
     calls := calls s; lookups := lookups s; console := console s |}.
Definition set_current (f : gmap string promise → gmap string promise)
    (s : state) : state :=
  {| heap := heap s; jobs := jobs s; timers := timers s; now := now s;
     current := f (current s); updates := updates s;
     defaultSubscription := defaultSubscription s;
     subscriptions := subscriptions s; login := login s;
     calls := calls s; lookups := lookups s; console := console s |}.
Definition set_updates (f : gmap string promise → gmap string promise)
    (s : state) : state :=
  {| heap := heap s; jobs := jobs s; timers := timers s; now := now s;
     current := current s; updates := f (updates s);
     defaultSubscription := defaultSubscription s;
     subscriptions := subscriptions s; login := login s;
     calls := calls s; lookups := lookups s; console := console s |}.
Definition set_defaultSubscription (d : option Subscription) (s : state)
    : state :=
  {| heap := heap s; jobs := jobs s; timers := timers s; now := now s;
     current := current s; updates := updates s;
     defaultSubscription := d;
     subscriptions := subscriptions s; login := login s;
     calls := calls s; lookups := lookups s; console := console s |}.
Definition set_subscriptions (l : list Subscription) (s : state) : state :=
  {| heap := heap s; jobs := jobs s; timers := timers s; now := now s;
     current := current s; updates := updates s;
     defaultSubscription := defaultSubscription s;
     subscriptions := l; login := login s;
     calls := calls s; lookups := lookups s; console := console s |}.
Definition set_login (l : gmap string ServiceClientCredentials) (s : state)
    : state :=
  {| heap := heap s; jobs := jobs s; timers := timers s; now := now s;
     current := current s; updates := updates s;
     defaultSubscription := defaultSubscription s;
     subscriptions := subscriptions s; login := l;
     calls := calls s; lookups := lookups s; console := console s |}.
Definition set_calls (f : list call → list call) (s : state) : state :=
  {| heap := heap s; jobs := jobs s; timers := timers s; now := now s;
     current := current s; updates := updates s;
     defaultSubscription := defaultSubscription s;
     subscriptions := subscriptions s; login := login s;
     calls := f (calls s); lookups := lookups s; console := console s |}.
Definition set_lookups (f : list string → list string) (s : state) : state :=
  {| heap := heap s; jobs := jobs s; timers := timers s; now := now s;
     current := current s; updates := updates s;
     defaultSubscription := defaultSubscription s;
     subscriptions := subscriptions s; login := login s;
     calls := calls s; lookups := f (lookups s); console := console s |}.
Definition set_console (f : list error → list error) (s : state) : state :=
  {| heap := heap s; jobs := jobs s; timers := timers s; now := now s;
     current := current s; updates := updates s;
     defaultSubscription := defaultSubscription s;
     subscriptions := subscriptions s; login := login s;
     calls := calls s; lookups := lookups s; console := f (console s) |}.

(** [o[k]] on one of the two objects: the own property, else the inherited
    one, else [undefined]. *)
Definition get (o : gmap string promise) (k : string) : option value :=
  match o !! k with
  | Some p => Some (VPromise p)
  | None =>
      if decide (k ∈ Object_prototype) then Some (VInherited k) else None
  end.

(** ** The state monad of the methods *)

Definition M (A : Type) : Type := state → A * state.

Definition ret {A} (x : A) : M A := λ s, (x, s).
Definition bind {A B} (m : M A) (k : A → M B) : M B :=
  λ s, let (x, s') := m s in k x s'.
Definition gets {A} (f : state → A) : M A := λ s, (f s, s).
Definition modify (f : state → state) : M unit := λ s, (tt, f s).

Declare Scope m_scope.
Delimit Scope m_scope with M.
Notation "'do' x <- m ; k" := (bind m (λ x, k))
  (at level 10, x name, m at level 100, k at level 200,
   format "'[v' 'do'  x  <-  m ; '/' k ']'") : m_scope.
Notation "m ;; k" := (bind m (λ _, k))
  (at level 100, k at level 200, right associativity) : m_scope.
Open Scope m_scope.

(** ** Promise primitives *)

(** [new Promise]: a fresh pending cell. *)
Definition new_promise : M promise :=
  λ s, (length (heap s), set_heap (λ h, h ++ [Pending []]) s).

Definition enqueue (j : job) : M unit := modify (set_jobs (λ q, q ++ [j])).

(** Settling a pending promise queues one job per registered reaction, in
    registration order; a settled promise stays as it is. *)
Definition settle (p : promise) (o : settlement) : M unit :=
  λ s, match heap s !! p with
       | Some (Pending rs) =>
           (tt, set_jobs (λ q, q ++ map (λ r, JReact r o) rs)
                  (set_heap (λ h, <[p := Settled o]> h) s))
       | _ => (tt, s)
       end.

(** [p.then(...)]: register on a pending promise, queue a job on a settled
    one. *)
Definition then_ (p : promise) (r : reaction) : M unit :=
  λ s, match heap s !! p with
       | Some (Pending rs) =>
           (tt, set_heap (λ h, <[p := Pending (rs ++ [r])]> h) s)
       | Some (Settled o) => enqueue (JReact r o) s
       | None => (tt, s)
       end.

(** [setTimeout(resolve, delay, value)] inside the executor of
    [new Promise]. *)
Definition setTimeout (delay : nat) (t : promise) (c : value) : M unit :=
  modify (λ s, set_timers
    (λ l, l ++ [{| due := now s + delay; tpromise := t; tvalue := c |}]) s).

(** The resolving function of [p] called with [v]: a promise is a thenable,
    adopted by a microtask; any other value fulfils [p]. *)
Definition resolve (p : promise) (v : value) : M unit :=
  match v with
  | VPromise x => enqueue (JAdopt p x)
  | VInherited name => settle p (FulfilledWith name)
  end.

(** An [async] function that returns resolves its own promise with the
    value; one that throws rejects it. *)
Inductive completion :=
  | Return (x : value)
  | Throw (e : error).

Definition async (body : M completion) : M promise :=
  do c <- body;
  do p <- new_promise;
  match c with
  | Return x => resolve p x
  | Throw e => settle p (Rejected e)
  end;;
  ret p.

(** ** Collaborators *)

Definition lookupCredentials (tenant : string)
    : M (option ServiceClientCredentials) :=
  modify (set_lookups (λ l, l ++ [tenant]));;
  gets (λ s, login s !! tenant).

(** [client.resourceGroups.list()]: the remote call is recorded and its
    promise is settled later, by the environment. *)
Definition resourceGroups_list (credentials : ServiceClientCredentials)
    (subscriptionId : string) : M promise :=
  do l <- new_promise;
  modify (set_calls (λ cs, cs ++
    [{| call_credentials := credentials;
        call_subscription := subscriptionId;
        call_promise := l |}]));;
  ret l.

(** ** The methods of GroupCache *)

(** Lines 82-86: the promise of the [async] function forwards the awaited
    listing. *)
Definition loadGroups (credentials : ServiceClientCredentials)
    (subscription : Subscription) : M promise :=
  do l <- resourceGroups_list credentials (sub_id subscription);
  do u <- new_promise;
  then_ l (RForward u);;
  ret u.

(** The three promise expressions of line 77. *)

(** [new Promise(resolve => setTimeout(resolve, delay, value))] *)
Definition timeout_promise (delay : nat) (current : value) : M promise :=
  do t <- new_promise;
  setTimeout delay t current;;
  ret t.

(** [p.catch(() => c)] *)
Definition catch_ (p : promise) (c : value) : M promise :=
  do k <- new_promise;
  then_ p (RCatch k c);;
  ret k.

(** [Promise.race([a, b])] *)
Definition race (a b : promise) : M promise :=
  do r <- new_promise;
  then_ a (RForward r);;
  then_ b (RForward r);;
  ret r.

(** Lines 63-72, the body of [if (!update)]: the refresh is started, stored
    and given its completion handlers.  The body runs only when the read of
    line 60 found nothing, so the id is no property name of
    [Object.prototype] and the write of line 64, like the writes of the
    handlers, makes or removes an own property. *)
Definition start_update (credentials : ServiceClientCredentials)
    (subscription : Subscription) : M promise :=
  do u <- loadGroups credentials subscription;
  modify (set_updates (λ m, <[sub_id subscription := u]> m));;
  then_ u (RDone (sub_id subscription) u);;
  ret u.

(** The message of the [TypeError] of [update.catch(...)] when [update] has
    no [catch]. *)
Definition no_catch : string := "update.catch is not a function".

(** Line 77: the refresh raced against the 500ms timer.  The elements of
    the array are evaluated in order: the timer is set before
    [update.catch] is called, and [Promise.race] is not reached when that
    call throws. *)
Definition race_with_current (update current : value) : M completion :=
  do t <- timeout_promise 500 current;
  match update with
  | VPromise u =>
      do k <- catch_ u current;
      do r <- race t k;
      ret (Return (VPromise r))
  | VInherited _ => ret (Throw (TypeError no_catch))
  end.

(** Lines 60-79, the body of [updateGroups]: how it completes. *)
Definition updateGroups_body (credentials : ServiceClientCredentials)
    (subscription : Subscription) : M completion :=
  do upd <- gets (λ s, get (updates s) (sub_id subscription));
  do update <-
    match upd with
    | Some v => ret v
    | None =>
        do u <- start_update credentials subscription;
        ret (VPromise u)
    end;
  do cur <- gets (λ s, get (current s) (sub_id subscription));
  match cur with
  | Some c => race_with_current update c
  | None => ret (Return update)
  end.

Definition updateGroups (credentials : ServiceClientCredentials)
    (subscription : Subscription) : M promise :=
  async (updateGroups_body credentials subscription).

(** Lines 47-56. *)
Definition fetchGroups : M promise :=
  async (
    do d <- gets defaultSubscription;
    match d with
    | None => ret (Throw (UIError not_logged_in))
    | Some sub =>
        do credentials <- lookupCredentials (tenantId sub);
        match credentials with
        | None => ret (Throw (UIError not_logged_in))
        | Some c => do p <- updateGroups c sub; ret (Return (VPromise p))
        end
    end).

(** Lines 34-45. [a && a.id] is [undefined] or the id. *)
Definition onSubscriptionUpdated : M unit :=
  do found <- gets (λ s, find isDefault (subscriptions s));
  do stored <- gets defaultSubscription;
  if decide (sub_id <$> stored = sub_id <$> found) then ret tt
  else
    modify (set_defaultSubscription found);;
    match found with
    | Some sub =>
        do credentials <- lookupCredentials (tenantId sub);
        match credentials with
        | Some c => do _ <- updateGroups c sub; ret tt
        | None => ret tt
        end
    | None => ret tt
    end.

(** ** The event loop *)

(** Lines 66-72: the two callbacks given to [update.then]. *)
Definition on_loaded (id : string) (update : promise) : M unit :=
  modify (set_updates (delete id));;
  modify (set_current (λ m, <[id := update]> m)).

Definition on_load_failed (id : string) (err : error) : M unit :=
  modify (set_updates (delete id));;
  modify (set_console (λ l, l ++ [err])).

(** A reaction job calls the handler for the way the promise was settled:
    [catch] passes a fulfilment on and resolves its promise with what the
    handler returns; [then] of line 66 calls its first callback on a
    fulfilment and its second on a rejection. *)
Definition run_job (j : job) : M unit :=
  match j with
  | JReact (RForward d) o => settle d o
  | JReact (RCatch d c) (Of (Rejected _)) => resolve d c
  | JReact (RCatch d c) o => settle d o
  | JReact (RDone id u) (Of (Rejected e)) => on_load_failed id e
  | JReact (RDone id u) _ => on_loaded id u
  | JAdopt d c => then_ c (RForward d)
  end.

(** The first timer that is due, and the others. *)
Fixpoint pop_due (t : nat) (l : list timer) : option (timer * list timer) :=
  match l with
  | [] => None
  | x :: l' =>
      if decide (due x ≤ t) then Some (x, l')
      else match pop_due t l' with
           | Some (y, r) => Some (y, x :: r)
           | None => None
           end
  end.

Inductive event :=
  | EvJob
  | EvFetch
  | EvNotify (subs : list Subscription)
  | EvLogin (l : gmap string ServiceClientCredentials)
  | EvSettle (k : nat) (o : outcome)
  | EvTimer
  | EvWait (dt : nat).

(** One turn of the host.  Microtasks run one at a time, oldest first; a
    timer fires and the clock advances only when the microtask queue is
    empty, and the clock never passes a timer that is due.  Calls into the
    cache and settlements of remote calls may come at any point. *)
Definition step (e : event) (s : state) : state :=
  match e with
  | EvJob =>
      match jobs s with
      | [] => s
      | j :: q => (run_job j (set_jobs (λ _, q) s)).2
      end
  | EvFetch => (fetchGroups s).2
  | EvNotify subs => (onSubscriptionUpdated (set_subscriptions subs s)).2
  | EvLogin l => set_login l s
  | EvSettle k o =>
      match calls s !! k with
      | Some c => (settle (call_promise c) o s).2
      | None => s
      end
  | EvTimer =>
      match jobs s, pop_due (now s) (timers s) with
      | [], Some (tm, rest) =>
          (resolve (tpromise tm) (tvalue tm) (set_timers (λ _, rest) s)).2
      | _, _ => s
      end
  | EvWait dt =>
      if decide (jobs s = [] ∧ Forall (λ tm, now s + dt ≤ due tm) (timers s))
      then set_now (λ t, t + dt) s
      else s
  end.

Definition run (evs : list event) (s : state) : state :=
  foldl (λ s e, step e s) s evs.

(** Lines 29-32: the constructor subscribes to the watcher and looks at the
    subscriptions once. *)
Definition empty_state (subs : list Subscription)
    (l : gmap string ServiceClientCredentials) (t0 : nat) : state :=
  {| heap := []; jobs := []; timers := []; now := t0;
     current := ∅; updates := ∅; defaultSubscription := None;
     subscriptions := subs; login := l;
     calls := []; lookups := []; console := [] |}.

Definition constructor (subs : list Subscription)
    (l : gmap string ServiceClientCredentials) (t0 : nat) : state :=
  (onSubscriptionUpdated (empty_state subs l t0)).2.

Definition reachable (s : state) : Prop :=
  ∃ subs l t0 evs, s = run evs (constructor subs l t0).

(** ** What each promise is for

    The invariants below describe the heap through the role every promise
    was allocated for.  The roles are not part of the state: they are the
    list a proof carries along, one entry per cell of the heap. *)

Inductive role :=
  | Remote
  | Wrap (x : promise)
  | Timeout (t : nat) (c : value)
  | Catch (u : promise) (c : value)
  | Race (a b : promise)
  | Thrown (e : error).

(** The promise a value is, if it is one. *)
Definition value_reads (v : value) : list promise :=
  match v with
  | VPromise p => [p]
  | VInherited _ => []
  end.

Definition role_sources (r : role) : list promise :=
  match r with
  | Remote | Thrown _ => []
  | Wrap x => [x]
  | Timeout _ c => value_reads c
  | Catch u c => u :: value_reads c
  | Race a b => [a; b]
  end.

Definition role_fallback (r : role) : option promise :=
  match r with
  | Timeout _ (VPromise c) | Catch _ (VPromise c) => Some c
  | _ => None
  end.

Definition settled (s : state) (p : promise) (o : settlement) : Prop :=
  heap s !! p = Some (Settled o).

(** How a promise resolved with [v] ends. *)
Definition resolved_with (s : state) (v : value) (o : settlement) : Prop :=
  match v with
  | VPromise c => settled s c o
  | VInherited name => o = FulfilledWith name
  end.

(** A value kept as a fallback: if it is a promise, it is fulfilled. *)
Definition fulfilled_value (s : state) (v : value) : Prop :=
  match v with
  | VPromise c => ∃ w, settled s c (Fulfilled w)
  | VInherited _ => True
  end.

(** [u] is the promise [loadGroups] made for a remote call. *)
Definition is_refresh (ρ : list role) (u : promise) : Prop :=
  ∃ l, ρ !! u = Some (Wrap l) ∧ ρ !! l = Some Remote.

Definition pending (s : state) (p : promise) : Prop :=
  ∃ rs, heap s !! p = Some (Pending rs).

Definition fulfilled (s : state) (p : promise) : Prop :=
  ∃ v, settled s p (Fulfilled v).

Definition registered (s : state) (q : promise) (r : reaction) : Prop :=
  ∃ rs, heap s !! q = Some (Pending rs) ∧ r ∈ rs.

Definition quiescent (s : state) : Prop := jobs s = [].

(** [d] was resolved with the thenable [c]. *)
Definition adopts (ρ : list role) (s : state) (d c : promise) : Prop :=
  match ρ !! d with
  | Some (Wrap x) => c = x
  | Some (Timeout t x) => x = VPromise c ∧ t ≤ now s
  | Some (Catch u x) => x = VPromise c ∧ ∃ e, settled s u (Rejected e)
  | _ => False
  end.

(** The outcome of [q] may be forwarded to [d]. *)
Definition feeds (ρ : list role) (s : state) (d q : promise) : Prop :=
  adopts ρ s d q ∨ ∃ a b, ρ !! d = Some (Race a b) ∧ (q = a ∨ q = b).

Definition reaction_ok (ρ : list role) (s : state) (q : promise)
    (r : reaction) : Prop :=
  match r with
  | RForward d => feeds ρ s d q
  | RCatch d c => ρ !! d = Some (Catch q c) ∧ is_refresh ρ q
  | RDone _ u => q = u ∧ is_refresh ρ q
  end.

Definition job_ok (ρ : list role) (s : state) (j : job) : Prop :=
  match j with
  | JReact r o => ∃ q, settled s q o ∧ reaction_ok ρ s q r
  | JAdopt d c => adopts ρ s d c
  end.

Definition timer_ok (ρ : list role) (s : state) (tm : timer) : Prop :=
  ρ !! tpromise tm = Some (Timeout (due tm) (tvalue tm)) ∧ now s ≤ due tm.

(** Why a settled promise has the outcome it has. *)
Definition explains (ρ : list role) (s : state) (p : promise)
    (o : settlement) : Prop :=
  match ρ !! p with
  | Some Remote => ∃ o' : outcome, o = o'
  | Some (Wrap x) => settled s x o
  | Some (Timeout t c) => t ≤ now s ∧ resolved_with s c o
  | Some (Catch u c) =>
      (∃ v, o = Fulfilled v ∧ settled s u o) ∨
      (∃ e, settled s u (Rejected e) ∧ resolved_with s c o)
  | Some (Race a b) => settled s a o ∨ settled s b o
  | Some (Thrown e) => o = Rejected e
  | None => False
  end.

Record Safe (ρ : list role) (s : state) : Prop := {
  safe_len : length ρ = length (heap s);
  safe_src : ∀ p r x, ρ !! p = Some r → x ∈ role_sources r → x < p;
  safe_fallback : ∀ p r c,
    ρ !! p = Some r → role_fallback r = Some c → fulfilled s c;
  safe_reaction : ∀ q rs r,
    heap s !! q = Some (Pending rs) → r ∈ rs → reaction_ok ρ s q r;
  safe_job : ∀ j, j ∈ jobs s → job_ok ρ s j;
  safe_timer : ∀ tm, tm ∈ timers s → timer_ok ρ s tm;
  safe_settled : ∀ p o, settled s p o → explains ρ s p o;
  safe_current : ∀ id c, current s !! id = Some c → fulfilled s c;
  safe_updates : ∀ id u, updates s !! id = Some u → is_refresh ρ u;
  safe_calls : ∀ c, c ∈ calls s → ρ !! call_promise c = Some Remote
}.

(** The promise a job will settle or pass on. *)
Definition job_target (j : job) : option promise :=
  match j with
  | JReact (RForward d) _ | JReact (RCatch d _) _ | JAdopt d _ => Some d
  | JReact (RDone _ _) _ => None
  end.

(** What a pending promise waits for when no microtask is about it. *)
Definition waiting (ρ : list role) (s : state) (p : promise) : Prop :=
  match ρ !! p with
  | Some Remote => True
  | Some (Wrap x) => registered s x (RForward p)
  | Some (Timeout t c) => {| due := t; tpromise := p; tvalue := c |} ∈ timers s
  | Some (Catch u c) => registered s u (RCatch p c)
  | Some (Race a b) =>
      registered s a (RForward p) ∧ registered s b (RForward p)
  | _ => False
  end.

Definition progress_at (ρ : list role) (s : state) (p : promise) : Prop :=
  pending s p →
  (∃ j, j ∈ jobs s ∧ job_target j = Some p) ∨ waiting ρ s p.

Definition Live (ρ : list role) (s : state) : Prop := ∀ p, progress_at ρ s p.

(** States only grow: settled promises stay settled and time moves on. *)
Definition evolves (s s' : state) : Prop :=
  now s ≤ now s' ∧ ∀ p o, settled s p o → settled s' p o.

(** ** Growth

    Apart from running a job and firing a timer, every operation only adds
    to the state: cells, reactions on pending cells, jobs, timers; a pending
    cell that is settled turns its reactions into jobs. *)

Definition cell_grows (s' : state) (p : promise) (c : cell) : Prop :=
  match c with
  | Settled o => heap s' !! p = Some (Settled o)
  | Pending rs =>
      (∃ rs', heap s' !! p = Some (Pending (rs ++ rs'))) ∨
      (∃ o, heap s' !! p = Some (Settled o) ∧ ∀ r, r ∈ rs → JReact r o ∈ jobs s')
  end.

Record grows (s s' : state) : Prop := {
  grows_now : now s ≤ now s';
  grows_heap : ∀ p c, heap s !! p = Some c → cell_grows s' p c;
  grows_jobs : jobs s ⊆ jobs s';
  grows_timers : timers s ⊆ timers s'
}.

(** The same facts for whole computations. *)
Definition grows_M {A} (m : M A) : Prop := ∀ s, grows s (m s).2.

(** ** The invariant of the promises *)

Definition Inv (ρ : list role) (s : state) : Prop := Safe ρ s ∧ Live ρ s.

(** ** Frames *)

(** [keeps f m]: running [m] does not change the part [f] of the state. *)
Definition keeps {A B} (f : state → B) (m : M A) : Prop :=
  ∀ s, f (m s).2 = f s.

(** The parts of the state that are not the heap or the job queue. *)
Definition off_heap {B} (f : state → B) : Prop :=
  (∀ g s, f (set_heap g s) = f s) ∧ (∀ g s, f (set_jobs g s) = f s).

(** ** The promises of one call *)

(** What [updateGroups] hands to its caller: the refresh itself, or the
    race of line 77 between the timer [t] and the guarded refresh [k]. *)
Definition body_shape (ρ : list role) (x u : promise)
    (cur : option value) (deadline : nat) : Prop :=
  match cur with
  | None => x = u
  | Some c =>
      ∃ t k, ρ !! x = Some (Race t k) ∧
             ρ !! t = Some (Timeout deadline c) ∧
             ρ !! k = Some (Catch u c)
  end.

(** ** One refresh per subscription id

    The completion handlers of a refresh are attached once, and while they
    have not run the refresh is the entry of [updates] for its id; a remote
    call whose promise is pending is the one behind that entry. *)

Definition done_reaction (r : reaction) : Prop :=
  match r with RDone _ _ => True | _ => False end.

Definition done_job (j : job) : Prop :=
  match j with JReact r _ => done_reaction r | JAdopt _ _ => False end.

Record Dedup (ρ : list role) (s : state) : Prop := {
  dd_registered : ∀ q rs i id u,
    heap s !! q = Some (Pending rs) → rs !! i = Some (RDone id u) →
    i = 0 ∧ updates s !! id = Some u;
  dd_job : ∀ i id u o,
    jobs s !! i = Some (JReact (RDone id u) o) → updates s !! id = Some u;
  dd_job_unique : ∀ i j id u u' o o',
    jobs s !! i = Some (JReact (RDone id u) o) →
    jobs s !! j = Some (JReact (RDone id u') o') → i = j;
  dd_call : ∀ c,
    c ∈ calls s → pending s (call_promise c) →
    ∃ u, updates s !! call_subscription c = Some u ∧
         ρ !! u = Some (Wrap (call_promise c));
  dd_call_fresh : ∀ i j c c',
    calls s !! i = Some c → calls s !! j = Some c' →
    call_promise c = call_promise c' → i = j
}.

(** The invariant of the cache. *)
Definition Coherent (ρ : list role) (s : state) : Prop := Inv ρ s ∧ Dedup ρ s.

(** A call is tracked by the roles of the promises it built: [P] is the
    promise returned to the caller, [u] the refresh it waits for, [cur] the
    cached result it found and [d] the deadline of its timer. *)
Definition tracks (ρ : list role) (s : state) (P u : promise)
    (cur : option value) (d : nat) : Prop :=
  Coherent ρ s ∧ ∃ x, ρ !! P = Some (Wrap x) ∧ body_shape ρ x u cur d.

(** While a refresh is the entry of [updates], the handlers of lines 64-72
    are either registered on it or queued as a microtask. *)

Definition handled (s : state) (id : string) (u : promise) : Prop :=
  registered s u (RDone id u) ∨ ∃ o, JReact (RDone id u) o ∈ jobs s.

Definition Handled (s : state) : Prop :=
  ∀ id u, updates s !! id = Some u → handled s id u.

(** ** Calls for one subscription id *)

(** [n] callers, one after the other in the same turn. *)
Definition updateGroups_many (cs : list ServiceClientCredentials)
    (sub : Subscription) (s : state) : state :=
  foldl (λ s c, (updateGroups c sub s).2) s cs.

(** The calls made for one subscription id. *)
Definition calls_for (id : string) (s : state) : list call :=
  filter (λ k, call_subscription k = id) (calls s).

(** Notifications that keep the id of the default subscription. *)
Definition keeps_default_id (id : string) (e : event) : Prop :=
  match e with
  | EvNotify subs => sub_id <$> find isDefault subs = Some id
  | _ => True
  end.

(** ** The weight of the pending work

    Every microtask lowers the weight of the queue and the reactions still
    registered, so the queue drains. *)

Definition rweight (r : reaction) : nat :=
  match r with RCatch _ _ => 4 | _ => 1 end.

Definition jweight (j : job) : nat :=
  match j with JReact r _ => rweight r | JAdopt _ _ => 3 end.

Definition cweight (c : cell) : nat :=
  match c with
  | Pending rs => sum_list_with (λ r, S (rweight r)) rs
  | Settled _ => 0
  end.

Definition measure (s : state) : nat :=
  sum_list_with jweight (jobs s) + sum_list_with cweight (heap s).

(** Run the microtasks until none is left. *)
Definition drain (s : state) : state := run (repeat EvJob (measure s)) s.

(** ** Scenarios *)

Definition sub1 : Subscription :=
  {| sub_id := "sub-1"; tenantId := "tenant-1"; isDefault := true |}.

Definition creds1 : ServiceClientCredentials := Token "token-1".

Definition login1 : gmap string ServiceClientCredentials :=
  {[ "tenant-1" := creds1 ]}.

Definition groups1 : list Group :=
  [{| group_id := "/subscriptions/sub-1/resourceGroups/a"; group_name := "a" |}].

Definition groups2 : list Group :=
  [{| group_id := "/subscriptions/sub-1/resourceGroups/a"; group_name := "a" |};
   {| group_id := "/subscriptions/sub-1/resourceGroups/b"; group_name := "b" |}].

(** The cache right after construction: the first refresh is in flight and
    nothing is cached. *)
Definition fresh_cache : state := constructor [sub1] login1 0.

(** The first refresh has succeeded: [groups1] is cached, nothing is in
    flight. *)
Definition warm_cache : state :=
  run ([EvJob; EvSettle 0 (Fulfilled groups1)] ++ repeat EvJob 4) fresh_cache.

Definition sub1_moved : Subscription :=
  {| sub_id := "sub-1"; tenantId := "tenant-2"; isDefault := true |}.

Definition login2 : gmap string ServiceClientCredentials :=
  {[ "tenant-2" := Token "token-2" ]}.

(** ** Where the promises of the maps come from *)

(** [u] is the promise [loadGroups] made for a remote call for [id]. *)
Definition refresh_of (s : state) (id : string) (u : promise) : Prop :=
  ∃ i k, calls s !! i = Some k ∧ call_subscription k = id ∧
         u = S (call_promise k).

(** The promise after the one of a remote call is the one [loadGroups]
    returned for it. *)
Definition Loaded (ρ : list role) (s : state) : Prop :=
  ∀ k, k ∈ calls s → ρ !! S (call_promise k) = Some (Wrap (call_promise k)).

Record Prov (s : state) : Prop := {
  prov_updates : ∀ id u, updates s !! id = Some u → refresh_of s id u;
  prov_current : ∀ id c, current s !! id = Some c → refresh_of s id c;
  prov_console : ∀ e, e ∈ console s →
    ∃ i k, calls s !! i = Some k ∧ settled s (S (call_promise k)) (Rejected e)
}.

Definition Traced (s : state) : Prop :=
  ∃ ρ, Coherent ρ s ∧ Loaded ρ s ∧ Prov s.

(** [calm m]: [m] settles no promise. *)
Definition calm {A} (m : M A) : Prop :=
  ∀ s p, pending s p → pending (m s).2 p.

(** The own properties of [updates] and [current] are not named like a
    property of [Object.prototype]. *)
Definition Own (s : state) : Prop :=
  ∀ id, id ∈ Object_prototype →
    updates s !! id = None ∧ current s !! id = None.

(** A refresh in flight was started after the cached result it will
    replace. *)
Definition Ordered (s : state) : Prop :=
  ∀ id c u, current s !! id = Some c → updates s !! id = Some u → c < u.

(** ** [loadGroupsOld] (lines 88-104)

    The method is not called by the class.  It lists the groups with the
    [az] command line and settles its promise in the callback of [execFile];
    the definitions below are that callback. *)

(** What [JSON.parse] returns. *)
#[warnings="-register-all"] Inductive json :=
  | JNull
  | JBool (b : bool)
  | JNumber (literal : string)
  | JString (s : string)
  | JArray (items : list json)
  | JObject (members : list (string * json)).

(** [o.k] on a parsed object: of several members named [k] the last one
    counts. *)
Fixpoint member (k : string) (members : list (string * json)) : option json :=
  match members with
  | [] => None
  | (k', v) :: rest =>
      match member k rest with
      | Some v' => Some v'
      | None => if decide (k' = k) then Some v else None
      end
  end.

(** [group.id.startsWith(prefix)]: a [TypeError] ([None]) unless [group] is
    an object whose [id] is a string. *)
Definition id_startsWith (prefix : string) (group : json) : option bool :=
  match group with
  | JObject members =>
      match member "id" members with
      | Some (JString id) => Some (String.prefix prefix id)
      | _ => None
      end
  | _ => None
  end.

(** [groups.filter(group => group.id.startsWith(prefix))]: an exception in
    the callback ends the filter. *)
Fixpoint filter_groups (prefix : string) (groups : list json)
    : option (list json) :=
  match groups with
  | [] => Some []
  | g :: rest =>
      match id_startsWith prefix g with
      | None => None
      | Some keep =>
          match filter_groups prefix rest with
          | None => None
          | Some kept => Some (if keep then g :: kept else kept)
          end
      end
  end.

(** The [err] argument of the callback of [execFile]. *)
Inductive exec_error := ExecError (message : string).

(** What the promise is rejected with: [err], or a string. *)
Inductive reason :=
  | ReasonError (e : exec_error)
  | ReasonString (s : string).

(** How the callback leaves the promise; after an exception in the callback
    the promise is never settled. *)
Inductive old_outcome :=
  | OldResolved (groups : list json)
  | OldRejected (r : reason)
  | OldThrown.

(** The template literal of line 95. *)
Definition subscription_prefix (subscriptionId : string) : string :=
  "/subscriptions/" +:+ subscriptionId +:+ "/".

(** Lines 90-102; [JSON_parse] is [JSON.parse], [None] when it throws. *)
Definition loadGroupsOld_callback (JSON_parse : string → option json)
    (subscriptionId : string)
    (err : option exec_error) (stdout stderr : string) : old_outcome :=
  match err, stderr with
  | Some e, _ => OldRejected (ReasonError e)
  | None, String _ _ => OldRejected (ReasonString stderr)
  | None, EmptyString =>
      match JSON_parse stdout with
      | Some (JArray groups) =>
          match filter_groups (subscription_prefix subscriptionId) groups with
          | Some filtered =>
              match groups, filtered with
              | _ :: _, [] => OldRejected (ReasonString "Subscription changed")
              | _, _ => OldResolved filtered
              end
          | None => OldThrown
          end
      | _ => OldThrown
      end
  end.

(** The character [/]. *)
Definition slash : Ascii.ascii :=
  Ascii.Ascii true true true true false true false false.

(** Subscription ids without a slash. *)
Fixpoint no_slash (s : string) : bool :=
  match s with
  | EmptyString => true
  | String c s' => if Ascii.eqb c slash then false else no_slash s'
  end.

(** ** Promises nobody holds *)

(** The promises a reaction or a job will read when it runs. *)
Definition reaction_reads (r : reaction) : list promise :=
  match r with
  | RForward _ => []
  | RCatch _ c => value_reads c
  | RDone _ u => [u]
  end.

Definition job_reads (j : job) : list promise :=
  match j with
  | JReact r _ => reaction_reads r
  | JAdopt _ c => [c]
  end.

(** Nothing in the state holds [p]: it has no reaction, and no reaction,
    job, timer or map entry will hand it to [then]. *)
Record unobserved (p : promise) (s : state) : Prop := {
  un_allocated : p < length (heap s);
  un_reactions : ∀ rs, heap s !! p = Some (Pending rs) → rs = [];
  un_registered : ∀ q rs r,
    heap s !! q = Some (Pending rs) → r ∈ rs → p ∉ reaction_reads r;
  un_jobs : ∀ j, j ∈ jobs s → p ∉ job_reads j;
  un_timers : ∀ tm, tm ∈ timers s → tvalue tm ≠ p;
  un_updates : ∀ id, updates s !! id ≠ Some p;
  un_current : ∀ id, current s !! id ≠ Some p
}.

(** [m] keeps [p] unobserved, and its result satisfies [Q]. *)
Definition hoare {A} (p : promise) (m : M A) (Q : A → Prop) : Prop :=
  ∀ s, unobserved p s → unobserved p (m s).2 ∧ Q (m s).1.

(** A completion that does not hand out [p]. *)
Definition not_returned (p : promise) (c : completion) : Prop :=
  match c with Return x => x ≠ VPromise p | Throw _ => True end.

(** * Proofs *)

Lemma evolves_refl s : evolves s s.
Proof. split; auto. Qed.

Lemma evolves_heap s s' : heap s' = heap s → now s ≤ now s' → evolves s s'.
Proof. intros Hh Hn. split; [done|]. unfold settled. by rewrite Hh. Qed.

Lemma evolves_trans s1 s2 s3 : evolves s1 s2 → evolves s2 s3 → evolves s1 s3.
Proof. intros [? H1] [? H2]. split; [lia | auto]. Qed.

Lemma adopts_mono ρ ρ' s s' d c :
  ρ `prefix_of` ρ' → evolves s s' → adopts ρ s d c → adopts ρ' s' d c.
Proof.
  intros Hp [Hn Hs]. unfold adopts.
  destruct (ρ !! d) as [r|] eqn:E; [|done].
  rewrite (prefix_lookup_Some _ _ _ _ E Hp).
  destruct r; try done.
  - intros [-> ?]. split; [done | lia].
  - intros [-> [e ?]]. eauto.
Qed.

Lemma feeds_mono ρ ρ' s s' d q :
  ρ `prefix_of` ρ' → evolves s s' → feeds ρ s d q → feeds ρ' s' d q.
Proof.
  intros Hp He [H | (a & b & E & H)].
  - left. eauto using adopts_mono.
  - right. exists a, b. split; [|done]. eapply prefix_lookup_Some; eauto.
Qed.

Lemma is_refresh_mono ρ ρ' u :
  ρ `prefix_of` ρ' → is_refresh ρ u → is_refresh ρ' u.
Proof.
  intros Hp (l & E1 & E2). exists l. split; eapply prefix_lookup_Some; eauto.
Qed.

Lemma is_refresh_lt ρ u : is_refresh ρ u → u < length ρ.
Proof. intros (l & E & _). by apply lookup_lt_Some in E. Qed.

Lemma reaction_ok_mono ρ ρ' s s' q r :
  ρ `prefix_of` ρ' → evolves s s' → reaction_ok ρ s q r → reaction_ok ρ' s' q r.
Proof.
  intros Hp He. destruct r; simpl; eauto using feeds_mono.
  - intros [E ?]. split; [|by eapply is_refresh_mono].
    eapply prefix_lookup_Some; eauto.
  - intros [-> ?]. split; [done|by eapply is_refresh_mono].
Qed.

Lemma job_ok_mono ρ ρ' s s' j :
  ρ `prefix_of` ρ' → evolves s s' → job_ok ρ s j → job_ok ρ' s' j.
Proof.
  intros Hp He. destruct j; simpl; eauto using adopts_mono.
  intros (q & ? & ?). exists q. split; [by apply He | eauto using reaction_ok_mono].
Qed.

Lemma resolved_with_mono s s' c o :
  evolves s s' → resolved_with s c o → resolved_with s' c o.
Proof. intros [_ Hs]. destruct c; simpl; eauto. Qed.

Lemma explains_mono ρ ρ' s s' p o :
  ρ `prefix_of` ρ' → evolves s s' → explains ρ s p o → explains ρ' s' p o.
Proof.
  intros Hp He. pose proof He as [Hn Hs]. unfold explains.
  destruct (ρ !! p) as [r|] eqn:E; [|done].
  rewrite (prefix_lookup_Some _ _ _ _ E Hp).
  destruct r; try done; eauto.
  - intros [? ?]. split; [lia | eauto using resolved_with_mono].
  - intros [(v & ? & ?) | (e & ? & ?)]; [left | right];
      eauto using resolved_with_mono.
  - intros [?|?]; eauto.
Qed.

(** ** Safety is kept by every primitive *)

(** The frame rule all the primitives go through: whatever the new state
    holds is either inherited from the old state or justified afresh. *)
Lemma Safe_frame ρ ρ' s s' :
  Safe ρ s →
  ρ `prefix_of` ρ' →
  evolves s s' →
  length ρ' = length (heap s') →
  (∀ p r, ρ' !! p = Some r → ρ !! p = None →
     (∀ x, x ∈ role_sources r → x < p) ∧
     (∀ c, role_fallback r = Some c → fulfilled s' c)) →
  (∀ q rs r, heap s' !! q = Some (Pending rs) → r ∈ rs →
     registered s q r ∨ reaction_ok ρ' s' q r) →
  (∀ j, j ∈ jobs s' → j ∈ jobs s ∨ job_ok ρ' s' j) →
  (∀ tm, tm ∈ timers s' →
     (tm ∈ timers s ∧ now s' ≤ due tm) ∨ timer_ok ρ' s' tm) →
  (∀ p o, settled s' p o → settled s p o ∨ explains ρ' s' p o) →
  (∀ id c, current s' !! id = Some c →
     current s !! id = Some c ∨ fulfilled s' c) →
  (∀ id u, updates s' !! id = Some u →
     updates s !! id = Some u ∨ is_refresh ρ' u) →
  (∀ c, c ∈ calls s' → c ∈ calls s ∨ ρ' !! call_promise c = Some Remote) →
  Safe ρ' s'.
Proof.
  intros HS Hp He Hlen Hrole Hreact Hjob Htimer Hset Hcur Hupd Hcall.
  assert (Hful : ∀ c, fulfilled s c → fulfilled s' c).
  { intros c [v Hv]. exists v. by apply He. }
  assert (Hheap : length (heap s) ≤ length (heap s')).
  { rewrite <-Hlen, <-(safe_len _ _ HS). by apply prefix_length. }
  split.
  - done.
  - intros p r x E Hx. destruct (ρ !! p) as [r0|] eqn:E0.
    + rewrite (prefix_lookup_Some _ _ _ _ E0 Hp) in E. simplify_eq.
      eapply safe_src; eauto.
    + by apply (Hrole p r E E0).
  - intros p r c E Hc. destruct (ρ !! p) as [r0|] eqn:E0.
    + rewrite (prefix_lookup_Some _ _ _ _ E0 Hp) in E. simplify_eq.
      apply Hful. eapply safe_fallback; eauto.
    + by apply (Hrole p r E E0).
  - intros q rs r Hq Hr. destruct (Hreact q rs r Hq Hr) as [(rs0 & ? & ?)|?]; [|done].
    eapply reaction_ok_mono; eauto. eapply safe_reaction; eauto.
  - intros j Hj. destruct (Hjob j Hj); [|done].
    eapply job_ok_mono; eauto. by apply (safe_job _ _ HS).
  - intros tm Htm. destruct (Htimer tm Htm) as [[H1 H2]|?]; [|done].
    destruct (safe_timer _ _ HS tm H1) as [E _]. split; [|done].
    eapply prefix_lookup_Some; eauto.
  - intros p o Ho. destruct (Hset p o Ho); [|done].
    eapply explains_mono; eauto. by apply (safe_settled _ _ HS).
  - intros id c Hc. destruct (Hcur id c Hc); [|done].
    apply Hful. eapply safe_current; eauto.
  - intros id u Hu. destruct (Hupd id u Hu); [|done].
    eapply is_refresh_mono; [done|]. eapply safe_updates; eauto.
  - intros c Hc. destruct (Hcall c Hc); [|done].
    eapply prefix_lookup_Some; [|done]. by apply (safe_calls _ _ HS).
Qed.

Lemma Safe_same ρ s s' :
  Safe ρ s →
  heap s' = heap s → now s' = now s →
  jobs s' ⊆ jobs s → timers s' ⊆ timers s →
  current s' ⊆ current s → updates s' ⊆ updates s →
  calls s' ⊆ calls s →
  Safe ρ s'.
Proof.
  intros HS Hh Hn Hj Ht Hc Hu Hk.
  eapply Safe_frame; eauto.
  - apply evolves_heap; [done | lia].
  - rewrite Hh. apply (safe_len _ _ HS).
  - intros p r E E0. apply lookup_lt_Some in E. apply lookup_ge_None in E0. lia.
  - intros q rs r Hq Hr. left. exists rs. by rewrite <-Hh.
  - intros tm Htm. left. split; [auto|]. rewrite Hn.
    by apply (safe_timer _ _ HS tm), Ht.
  - intros p o Ho. left. unfold settled in *. by rewrite <-Hh.
  - intros id c E. left. eapply lookup_weaken; eauto.
  - intros id u E. left. eapply lookup_weaken; eauto.
Qed.

Lemma Safe_new_promise ρ s r :
  Safe ρ s →
  (∀ x, x ∈ role_sources r → x < length (heap s)) →
  (∀ c, role_fallback r = Some c → fulfilled s c) →
  Safe (ρ ++ [r]) (new_promise s).2.
Proof.
  intros HS Hsrc Hfb. pose proof (safe_len _ _ HS) as Hlen.
  assert (He : evolves s (new_promise s).2).
  { split; [done|]. unfold settled. simpl. intros p o E.
    by apply lookup_app_l_Some. }
  eapply Safe_frame; eauto; simpl.
  - by apply prefix_app_r.
  - rewrite !length_app. simpl. lia.
  - intros p r' E E0. apply lookup_ge_None in E0.
    apply lookup_snoc_Some in E as [[? ?]|[? ->]]; [lia|].
    split.
    + intros x Hx. specialize (Hsrc x Hx). lia.
    + intros c Hc. destruct (Hfb c Hc) as [v Hv]. exists v. by apply He.
  - intros q rs r' E Hr. left.
    apply lookup_snoc_Some in E as [[? E]|[? E]].
    + by exists rs.
    + simplify_eq. by apply elem_of_nil in Hr.
  - intros tm Htm. left. split; [done|]. by apply (safe_timer _ _ HS).
  - intros p o E. left. unfold settled in *. simpl in E.
    apply lookup_snoc_Some in E as [[? E]|[? E]]; [done | simplify_eq].
Qed.

Lemma Safe_enqueue ρ s j :
  Safe ρ s → job_ok ρ s j → Safe ρ (enqueue j s).2.
Proof.
  intros HS Hj. eapply Safe_frame; eauto; simpl.
  - by apply evolves_heap.
  - apply (safe_len _ _ HS).
  - intros p r E E0. congruence.
  - intros q rs r E Hr. left. by exists rs.
  - intros j' Hj'. apply elem_of_app in Hj' as [?|Hj']; [by left|].
    apply list_elem_of_singleton in Hj' as ->. by right.
  - intros tm Htm. left. split; [done|]. by apply (safe_timer _ _ HS).
Qed.

Lemma Safe_then ρ s q r :
  Safe ρ s → reaction_ok ρ s q r → Safe ρ (then_ q r s).2.
Proof.
  intros HS Hr. unfold then_.
  destruct (heap s !! q) as [[rs|o]|] eqn:E; simpl; [| |done].
  - assert (Hq : q < length (heap s)) by eauto using lookup_lt_Some.
    assert (He : evolves s (set_heap (λ h, <[q:=Pending (rs ++ [r])]> h) s)).
    { split; [done|]. unfold settled. simpl. intros p o Ep.
      rewrite list_lookup_insert_ne; [done|]. congruence. }
    eapply Safe_frame; eauto; simpl.
    + rewrite length_insert. apply (safe_len _ _ HS).
    + intros p r' E1 E0. congruence.
    + intros q' rs' r' E' Hr'.
      destruct (decide (q = q')) as [<-|Hne].
      * rewrite list_lookup_insert_eq in E' by done. simplify_eq.
        apply elem_of_app in Hr' as [?|Hr'].
        -- left. by exists rs.
        -- apply list_elem_of_singleton in Hr' as ->. right.
           eapply reaction_ok_mono; eauto.
      * rewrite list_lookup_insert_ne in E' by done. left. by exists rs'.
    + intros tm Htm. left. split; [done|]. by apply (safe_timer _ _ HS).
    + intros p o Ep. left. unfold settled in *. simpl in Ep.
      destruct (decide (q = p)) as [<-|Hne].
      * rewrite list_lookup_insert_eq in Ep by done. simplify_eq.
      * by rewrite list_lookup_insert_ne in Ep.
  - apply Safe_enqueue; [done|]. simpl. by exists q.
Qed.

Lemma Safe_settle ρ s p o :
  Safe ρ s → explains ρ s p o → Safe ρ (settle p o s).2.
Proof.
  intros HS Hx. unfold settle.
  destruct (heap s !! p) as [[rs|o']|] eqn:E; simpl; [|done|done].
  assert (Hq : p < length (heap s)) by eauto using lookup_lt_Some.
  set (s' := set_jobs _ _).
  assert (He : evolves s s').
  { split; [done|]. unfold settled. simpl. intros p' o' Ep.
    rewrite list_lookup_insert_ne; [done|]. congruence. }
  eapply Safe_frame; eauto; simpl.
  - rewrite length_insert. apply (safe_len _ _ HS).
  - intros p' r' E1 E0. congruence.
  - intros q' rs' r' E' Hr'. left.
    destruct (decide (p = q')) as [<-|Hne].
    + rewrite list_lookup_insert_eq in E' by done. simplify_eq.
    + rewrite list_lookup_insert_ne in E' by done. by exists rs'.
  - intros j Hj. apply elem_of_app in Hj as [?|Hj]; [by left|]. right.
    apply list_elem_of_fmap in Hj as (r & -> & Hr). simpl. exists p. split.
    + unfold settled. simpl. by apply list_lookup_insert_eq.
    + eapply reaction_ok_mono; eauto. eapply safe_reaction; eauto.
  - intros tm Htm. left. split; [done|]. by apply (safe_timer _ _ HS).
  - intros p' o' Ep. unfold settled in *. simpl in Ep.
    destruct (decide (p = p')) as [<-|Hne].
    + rewrite list_lookup_insert_eq in Ep by done. simplify_eq. right.
      eapply explains_mono; eauto.
    + rewrite list_lookup_insert_ne in Ep by done. by left.
Qed.

Lemma Safe_setTimeout ρ s delay t c :
  Safe ρ s → ρ !! t = Some (Timeout (now s + delay) c) →
  Safe ρ (setTimeout delay t c s).2.
Proof.
  intros HS Ht. eapply Safe_frame; eauto; simpl.
  - by apply evolves_heap.
  - apply (safe_len _ _ HS).
  - intros p r E E0. congruence.
  - intros q rs r E Hr. left. by exists rs.
  - intros tm Htm. apply elem_of_app in Htm as [?|Htm].
    + left. split; [done|]. by apply (safe_timer _ _ HS).
    + apply list_elem_of_singleton in Htm as ->. right. split; simpl; [done|lia].
Qed.

(** ** How the primitives change the heap

    Apart from running a job and firing a timer, every operation only adds:
    cells, reactions on pending cells, jobs, timers; a pending cell that is
    settled turns its reactions into jobs. *)

Lemma grows_same s s' :
  heap s' = heap s → jobs s' = jobs s → timers s' = timers s →
  now s' = now s → grows s s'.
Proof.
  intros Hh Hj Ht Hn. split; rewrite ?Hj, ?Ht, ?Hn; try done.
  intros p [rs|o] E; simpl; rewrite Hh; [|done].
  left. exists []. by rewrite app_nil_r.
Qed.

Lemma grows_refl s : grows s s.
Proof. by apply grows_same. Qed.

Lemma grows_trans s1 s2 s3 : grows s1 s2 → grows s2 s3 → grows s1 s3.
Proof.
  intros [Hn1 Hh1 Hj1 Ht1] [Hn2 Hh2 Hj2 Ht2]. split.
  - lia.
  - intros p c E. specialize (Hh1 p c E). destruct c as [rs|o]; simpl in *.
    + destruct Hh1 as [[rs' E']|(o & E' & Hr)].
      * destruct (Hh2 _ _ E') as [[rs'' E'']|(o & E'' & Hr)].
        -- left. exists (rs' ++ rs''). by rewrite (assoc_L (++)).
        -- right. exists o. split; [done|]. intros r Hin. apply Hr.
           apply elem_of_app. by left.
      * right. exists o. split; [by apply (Hh2 _ _ E')|].
        intros r Hin. by apply Hj2, Hr.
    + by apply (Hh2 _ _ Hh1).
  - by etrans.
  - by etrans.
Qed.

Lemma grows_evolves s s' : grows s s' → evolves s s'.
Proof.
  intros [Hn Hh _ _]. split; [done|]. intros p o E. apply (Hh _ _ E).
Qed.

Lemma grows_length s s' : grows s s' → length (heap s) ≤ length (heap s').
Proof.
  intros [_ Hh _ _].
  destruct (decide (length (heap s) ≤ length (heap s'))) as [|Hlt]; [done|].
  exfalso. assert (Hl : length (heap s') < length (heap s)) by lia.
  apply lookup_lt_is_Some in Hl as [c E]. specialize (Hh _ _ E).
  assert (is_Some (heap s' !! length (heap s'))) as Hs.
  { destruct c; simpl in Hh; [destruct Hh as [[? Hh]|(? & Hh & _)]|]; eauto. }
  apply lookup_lt_is_Some in Hs. lia.
Qed.

Lemma grows_pending s s' p :
  grows s s' → p < length (heap s) → pending s' p → pending s p.
Proof.
  intros Hg Hp [rs' E']. apply lookup_lt_is_Some in Hp as [c E].
  destruct c as [rs|o]; [by exists rs|].
  pose proof (grows_heap _ _ Hg _ _ E) as Hc. simpl in Hc. congruence.
Qed.

Lemma grows_registered s s' q r :
  grows s s' → registered s q r →
  registered s' q r ∨ ∃ o, JReact r o ∈ jobs s'.
Proof.
  intros Hg (rs & E & Hr).
  destruct (grows_heap _ _ Hg _ _ E) as [[rs' E']|(o & E' & Hj)].
  - left. exists (rs ++ rs'). split; [done|]. apply elem_of_app. by left.
  - right. exists o. by apply Hj.
Qed.

Lemma grows_new_promise s : grows s (new_promise s).2.
Proof.
  split; simpl; try done. intros p [rs|o] E; simpl.
  - left. exists []. rewrite app_nil_r. by apply lookup_app_l_Some.
  - by apply lookup_app_l_Some.
Qed.

Lemma grows_enqueue s j : grows s (enqueue j s).2.
Proof.
  split; simpl; try done.
  - intros p [rs|o] E; simpl; [|done]. left. exists []. by rewrite app_nil_r.
  - intros x Hx. apply elem_of_app. by left.
Qed.

Lemma grows_then s q r : grows s (then_ q r s).2.
Proof.
  unfold then_. destruct (heap s !! q) as [[rs|o]|] eqn:E; simpl;
    [|apply grows_enqueue|apply grows_refl].
  assert (Hq : q < length (heap s)) by eauto using lookup_lt_Some.
  split; simpl; try done. intros p c Ep.
  destruct (decide (q = p)) as [<-|Hne].
  - simplify_eq. simpl. left. exists [r]. by apply list_lookup_insert_eq.
  - destruct c as [rs'|o]; simpl; rewrite list_lookup_insert_ne by done; [|done].
    left. exists []. by rewrite app_nil_r.
Qed.

Lemma grows_settle s p o : grows s (settle p o s).2.
Proof.
  unfold settle. destruct (heap s !! p) as [[rs|o']|] eqn:E; simpl;
    [|apply grows_refl|apply grows_refl].
  assert (Hq : p < length (heap s)) by eauto using lookup_lt_Some.
  split; simpl; try done.
  - intros p' c Ep. destruct (decide (p = p')) as [<-|Hne].
    + simplify_eq. simpl. right. exists o.
      split; [by apply list_lookup_insert_eq|].
      intros r Hr. apply elem_of_app. right. apply list_elem_of_fmap. eauto.
    + destruct c as [rs'|o']; simpl; rewrite list_lookup_insert_ne by done; [|done].
      left. exists []. by rewrite app_nil_r.
  - intros x Hx. apply elem_of_app. by left.
Qed.

Lemma grows_setTimeout s delay t c : grows s (setTimeout delay t c s).2.
Proof.
  split; simpl; try done.
  - intros p [rs|o] E; simpl; [|done]. left. exists []. by rewrite app_nil_r.
  - intros x Hx. apply elem_of_app. by left.
Qed.

Lemma grows_ret {A} (x : A) : grows_M (ret x).
Proof. intros s. apply grows_refl. Qed.

Lemma grows_gets {A} (f : state → A) : grows_M (gets f).
Proof. intros s. apply grows_refl. Qed.

Lemma grows_bind {A B} (m : M A) (k : A → M B) :
  grows_M m → (∀ x, grows_M (k x)) → grows_M (bind m k).
Proof.
  intros Hm Hk s. unfold bind. specialize (Hm s).
  destruct (m s) as [x s1]. eapply grows_trans; [exact Hm | apply Hk].
Qed.

Lemma grows_modify (f : state → state) :
  (∀ s, heap (f s) = heap s ∧ jobs (f s) = jobs s ∧
        timers (f s) = timers s ∧ now (f s) = now s) →
  grows_M (modify f).
Proof. intros Hf s. destruct (Hf s) as (?&?&?&?). by apply grows_same. Qed.

Create HintDb grows discriminated.
#[local] Hint Resolve grows_ret grows_gets grows_bind : grows.
#[local] Hint Extern 1 (grows_M new_promise) =>
  exact grows_new_promise : grows.
#[local] Hint Extern 1 (grows_M (enqueue _)) =>
  exact (λ s, grows_enqueue s _) : grows.
#[local] Hint Extern 1 (grows_M (then_ _ _)) =>
  exact (λ s, grows_then s _ _) : grows.
#[local] Hint Extern 1 (grows_M (settle _ _)) =>
  exact (λ s, grows_settle s _ _) : grows.
#[local] Hint Extern 1 (grows_M (setTimeout _ _ _)) =>
  exact (λ s, grows_setTimeout s _ _ _) : grows.
#[local] Hint Extern 1 (grows_M (modify _)) =>
  apply grows_modify; intros; simpl; done : grows.
#[local] Hint Extern 2 (grows_M (match ?x with _ => _ end)) =>
  destruct x : grows.
#[local] Hint Extern 2 (grows_M (if ?x then _ else _)) =>
  destruct x : grows.

Ltac grows_tac := intros; repeat (progress (eauto 20 with grows)).

Lemma grows_lookupCredentials t : grows_M (lookupCredentials t).
Proof. unfold lookupCredentials. grows_tac. Qed.

Lemma grows_loadGroups c sub : grows_M (loadGroups c sub).
Proof. unfold loadGroups, resourceGroups_list. grows_tac. Qed.

Lemma grows_timeout_promise d c : grows_M (timeout_promise d c).
Proof. unfold timeout_promise. grows_tac. Qed.

Lemma grows_catch p c : grows_M (catch_ p c).
Proof. unfold catch_. grows_tac. Qed.

Lemma grows_race a b : grows_M (race a b).
Proof. unfold race. grows_tac. Qed.

Lemma grows_resolve p v : grows_M (resolve p v).
Proof. unfold resolve. grows_tac. Qed.

#[local] Hint Resolve grows_lookupCredentials grows_loadGroups
  grows_timeout_promise grows_catch grows_race grows_resolve : grows.

Lemma grows_run_job j : grows_M (run_job j).
Proof.
  destruct j as [[d|d c|id u] [[v|e]|n]|d c]; simpl;
    unfold on_loaded, on_load_failed; grows_tac.
Qed.

Lemma grows_async body : grows_M body → grows_M (async body).
Proof. intros. unfold async. grows_tac. Qed.

Lemma grows_start_update c sub : grows_M (start_update c sub).
Proof. unfold start_update. grows_tac. Qed.

Lemma grows_race_with_current u c : grows_M (race_with_current u c).
Proof. unfold race_with_current. grows_tac. Qed.

#[local] Hint Resolve grows_start_update grows_race_with_current : grows.

Lemma grows_updateGroups_body c sub : grows_M (updateGroups_body c sub).
Proof. unfold updateGroups_body. grows_tac. Qed.

#[local] Hint Resolve grows_async grows_updateGroups_body : grows.

Lemma grows_updateGroups c sub : grows_M (updateGroups c sub).
Proof. unfold updateGroups. grows_tac. Qed.

#[local] Hint Resolve grows_updateGroups : grows.

Lemma grows_fetchGroups : grows_M fetchGroups.
Proof. unfold fetchGroups. grows_tac. Qed.

Lemma grows_onSubscriptionUpdated : grows_M onSubscriptionUpdated.
Proof. unfold onSubscriptionUpdated. grows_tac. Qed.

(** ** Progress is kept while the state grows *)

Lemma progress_grows ρ ρ' s s' p :
  ρ `prefix_of` ρ' → grows s s' → p < length (heap s) →
  progress_at ρ s p → progress_at ρ' s' p.
Proof.
  intros Hp Hg Hlt Hprog Hpend.
  destruct (Hprog (grows_pending _ _ _ Hg Hlt Hpend)) as [(j & Hj & Ht)|Hw].
  { left. exists j. split; [by apply (grows_jobs _ _ Hg)|done]. }
  unfold waiting in *. destruct (ρ !! p) as [r|] eqn:E; [|done].
  rewrite (prefix_lookup_Some _ _ _ _ E Hp).
  destruct r; try done.
  - by right.
  - destruct (grows_registered _ _ _ _ Hg Hw) as [?|[o Ho]]; [by right|].
    left. by exists (JReact (RForward p) o).
  - right. by apply (grows_timers _ _ Hg).
  - destruct (grows_registered _ _ _ _ Hg Hw) as [?|[o Ho]]; [by right|].
    left. by exists (JReact (RCatch p c) o).
  - destruct Hw as [Ha Hb].
    destruct (grows_registered _ _ _ _ Hg Ha) as [?|[o Ho]];
      [|left; by exists (JReact (RForward p) o)].
    destruct (grows_registered _ _ _ _ Hg Hb) as [?|[o Ho]];
      [|left; by exists (JReact (RForward p) o)].
    by right.
Qed.

Lemma Live_grows ρ ρ' s s' :
  Live ρ s → ρ `prefix_of` ρ' → grows s s' →
  (∀ p, length (heap s) ≤ p → progress_at ρ' s' p) →
  Live ρ' s'.
Proof.
  intros HL Hp Hg Hnew p. destruct (decide (p < length (heap s))).
  - eapply progress_grows; eauto.
  - apply Hnew. lia.
Qed.

Lemma then_witness s q r :
  q < length (heap s) →
  registered (then_ q r s).2 q r ∨ ∃ o, JReact r o ∈ jobs (then_ q r s).2.
Proof.
  intros Hq. unfold then_. destruct (lookup_lt_is_Some_2 _ _ Hq) as [[rs|o] E];
    rewrite E; simpl.
  - left. exists (rs ++ [r]). split; [by apply list_lookup_insert_eq|].
    apply elem_of_app. right. by apply list_elem_of_singleton.
  - right. exists o. apply elem_of_app. right. by apply list_elem_of_singleton.
Qed.

Lemma Inv_same ρ s s' :
  Inv ρ s →
  heap s' = heap s → now s' = now s → jobs s' = jobs s →
  timers s' = timers s → current s' ⊆ current s → updates s' ⊆ updates s →
  calls s' ⊆ calls s →
  Inv ρ s'.
Proof.
  intros [HS HL] Hh Hn Hj Ht Hc Hu Hk. split.
  - eapply Safe_same; eauto; by rewrite ?Hj, ?Ht.
  - eapply Live_grows; eauto using grows_same.
    intros p Hp [rs E]. apply lookup_lt_Some in E. rewrite Hh in E. lia.
Qed.

(** *** The promise-creating expressions *)

(** [return x] of an [async] function. *)
Lemma Inv_async_return ρ s x :
  Inv ρ s → x < length (heap s) →
  Inv (ρ ++ [Wrap x])
      (enqueue (JAdopt (length (heap s)) x) (new_promise s).2).2.
Proof.
  intros [HS HL] Hx. pose proof (safe_len _ _ HS) as Hlen. split.
  - apply Safe_enqueue.
    + apply Safe_new_promise; [done| |done].
      intros y Hy. apply list_elem_of_singleton in Hy as ->. done.
    + simpl. unfold adopts. rewrite <-Hlen.
      by rewrite lookup_app_r, Nat.sub_diag by done.
  - eapply Live_grows; eauto.
    + by apply prefix_app_r.
    + eapply grows_trans; [apply grows_new_promise | apply grows_enqueue].
    + intros p Hp [rs E]. left. exists (JAdopt (length (heap s)) x).
      apply lookup_lt_Some in E. simpl in *. rewrite length_app in E.
      simpl in E. assert (p = length (heap s)) as -> by lia. split; [|done].
      apply elem_of_app. right. by apply list_elem_of_singleton.
Qed.

(** [throw e] of an [async] function. *)
Lemma Inv_async_throw ρ s e :
  Inv ρ s →
  Inv (ρ ++ [Thrown e])
      (settle (length (heap s)) (Rejected e) (new_promise s).2).2.
Proof.
  intros [HS HL]. pose proof (safe_len _ _ HS) as Hlen. split.
  - apply Safe_settle.
    + apply Safe_new_promise; [done| |done]. intros y Hy. by apply elem_of_nil in Hy.
    + unfold explains. rewrite <-Hlen.
      by rewrite lookup_app_r, Nat.sub_diag by done.
  - eapply Live_grows; eauto.
    + by apply prefix_app_r.
    + eapply grows_trans; [apply grows_new_promise | apply grows_settle].
    + intros p Hp [rs E]. exfalso. revert E. unfold settle. simpl.
      rewrite list_lookup_middle by done. simpl.
      intros E. pose proof (lookup_lt_Some _ _ _ E) as Hlt.
      rewrite length_insert, length_app in Hlt. simpl in Hlt.
      assert (p = length (heap s)) as -> by lia.
      rewrite list_lookup_insert_eq in E; [done|].
      rewrite length_app. simpl. lia.
Qed.

(** A promise that forwards [x]: the [await] of [loadGroups]. *)
Lemma Inv_forward ρ s x :
  Inv ρ s → x < length (heap s) →
  Inv (ρ ++ [Wrap x])
      (then_ x (RForward (length (heap s))) (new_promise s).2).2.
Proof.
  intros [HS HL] Hx. pose proof (safe_len _ _ HS) as Hlen.
  assert (Hρ : (ρ ++ [Wrap x]) !! length (heap s) = Some (Wrap x)).
  { rewrite <-Hlen. by rewrite lookup_app_r, Nat.sub_diag by done. }
  split.
  - apply Safe_then.
    + apply Safe_new_promise; [done| |done].
      intros y Hy. apply list_elem_of_singleton in Hy as ->. done.
    + simpl. left. unfold adopts. by rewrite Hρ.
  - eapply Live_grows; eauto.
    + by apply prefix_app_r.
    + eapply grows_trans; [apply grows_new_promise | apply grows_then].
    + intros p Hp Hpend.
      assert (p = length (heap s)) as ->.
      { destruct Hpend as [rs E]. apply lookup_lt_Some in E.
        pose proof (grows_length _ _ (grows_then (new_promise s).2 x (RForward (length (heap s))))) as Hl.
        revert E. unfold then_. simpl.
        destruct ((heap s ++ [Pending []]) !! x) as [[?|?]|]; simpl;
          rewrite ?length_insert, length_app; simpl; lia. }
      destruct (then_witness (new_promise s).2 x (RForward (length (heap s)))) as [Hr|[o Ho]].
      * simpl. rewrite length_app. simpl. lia.
      * right. unfold waiting. by rewrite Hρ.
      * left. by exists (JReact (RForward (length (heap s))) o).
Qed.

Lemma length_heap_then s q r : length (heap (then_ q r s).2) = length (heap s).
Proof.
  unfold then_. destruct (heap s !! q) as [[?|?]|]; simpl;
    by rewrite ?length_insert.
Qed.

Lemma length_heap_settle s p o :
  length (heap (settle p o s).2) = length (heap s).
Proof.
  unfold settle. destruct (heap s !! p) as [[?|?]|]; simpl;
    by rewrite ?length_insert.
Qed.

Lemma pending_lt s p : pending s p → p < length (heap s).
Proof. intros [rs E]. eauto using lookup_lt_Some. Qed.

Lemma settled_lt s p o : settled s p o → p < length (heap s).
Proof. unfold settled. eauto using lookup_lt_Some. Qed.

Lemma fulfilled_lt s p : fulfilled s p → p < length (heap s).
Proof. intros [v ?]. eauto using settled_lt. Qed.

Lemma lookup_new_role (ρ : list role) (r : role) n :
  length ρ = n → (ρ ++ [r]) !! n = Some r.
Proof. intros <-. by rewrite lookup_app_r, Nat.sub_diag by done. Qed.

Lemma run_bind {A B} (m : M A) (k : A → M B) s :
  bind m k s = k (m s).1 (m s).2.
Proof. unfold bind. by destruct (m s). Qed.

Lemma ret_run {A} (x : A) s : ret x s = (x, s).
Proof. done. Qed.

Ltac run_binds :=
  rewrite ?run_bind; unfold ret, gets, modify; cbn [fst snd].

(** [client.resourceGroups.list()] *)
Lemma Inv_list ρ s c id :
  Inv ρ s → Inv (ρ ++ [Remote]) (resourceGroups_list c id s).2.
Proof.
  intros [HS HL]. pose proof (safe_len _ _ HS) as Hlen.
  pose proof (lookup_new_role ρ Remote _ Hlen) as Hρ.
  unfold resourceGroups_list, bind, modify, ret. simpl. split.
  - eapply Safe_frame.
    + apply (Safe_new_promise _ _ Remote HS); [|done].
      intros y Hy. by apply elem_of_nil in Hy.
    + done.
    + by apply evolves_heap.
    + simpl. rewrite !length_app. simpl. lia.
    + intros p r E E0. congruence.
    + intros q rs r E Hr. left. by exists rs.
    + by left.
    + intros tm Htm. left. split; [done|]. simpl.
      by apply (safe_timer _ _ HS).
    + by left.
    + by left.
    + by left.
    + simpl. intros k Hk. apply elem_of_app in Hk as [?|Hk]; [by left|].
      apply list_elem_of_singleton in Hk as ->. by right.
  - eapply Live_grows; eauto.
    + by apply prefix_app_r.
    + eapply grows_trans; [apply grows_new_promise|]. by apply grows_same.
    + intros p Hp Hpend. apply pending_lt in Hpend. simpl in Hpend.
      rewrite length_app in Hpend. simpl in Hpend.
      assert (p = length (heap s)) as -> by lia.
      right. unfold waiting. by rewrite Hρ.
Qed.

(** [new Promise(resolve => setTimeout(resolve, delay, c))] *)
Lemma Inv_timeout_promise ρ s delay c :
  Inv ρ s → fulfilled_value s c →
  Inv (ρ ++ [Timeout (now s + delay) c]) (timeout_promise delay c s).2.
Proof.
  intros [HS HL] Hc. pose proof (safe_len _ _ HS) as Hlen.
  pose proof (lookup_new_role ρ (Timeout (now s + delay) c) _ Hlen) as Hρ.
  unfold timeout_promise, bind, ret. simpl. split.
  - apply (Safe_setTimeout _ (new_promise s).2); [|done].
    apply Safe_new_promise; [done| |].
    + destruct c as [c|n]; simpl; intros y Hy; [|by apply elem_of_nil in Hy].
      apply list_elem_of_singleton in Hy as ->. by apply fulfilled_lt.
    + destruct c as [c|n]; simpl; [|done]. by intros ? [= <-].
  - eapply Live_grows; eauto.
    + by apply prefix_app_r.
    + eapply grows_trans; [apply grows_new_promise|].
      apply (grows_setTimeout (new_promise s).2).
    + intros p Hp Hpend. apply pending_lt in Hpend. simpl in Hpend.
      rewrite length_app in Hpend. simpl in Hpend.
      assert (p = length (heap s)) as -> by lia.
      right. unfold waiting. rewrite Hρ. simpl.
      apply elem_of_app. right. by apply list_elem_of_singleton.
Qed.

(** [u.catch(() => c)] *)
Lemma Inv_catch ρ s u c :
  Inv ρ s → is_refresh ρ u → fulfilled_value s c →
  Inv (ρ ++ [Catch u c]) (catch_ u c s).2.
Proof.
  intros [HS HL] Hru Hc. pose proof (safe_len _ _ HS) as Hlen.
  assert (Hu : u < length (heap s)).
  { rewrite <-Hlen. by apply is_refresh_lt. }
  pose proof (lookup_new_role ρ (Catch u c) _ Hlen) as Hρ.
  unfold catch_. run_binds.
  change (new_promise s).1 with (length (heap s)). split.
  - apply Safe_then.
    2:{ split; [done|]. eapply is_refresh_mono; [|done]. by apply prefix_app_r. }
    apply Safe_new_promise; [done| |].
    + intros y Hy. apply elem_of_cons in Hy as [->|Hy]; [done|].
      destruct c as [c|n]; simpl in Hy; [|by apply elem_of_nil in Hy].
      apply list_elem_of_singleton in Hy as ->. by apply fulfilled_lt.
    + destruct c as [c|n]; simpl; [|done]. by intros ? [= <-].
  - eapply Live_grows; eauto.
    + by apply prefix_app_r.
    + eapply grows_trans; [apply grows_new_promise | apply grows_then].
    + intros p Hp Hpend. apply pending_lt in Hpend.
      rewrite length_heap_then in Hpend. simpl in Hpend.
      rewrite length_app in Hpend. simpl in Hpend.
      assert (p = length (heap s)) as -> by lia.
      destruct (then_witness (new_promise s).2 u (RCatch (length (heap s)) c))
        as [Hr|[o Ho]].
      * simpl. rewrite length_app. simpl. lia.
      * right. unfold waiting. by rewrite Hρ.
      * left. by exists (JReact (RCatch (length (heap s)) c) o).
Qed.

(** [Promise.race([a, b])] *)
Lemma Inv_race ρ s a b :
  Inv ρ s → a < length (heap s) → b < length (heap s) →
  Inv (ρ ++ [Race a b]) (race a b s).2.
Proof.
  intros [HS HL] Ha Hb. pose proof (safe_len _ _ HS) as Hlen.
  pose proof (lookup_new_role ρ (Race a b) _ Hlen) as Hρ.
  unfold race. run_binds.
  change (new_promise s).1 with (length (heap s)).
  set (r := length (heap s)) in *.
  set (s1 := (new_promise s).2).
  assert (HS1 : Safe (ρ ++ [Race a b]) s1).
  { apply Safe_new_promise; [done| |done].
    intros y Hy. apply elem_of_cons in Hy as [->|Hy]; [done|].
    by apply list_elem_of_singleton in Hy as ->. }
  assert (Hf : ∀ s0 q, q = a ∨ q = b →
            reaction_ok (ρ ++ [Race a b]) s0 q (RForward r)).
  { intros s0 q Hq. simpl. right. by exists a, b. }
  split.
  - auto using Safe_then.
  - eapply Live_grows; eauto.
    + by apply prefix_app_r.
    + eapply grows_trans; [apply grows_new_promise|].
      eapply grows_trans; apply grows_then.
    + intros p Hp Hpend. apply pending_lt in Hpend.
      rewrite !length_heap_then in Hpend. simpl in Hpend.
      rewrite length_app in Hpend. simpl in Hpend.
      assert (p = r) as -> by (unfold r; lia).
      assert (Hl1 : length (heap s1) = S (length (heap s))).
      { simpl. rewrite length_app. simpl. lia. }
      destruct (then_witness s1 a (RForward r)) as [Hra|[o Ho]]; [lia| |].
      * destruct (grows_registered _ _ _ _
                    (grows_then (then_ a (RForward r) s1).2 b (RForward r)) Hra)
          as [Hra'|[o Ho]]; [|left; by exists (JReact (RForward r) o)].
        destruct (then_witness (then_ a (RForward r) s1).2 b (RForward r))
          as [Hrb|[o Ho]]; [rewrite length_heap_then; lia| |].
        -- right. unfold waiting. by rewrite Hρ.
        -- left. by exists (JReact (RForward r) o).
      * left. exists (JReact (RForward r) o). split; [|done].
        by apply (grows_jobs _ _ (grows_then _ b (RForward r))).
Qed.

(** Lines 64-72: the refresh is stored and its completion handlers are
    attached. *)
Lemma Inv_register ρ s id u :
  Inv ρ s → is_refresh ρ u →
  Inv ρ (then_ u (RDone id u) (set_updates (λ m, <[id:=u]> m) s)).2.
Proof.
  intros [HS HL] Hu. split.
  - apply Safe_then; [|done].
    eapply Safe_frame; eauto; simpl.
    + by apply evolves_heap.
    + apply (safe_len _ _ HS).
    + intros p r E E0. congruence.
    + intros q rs r E Hr. left. by exists rs.
    + intros tm Htm. left. split; [done|]. by apply (safe_timer _ _ HS).
    + intros i u' E. destruct (decide (id = i)) as [<-|Hne].
      * rewrite lookup_insert_eq in E. simplify_eq. by right.
      * rewrite lookup_insert_ne in E by done. by left.
  - eapply Live_grows; eauto.
    + eapply grows_trans; [|apply grows_then]. by apply grows_same.
    + intros p Hp Hpend. apply pending_lt in Hpend.
      rewrite length_heap_then in Hpend. simpl in Hpend. lia.
Qed.

Lemma role_allocated ρ s p r : Safe ρ s → ρ !! p = Some r → p < length (heap s).
Proof.
  intros HS E. rewrite <-(safe_len _ _ HS). eauto using lookup_lt_Some.
Qed.

Lemma settled_inj s p o o' : settled s p o → settled s p o' → o = o'.
Proof. unfold settled. congruence. Qed.

Lemma pending_not_settled s p o : pending s p → settled s p o → False.
Proof. intros [rs E]. unfold settled. congruence. Qed.

Lemma pending_or_settled s p :
  p < length (heap s) → pending s p ∨ ∃ o, settled s p o.
Proof.
  intros Hp. destruct (lookup_lt_is_Some_2 _ _ Hp) as [[rs|o] E].
  - left. by exists rs.
  - right. by exists o.
Qed.

(** ** Frame lemmas *)

Lemma keeps_ret {A B} (f : state → B) (x : A) : keeps f (ret x).
Proof. done. Qed.

Lemma keeps_gets {A B} (f : state → B) (g : state → A) : keeps f (gets g).
Proof. done. Qed.

Lemma keeps_bind {A B C} (f : state → C) (m : M A) (k : A → M B) :
  keeps f m → (∀ x, keeps f (k x)) → keeps f (bind m k).
Proof. intros Hm Hk s. rewrite run_bind. by rewrite Hk, Hm. Qed.

Lemma keeps_then {B} (f : state → B) q r : off_heap f → keeps f (then_ q r).
Proof.
  intros [Hh Hj] s. unfold then_, enqueue, modify.
  repeat case_match; simpl; by rewrite ?Hh, ?Hj.
Qed.

Lemma keeps_settle {B} (f : state → B) p o :
  off_heap f → keeps f (settle p o).
Proof.
  intros [Hh Hj] s. unfold settle. repeat case_match; simpl;
    by rewrite ?Hh, ?Hj.
Qed.

Lemma keeps_new_promise {B} (f : state → B) : off_heap f → keeps f new_promise.
Proof. intros [Hh Hj] s. apply Hh. Qed.

Lemma keeps_enqueue {B} (f : state → B) j : off_heap f → keeps f (enqueue j).
Proof. intros [Hh Hj] s. apply Hj. Qed.

Lemma keeps_resolve {B} (f : state → B) p v :
  off_heap f → keeps f (resolve p v).
Proof.
  intros Hf. destruct v; simpl; [by apply keeps_enqueue|by apply keeps_settle].
Qed.

Lemma off_heap_now : off_heap now.
Proof. done. Qed.
Lemma off_heap_current : off_heap current.
Proof. done. Qed.
Lemma off_heap_updates : off_heap updates.
Proof. done. Qed.
Lemma off_heap_calls : off_heap calls.
Proof. done. Qed.
Lemma off_heap_timers : off_heap timers.
Proof. done. Qed.
Lemma off_heap_defaultSubscription : off_heap defaultSubscription.
Proof. done. Qed.
Lemma off_heap_lookups : off_heap lookups.
Proof. done. Qed.
Lemma off_heap_console : off_heap console.
Proof. done. Qed.

Create HintDb keeps discriminated.
#[local] Hint Resolve keeps_ret keeps_gets keeps_bind keeps_then
  keeps_settle keeps_new_promise keeps_enqueue keeps_resolve
  off_heap_now off_heap_current
  off_heap_updates off_heap_calls off_heap_timers
  off_heap_defaultSubscription off_heap_lookups off_heap_console : keeps.
#[local] Hint Extern 1 (keeps _ (setTimeout _ _ _)) => done : keeps.
#[local] Hint Extern 1 (keeps _ (modify _)) => done : keeps.
#[local] Hint Extern 2 (keeps _ (match ?x with _ => _ end)) =>
  destruct x : keeps.
#[local] Hint Extern 2 (keeps _ (if ?x then _ else _)) =>
  destruct x : keeps.

Ltac keeps_tac :=
  intros;
  unfold fetchGroups, onSubscriptionUpdated, updateGroups, async,
    updateGroups_body, race_with_current, start_update, loadGroups,
    resourceGroups_list, race, catch_, timeout_promise, lookupCredentials,
    on_loaded, on_load_failed, resolve;
  repeat (progress (eauto 200 with keeps)).

Lemma now_updateGroups c sub : keeps now (updateGroups c sub).
Proof. keeps_tac. Qed.

Lemma now_fetchGroups : keeps now fetchGroups.
Proof. keeps_tac. Qed.

Lemma now_onSubscriptionUpdated : keeps now onSubscriptionUpdated.
Proof. keeps_tac. Qed.

Lemma now_run_job j : keeps now (run_job j).
Proof. destruct j as [[d|d c|id u] [[v|e]|n]|d c]; simpl; keeps_tac. Qed.

Lemma current_updateGroups c sub : keeps current (updateGroups c sub).
Proof. keeps_tac. Qed.

Lemma current_fetchGroups : keeps current fetchGroups.
Proof. keeps_tac. Qed.

Lemma current_onSubscriptionUpdated : keeps current onSubscriptionUpdated.
Proof. keeps_tac. Qed.

(** *** The methods *)

Lemma start_update_spec ρ s c sub :
  Inv ρ s →
  (start_update c sub s).1 = S (length (heap s)) ∧
  Inv (ρ ++ [Remote; Wrap (length (heap s))]) (start_update c sub s).2.
Proof.
  intros HI. unfold start_update, loadGroups. run_binds.
  set (s1 := (resourceGroups_list c (sub_id sub) s).2).
  change (resourceGroups_list c (sub_id sub) s).1 with (length (heap s)).
  change (new_promise s1).1 with (length (heap s1)).
  assert (Hl1 : length (heap s1) = S (length (heap s))).
  { unfold s1. simpl. rewrite length_app. simpl. lia. }
  rewrite Hl1. split; [done|].
  pose proof (Inv_list _ _ c (sub_id sub) HI) as HI1. fold s1 in HI1.
  pose proof (Inv_forward _ _ (length (heap s)) HI1) as HI2.
  rewrite Hl1, <-(assoc_L (++)) in HI2. simpl in HI2.
  apply Inv_register; [by apply HI2; lia|].
  pose proof (safe_len _ _ (proj1 HI)) as Hlen.
  exists (length (heap s)). rewrite <-Hlen. split.
  - rewrite lookup_app_r by lia. by replace (S (length ρ) - length ρ) with 1 by lia.
  - by rewrite lookup_app_r, Nat.sub_diag by lia.
Qed.

Lemma length_heap_new_promise s :
  length (heap (new_promise s).2) = S (length (heap s)).
Proof. simpl. rewrite length_app. simpl. lia. Qed.

Lemma length_heap_timeout_promise s d c :
  length (heap (timeout_promise d c s).2) = S (length (heap s)).
Proof. unfold timeout_promise. run_binds. apply length_heap_new_promise. Qed.

Lemma length_heap_catch s u c :
  length (heap (catch_ u c s).2) = S (length (heap s)).
Proof.
  unfold catch_. run_binds. rewrite length_heap_then.
  apply length_heap_new_promise.
Qed.

Lemma length_heap_race s a b :
  length (heap (race a b s).2) = S (length (heap s)).
Proof.
  unfold race. run_binds. rewrite !length_heap_then.
  apply length_heap_new_promise.
Qed.

Lemma catch_fst s u c : (catch_ u c s).1 = length (heap s).
Proof. unfold catch_. by run_binds. Qed.

Lemma race_fst s a b : (race a b s).1 = length (heap s).
Proof. unfold race. by run_binds. Qed.

Lemma fulfilled_grows s s' c : grows s s' → fulfilled s c → fulfilled s' c.
Proof. intros Hg [v Hv]. exists v. by apply (grows_evolves _ _ Hg). Qed.

Lemma fulfilled_value_grows s s' c :
  grows s s' → fulfilled_value s c → fulfilled_value s' c.
Proof. destruct c; simpl; [|done]. apply fulfilled_grows. Qed.

Lemma race_with_current_spec ρ s (u : nat) (c : value) :
  Inv ρ s → is_refresh ρ u → fulfilled_value s c →
  let t := length (heap s) in
  (race_with_current u c s).1 = Return (VPromise (S (S t))) ∧
  Inv (ρ ++ [Timeout (now s + 500) c; Catch u c; Race t (S t)])
      (race_with_current u c s).2.
Proof.
  intros HI Hu Hc t. unfold race_with_current. run_binds.
  set (s1 := (timeout_promise 500 c s).2).
  change (timeout_promise 500 c s).1 with t.
  set (s2 := (catch_ u c s1).2).
  assert (Hl1 : length (heap s1) = S t) by apply length_heap_timeout_promise.
  assert (Hl2 : length (heap s2) = S (S t)).
  { unfold s2. by rewrite length_heap_catch, Hl1. }
  rewrite catch_fst, Hl1. fold s2. rewrite race_fst, Hl2.
  split; [done|].
  pose proof (Inv_timeout_promise _ _ 500 c HI Hc) as HI1. fold s1 in HI1.
  assert (Hc1 : fulfilled_value s1 c).
  { eapply fulfilled_value_grows; [|done]. apply grows_timeout_promise. }
  assert (Hu1 : is_refresh (ρ ++ [Timeout (now s + 500) c]) u).
  { eapply is_refresh_mono; [|done]. by apply prefix_app_r. }
  pose proof (Inv_catch _ _ u c HI1 Hu1 Hc1) as HI2. fold s2 in HI2.
  pose proof (Inv_race _ _ t (S t) HI2 ltac:(lia) ltac:(lia)) as HI3.
  by rewrite <-!(assoc_L (++)) in HI3.
Qed.

Lemma race_with_current_fst s (u : nat) c :
  (race_with_current u c s).1 = Return (VPromise (S (S (length (heap s))))).
Proof.
  unfold race_with_current. run_binds.
  by rewrite race_fst, length_heap_catch, length_heap_timeout_promise.
Qed.

(** [update] has no [catch]: the timer is set and the call throws. *)
Lemma race_with_current_throws name c s :
  race_with_current (VInherited name) c s =
    (Throw (TypeError no_catch), (timeout_promise 500 c s).2).
Proof. unfold race_with_current. by run_binds. Qed.

Lemma state_eq s s' :
  heap s = heap s' → jobs s = jobs s' → timers s = timers s' →
  now s = now s' → current s = current s' → updates s = updates s' →
  defaultSubscription s = defaultSubscription s' →
  subscriptions s = subscriptions s' → login s = login s' →
  calls s = calls s' → lookups s = lookups s' → console s = console s' →
  s = s'.
Proof. destruct s, s'; simpl; intros; by subst. Qed.

Lemma then_pending s q rs r :
  heap s !! q = Some (Pending rs) →
  then_ q r s = (tt, set_heap (λ h, <[q := Pending (rs ++ [r])]> h) s).
Proof. intros E. unfold then_. by rewrite E. Qed.

(** The state [start_update] builds. *)
Lemma start_update_run s c sub :
  let n := length (heap s) in
  start_update c sub s =
    (S n,
     set_heap (λ h, h ++ [Pending [RForward (S n)];
                          Pending [RDone (sub_id sub) (S n)]])
       (set_updates (λ m, <[sub_id sub := S n]> m)
          (set_calls (λ cs, cs ++ [{| call_credentials := c;
                                      call_subscription := sub_id sub;
                                      call_promise := n |}]) s))).
Proof.
  intros n. unfold start_update, loadGroups, resourceGroups_list.
  run_binds. unfold new_promise. cbn [fst snd heap set_calls set_heap].
  rewrite length_app. cbn [length]. rewrite Nat.add_1_r. fold n.
  rewrite (then_pending _ n []).
  2:{ cbn [heap set_heap set_calls]. rewrite <-(assoc_L (++)).
      by apply list_lookup_middle. }
  cbn [fst snd].
  rewrite (then_pending _ (S n) []).
  2:{ cbn [heap set_heap set_calls set_updates].
      rewrite list_lookup_insert_ne by lia. apply list_lookup_middle.
      rewrite length_app. cbn [length]. unfold n. lia. }
  cbn [fst snd]. f_equal. apply state_eq; try reflexivity.
  cbn [heap set_heap set_calls set_updates].
  rewrite <-(assoc_L (++)). cbn [app].
  rewrite (insert_app_r_alt _ _ n) by done. rewrite Nat.sub_diag.
  rewrite (insert_app_r_alt _ _ (S n)) by (unfold n; lia).
  by replace (S n - length (heap s)) with 1 by (unfold n; lia).
Qed.

Lemma start_update_fst s c sub :
  (start_update c sub s).1 = S (length (heap s)).
Proof. by rewrite start_update_run. Qed.

Lemma start_update_fields s c sub :
  let s' := (start_update c sub s).2 in
  current s' = current s ∧ now s' = now s ∧ timers s' = timers s ∧
  updates s' = <[sub_id sub := S (length (heap s))]> (updates s) ∧
  calls s' = calls s ++ [{| call_credentials := c;
                            call_subscription := sub_id sub;
                            call_promise := length (heap s) |}].
Proof. intros s'. unfold s'. by rewrite start_update_run. Qed.

Lemma keeps_race {B} (f : state → B) a b : off_heap f → keeps f (race a b).
Proof. intros. unfold race. eauto 20 with keeps. Qed.

Lemma keeps_catch {B} (f : state → B) u c : off_heap f → keeps f (catch_ u c).
Proof. intros. unfold catch_. eauto 20 with keeps. Qed.

Lemma race_with_current_fields s u c :
  let s' := (race_with_current u c s).2 in
  current s' = current s ∧ now s' = now s ∧ updates s' = updates s ∧
  calls s' = calls s ∧
  timers s' = timers s ++ [{| due := now s + 500;
                              tpromise := length (heap s); tvalue := c |}].
Proof.
  intros s'. unfold s', race_with_current. destruct u as [u|name];
    run_binds; [|done].
  rewrite !(keeps_race _ _ _ off_heap_current), !(keeps_race _ _ _ off_heap_now),
    !(keeps_race _ _ _ off_heap_updates), !(keeps_race _ _ _ off_heap_calls),
    !(keeps_race _ _ _ off_heap_timers).
  rewrite !(keeps_catch _ _ _ off_heap_current), !(keeps_catch _ _ _ off_heap_now),
    !(keeps_catch _ _ _ off_heap_updates), !(keeps_catch _ _ _ off_heap_calls),
    !(keeps_catch _ _ _ off_heap_timers).
  done.
Qed.

(** ** One refresh per subscription id

    The completion handlers of a refresh are attached once, and while they
    have not run the refresh is the entry of [updates] for its id; a remote
    call whose promise is pending is the one behind that entry. *)

Lemma Dedup_same ρ s s' :
  Dedup ρ s →
  heap s' = heap s → jobs s' = jobs s → updates s' = updates s →
  calls s' = calls s →
  Dedup ρ s'.
Proof.
  intros [H1 H2 H3 H4 H5] Hh Hj Hu Hc.
  split; unfold pending; rewrite ?Hh, ?Hj, ?Hu, ?Hc; done.
Qed.

Lemma Dedup_new_promise ρ s r :
  Safe ρ s → Dedup ρ s → Dedup (ρ ++ [r]) (new_promise s).2.
Proof.
  intros HS [H1 H2 H3 H4 H5]. split; simpl; try done.
  - intros q rs i id u E Hi.
    apply lookup_snoc_Some in E as [[_ E]|[_ E]]; [eauto|].
    simplify_eq.
  - intros c Hc [rs E]. simpl in E.
    pose proof (safe_calls _ _ HS c Hc) as Hr.
    pose proof (role_allocated _ _ _ _ HS Hr) as Hlt.
    rewrite lookup_app_l in E by done.
    destruct (H4 c Hc) as (u & Hu & Hw); [by exists rs|].
    exists u. split; [done|]. by apply lookup_app_l_Some.
Qed.

Lemma Dedup_enqueue ρ s j :
  Dedup ρ s → ¬ done_job j → Dedup ρ (enqueue j s).2.
Proof.
  intros [H1 H2 H3 H4 H5] Hj.
  assert (Hold : ∀ i id u o,
    (jobs s ++ [j]) !! i = Some (JReact (RDone id u) o) →
    jobs s !! i = Some (JReact (RDone id u) o)).
  { intros i id u o E. apply lookup_snoc_Some in E as [[_ E]|[_ E]]; [done|].
    subst j. by destruct Hj. }
  split; simpl; try done.
  - intros i id u o E. eauto.
  - intros i k id u u' o o' E E'. eauto.
Qed.

Lemma Dedup_then ρ s q r :
  Dedup ρ s → ¬ done_reaction r → Dedup ρ (then_ q r s).2.
Proof.
  intros HD Hr. unfold then_.
  destruct (heap s !! q) as [[rs|o]|] eqn:E; simpl; [| |done].
  - destruct HD as [H1 H2 H3 H4 H5]. split; simpl; try done.
    + intros q' rs' i id u E' Hi. destruct (decide (q = q')) as [<-|Hne].
      * rewrite list_lookup_insert_eq in E' by eauto using lookup_lt_Some.
        simplify_eq.
        apply lookup_snoc_Some in Hi as [[_ Hi]|[_ Hi]]; [eauto|].
        subst r. by destruct Hr.
      * rewrite list_lookup_insert_ne in E' by done. eauto.
    + intros c Hc [rs' E']. simpl in E'. apply H4; [done|].
      destruct (decide (q = call_promise c)) as [Heq|Hne];
        [rewrite <-Heq; by exists rs|].
      rewrite list_lookup_insert_ne in E' by done. by exists rs'.
  - by apply Dedup_enqueue.
Qed.

Lemma Dedup_settle ρ s p o :
  Safe ρ s → Dedup ρ s → Dedup ρ (settle p o s).2.
Proof.
  intros HS HD. unfold settle.
  destruct (heap s !! p) as [[rs|o']|] eqn:E; simpl; [|done|done].
  destruct HD as [H1 H2 H3 H4 H5].
  assert (Hnew : ∀ i id u o',
    (jobs s ++ map (λ r, JReact r o) rs) !! i = Some (JReact (RDone id u) o') →
    jobs s !! i = Some (JReact (RDone id u) o') ∨
    (i = length (jobs s) ∧ u = p ∧ updates s !! id = Some u)).
  { intros i id u o' Ei. apply lookup_app_Some in Ei as [?|[Hge Ei]]; [by left|].
    right. rewrite list_lookup_fmap in Ei.
    destruct (rs !! (i - length (jobs s))) as [r|] eqn:Er; simplify_eq/=.
    destruct (H1 _ _ _ _ _ E Er) as [Hz Hu].
    pose proof (safe_reaction _ _ HS _ _ _ E (list_elem_of_lookup_2 _ _ _ Er)) as Hq.
    destruct Hq as [Hq _]. split; [lia|done]. }
  assert (Hfresh : ∀ i id u o', ¬ (jobs s !! i = Some (JReact (RDone id u) o') ∧
                                   updates s !! id = Some p)).
  { intros i id u o' [Ei Hu]. pose proof (H2 _ _ _ _ Ei) as Hu'.
    assert (u = p) as -> by congruence.
    destruct (safe_job _ _ HS _ (list_elem_of_lookup_2 _ _ _ Ei))
      as (x & Hx & <- & _).
    unfold settled in Hx. congruence. }
  split; simpl; try done.
  - intros q rs' i id u E' Hi. destruct (decide (p = q)) as [<-|Hne].
    + rewrite list_lookup_insert_eq in E' by eauto using lookup_lt_Some. done.
    + rewrite list_lookup_insert_ne in E' by done. eauto.
  - intros i id u o' Ei. destruct (Hnew _ _ _ _ Ei) as [?|(_ & _ & ?)]; eauto.
  - intros i j id u u' o1 o2 Ei Ej.
    destruct (Hnew _ _ _ _ Ei) as [Hi|(-> & -> & Hu)];
      destruct (Hnew _ _ _ _ Ej) as [Hj|(-> & -> & Hu')]; eauto.
    + destruct (Hfresh _ _ _ _ (conj Hi Hu')).
    + destruct (Hfresh _ _ _ _ (conj Hj Hu)).
  - intros c Hc [rs' E']. simpl in E'. apply H4; [done|].
    destruct (decide (p = call_promise c)) as [Heq|Hne].
    + rewrite <-Heq in E'.
      rewrite list_lookup_insert_eq in E' by eauto using lookup_lt_Some. done.
    + rewrite list_lookup_insert_ne in E' by done. by exists rs'.
Qed.

Lemma Dedup_start_update ρ s c sub :
  Safe ρ s → Dedup ρ s → updates s !! sub_id sub = None →
  Dedup (ρ ++ [Remote; Wrap (length (heap s))]) (start_update c sub s).2.
Proof.
  intros HS [H1 H2 H3 H4 H5] Hnone. rewrite start_update_run. cbn [snd].
  pose proof (safe_len _ _ HS) as Hlen.
  set (n := length (heap s)) in *. set (id := sub_id sub) in *.
  assert (Hne : ∀ id' u, updates s !! id' = Some u →
            <[id:=S n]> (updates s) !! id' = Some u).
  { intros id' u Hu. rewrite lookup_insert_ne; [done|]. congruence. }
  split; simpl.
  - intros q rs i id' u E Hi.
    apply lookup_app_Some in E as [E|[Hge E]].
    { destruct (H1 _ _ _ _ _ E Hi). eauto. }
    fold n in Hge, E. destruct (q - n) as [|[|k]] eqn:Eq; simplify_eq/=.
    + destruct i; simplify_eq/=.
    + destruct i as [|i]; simplify_eq/=.
      split; [done|]. by rewrite lookup_insert_eq.
  - intros i id' u o E. eauto.
  - done.
  - intros k Hk [rs E]. simpl in E.
    apply elem_of_app in Hk as [Hk|Hk].
    + pose proof (safe_calls _ _ HS k Hk) as Hr.
      pose proof (role_allocated _ _ _ _ HS Hr) as Hlt.
      rewrite lookup_app_l in E by done.
      destruct (H4 k Hk) as (u & Hu & Hw); [by exists rs|].
      exists u. split; [eauto|]. by apply lookup_app_l_Some.
    + apply list_elem_of_singleton in Hk as ->. simpl. exists (S n).
      split; [by rewrite lookup_insert_eq|].
      rewrite lookup_app_r by lia.
      by replace (S n - length ρ) with 1 by lia.
  - intros i j k k' Ei Ej Heq.
    assert (Hold : ∀ i k, calls s !! i = Some k → call_promise k < n).
    { intros i0 k0 E0. eapply role_allocated; [done|].
      apply (safe_calls _ _ HS). eauto using list_elem_of_lookup_2. }
    apply lookup_snoc_Some in Ei as [[Hi Ei]|[-> <-]];
      apply lookup_snoc_Some in Ej as [[Hj Ej]|[-> <-]]; simpl in *; eauto.
    + specialize (Hold _ _ Ei). lia.
    + specialize (Hold _ _ Ej). lia.
Qed.

Lemma Dedup_run_job ρ s j q :
  Safe ρ s → Dedup ρ s → jobs s = j :: q →
  Dedup ρ (run_job j (set_jobs (λ _, q) s)).2.
Proof.
  intros HS HD Hj. set (s0 := set_jobs (λ _, q) s).
  assert (HS0 : Safe ρ s0).
  { eapply Safe_same; eauto. simpl. rewrite Hj. intros x Hx.
    apply elem_of_cons. by right. }
  assert (Hok : job_ok ρ s j).
  { apply (safe_job _ _ HS). rewrite Hj. apply elem_of_cons. by left. }
  destruct HD as [H1 H2 H3 H4 H5].
  assert (HD0 : Dedup ρ s0).
  { split; simpl; try done.
    - intros i id u o E. apply (H2 (S i) id u o). by rewrite Hj.
    - intros i k id u u' o o' Ei Ek.
      assert (S i = S k); [|lia].
      apply (H3 (S i) (S k) id u u' o o'); by rewrite Hj. }
  destruct j as [[d|d c|id u] o|d c].
  - by apply Dedup_settle.
  - destruct o as [[v|e]|n]; [by apply Dedup_settle| |by apply Dedup_settle].
    destruct c as [c|n]; [|by apply Dedup_settle].
    apply Dedup_enqueue; [done|]. by intros [].
  - (* the completion handlers leave with the entry of their refresh *)
    destruct Hok as (x & Hx & <- & _).
    assert (Hhead : updates s !! id = Some x).
    { apply (H2 0 id x o). by rewrite Hj. }
    assert (Hgone : ∀ (m : gmap string nat) id' u,
              m = updates s → m !! id' = Some u → (id' = id → u = x) →
              u ≠ x → delete id m !! id' = Some u).
    { intros m id' u -> Hu Hsame Hne. rewrite lookup_delete_ne; [done|].
      intros <-. by apply Hne, Hsame. }
    assert (HD1 : Dedup ρ (set_updates (delete id) s0)).
    { split; simpl; try done.
      - intros p rs i id' u E Hi. destruct (H1 _ _ _ _ _ E Hi) as [Hz Hu].
        split; [done|]. apply (Hgone (updates s)); try done; [congruence|].
        intros ->.
        pose proof (safe_reaction _ _ HS _ _ _ E (list_elem_of_lookup_2 _ _ _ Hi)) as Hq.
        destruct Hq as [Hq _]. subst p. unfold settled in Hx. congruence.
      - intros i id' u o' E.
        assert (Ei : jobs s !! S i = Some (JReact (RDone id' u) o')) by by rewrite Hj.
        pose proof (H2 _ _ _ _ Ei) as Hu.
        rewrite lookup_delete_ne; [done|]. intros <-.
        assert (S i = 0); [|lia].
        apply (H3 (S i) 0 id u x o' o); [done|by rewrite Hj].
      - apply (dd_job_unique _ _ HD0).
      - intros k Hk Hp. destruct (H4 k Hk Hp) as (u & Hu & Hw).
        exists u. split; [|done]. rewrite lookup_delete_ne; [done|].
        intros Heq. rewrite <-Heq in Hu.
        assert (u = x) as -> by congruence.
        pose proof (safe_settled _ _ HS _ _ Hx) as He. unfold explains in He.
        rewrite Hw in He. eapply pending_not_settled; eauto. }
    destruct o as [[v|e]|n]; simpl; unfold on_loaded, on_load_failed;
      run_binds; by eapply Dedup_same.
  - apply Dedup_then; [done|]. by intros [].
Qed.

Lemma Dedup_fire ρ s tm rest :
  Safe ρ s → Dedup ρ s → rest ⊆ timers s →
  Dedup ρ (resolve (tpromise tm) (tvalue tm) (set_timers (λ _, rest) s)).2.
Proof.
  intros HS HD Hr.
  assert (HD0 : Dedup ρ (set_timers (λ _, rest) s)) by by eapply Dedup_same.
  destruct (tvalue tm) as [c|n]; simpl.
  - apply Dedup_enqueue; [done|]. by intros [].
  - apply Dedup_settle; [|done]. by eapply Safe_same.
Qed.

Lemma Dedup_async_return ρ s x :
  Safe ρ s → Dedup ρ s →
  Dedup (ρ ++ [Wrap x])
        (enqueue (JAdopt (length (heap s)) x) (new_promise s).2).2.
Proof.
  intros HS HD. apply Dedup_enqueue; [by apply Dedup_new_promise|]. by intros [].
Qed.

Lemma Dedup_async_throw ρ s e :
  Safe ρ s → Dedup ρ s →
  Dedup (ρ ++ [Thrown e])
        (settle (length (heap s)) (Rejected e) (new_promise s).2).2.
Proof.
  intros HS HD. apply Dedup_settle; [|by apply Dedup_new_promise].
  apply Safe_new_promise; [done| |done]. intros y Hy. by apply elem_of_nil in Hy.
Qed.

Lemma Dedup_timeout_promise ρ s delay c :
  Safe ρ s → Dedup ρ s →
  Dedup (ρ ++ [Timeout (now s + delay) c]) (timeout_promise delay c s).2.
Proof.
  intros HS HD. unfold timeout_promise. run_binds.
  eapply Dedup_same; [by apply (Dedup_new_promise _ s)|done..].
Qed.

Lemma Dedup_race_with_current ρ s (u : nat) (c : value) :
  Inv ρ s → Dedup ρ s → is_refresh ρ u → fulfilled_value s c →
  let t := length (heap s) in
  Dedup (ρ ++ [Timeout (now s + 500) c; Catch u c; Race t (S t)])
        (race_with_current u c s).2.
Proof.
  intros HI HD Hu Hc t. unfold race_with_current. run_binds.
  set (s1 := (timeout_promise 500 c s).2).
  change (timeout_promise 500 c s).1 with t.
  pose proof (Inv_timeout_promise _ _ 500 c HI Hc) as HI1. fold s1 in HI1.
  pose proof (Dedup_timeout_promise _ _ 500 c (proj1 HI) HD) as HD1.
  fold s1 in HD1.
  assert (Hl1 : length (heap s1) = S t) by apply length_heap_timeout_promise.
  assert (Hc1 : fulfilled_value s1 c).
  { eapply fulfilled_value_grows; [|done]. apply grows_timeout_promise. }
  assert (Hu1 : is_refresh (ρ ++ [Timeout (now s + 500) c]) u).
  { eapply is_refresh_mono; [|done]. by apply prefix_app_r. }
  pose proof (Inv_catch _ _ u c HI1 Hu1 Hc1) as HI2.
  assert (HD2 : Dedup ((ρ ++ [Timeout (now s + 500) c]) ++ [Catch u c])
                  (catch_ u c s1).2).
  { unfold catch_. run_binds.
    apply Dedup_then; [|by intros []].
    apply Dedup_new_promise; [apply HI1|done]. }
  rewrite catch_fst, Hl1. set (s2 := (catch_ u c s1).2) in *.
  rewrite <-!(assoc_L (++)) in HI2, HD2. simpl in HI2, HD2.
  replace (ρ ++ [Timeout (now s + 500) c; Catch u c; Race t (S t)])
    with ((ρ ++ [Timeout (now s + 500) c; Catch u c]) ++ [Race t (S t)])
    by by rewrite <-(assoc_L (++)).
  unfold race. run_binds.
  do 2 (apply Dedup_then; [|by intros []]).
  apply Dedup_new_promise; [apply HI2|done].
Qed.

(** A read finds the own property, when there is one. *)
Lemma get_Some (m : gmap string nat) k p :
  m !! k = Some p → get m k = Some (VPromise p).
Proof. intros E. unfold get. by rewrite E. Qed.

Lemma get_None (m : gmap string nat) k :
  get m k = None ↔ m !! k = None ∧ k ∉ Object_prototype.
Proof.
  unfold get. destruct (m !! k).
  { split; [done|]. by intros [? _]. }
  destruct (decide (k ∈ Object_prototype)); split; try done.
  by intros [_ ?].
Qed.

Lemma get_inherited (m : gmap string nat) k name :
  get m k = Some (VInherited name) ↔
  m !! k = None ∧ k ∈ Object_prototype ∧ name = k.
Proof.
  unfold get. destruct (m !! k).
  { split; [done|]. by intros [? _]. }
  destruct (decide (k ∈ Object_prototype)); split; try done.
  - by intros [= <-].
  - by intros (_ & _ & ->).
  - by intros (_ & ? & _).
Qed.

Lemma get_promise (m : gmap string nat) k p :
  get m k = Some (VPromise p) ↔ m !! k = Some p.
Proof.
  unfold get. destruct (m !! k).
  { split; congruence. }
  destruct (decide (k ∈ Object_prototype)); split; done.
Qed.

Lemma get_own (m : gmap string nat) k :
  k ∉ Object_prototype → get m k = VPromise <$> m !! k.
Proof.
  intros Hk. unfold get. destruct (m !! k); [done|]. by rewrite decide_False.
Qed.

Lemma fulfilled_value_current ρ s id c :
  Safe ρ s → get (current s) id = Some c → fulfilled_value s c.
Proof.
  intros HS E. destruct c as [c|n]; [|done].
  apply get_promise in E. eapply safe_current; eauto.
Qed.

Lemma serve_spec ρ s id (u : nat) :
  Coherent ρ s → is_refresh ρ u →
  let m := match get (current s) id with
           | Some c => race_with_current u c
           | None => ret (Return (VPromise u))
           end s in
  ∃ ρ' x, Coherent (ρ ++ ρ') m.2 ∧ updates m.2 = updates s ∧
        m.1 = Return (VPromise x) ∧ x < length (heap m.2) ∧
        body_shape (ρ ++ ρ') x u (get (current s) id) (now s + 500).
Proof.
  intros [HI HD] Hu. destruct (get (current s) id) as [cur|] eqn:Ecur; simpl.
  - (* raced against the cached result *)
    assert (Hful : fulfilled_value s cur).
    { eapply fulfilled_value_current; [apply HI|done]. }
    destruct (race_with_current_spec _ _ u cur HI Hu Hful) as [Hfst HI2].
    pose proof (Dedup_race_with_current _ _ u cur HI HD Hu Hful) as HD2.
    destruct (race_with_current_fields s u cur) as (_ & _ & Hupd & _ & _).
    eexists _, _. split; [exact (conj HI2 HD2)|]. split; [done|].
    split; [exact Hfst|].
    destruct HI2 as [HS2 _]. pose proof (safe_len _ _ HS2) as Hl2.
    destruct HI as [HS _]. pose proof (safe_len _ _ HS) as Hl.
    split.
    + rewrite <-Hl2, length_app, Hl. simpl. lia.
    + exists (length (heap s)), (S (length (heap s))). rewrite <-Hl.
      repeat split.
      * rewrite lookup_app_r by lia.
        by replace (S (S (length ρ)) - length ρ) with 2 by lia.
      * rewrite lookup_app_r by lia. by rewrite Nat.sub_diag.
      * rewrite lookup_app_r by lia.
        by replace (S (length ρ) - length ρ) with 1 by lia.
  - (* the refresh itself *)
    exists [], u. rewrite app_nil_r. split; [by split|].
    split; [done|]. split; [done|]. split; [|done].
    rewrite <-(safe_len _ _ (proj1 HI)). by apply is_refresh_lt.
Qed.

(** How a call went: the read of [updates] found an inherited value and the
    call threw, or the call returned [x], built on the refresh [u]. *)
Lemma updateGroups_body_spec ρ s c sub :
  Coherent ρ s →
  let m := updateGroups_body c sub s in
  ∃ ρ', Coherent (ρ ++ ρ') m.2 ∧
    match get (updates s) (sub_id sub) with
    | Some (VInherited _) =>
        m.1 = Throw (TypeError no_catch) ∧ updates m.2 = updates s
    | _ =>
        ∃ x u, m.1 = Return (VPromise x) ∧
          updates m.2 !! sub_id sub = Some u ∧
          x < length (heap m.2) ∧
          body_shape (ρ ++ ρ') x u (get (current s) (sub_id sub))
            (now s + 500)
    end.
Proof.
  intros HC m. unfold m, updateGroups_body. rewrite !run_bind. unfold gets.
  cbn [fst snd]. destruct (get (updates s) (sub_id sub)) as [[u|name]|] eqn:E.
  - change (ret (VPromise u) s) with (VPromise u, s). cbn [fst snd].
    apply get_promise in E.
    assert (Hr : is_refresh ρ u).
    { destruct HC as [[HS _] _]. eapply safe_updates; eauto. }
    destruct (serve_spec ρ s (sub_id sub) u HC Hr)
      as (ρ' & x & HI' & Hu & Hx & ? & ?).
    exists ρ'. split; [done|]. exists x, u. by rewrite Hu.
  - change (ret (VInherited name) s) with (VInherited name, s). cbn [fst snd].
    apply get_inherited in E as (E & Hin & ->).
    assert (Ecur : ∃ cur, get (current s) (sub_id sub) = Some cur).
    { destruct (get (current s) (sub_id sub)) eqn:Ec; [by eexists|].
      apply get_None in Ec as [_ []]. done. }
    destruct Ecur as [cur Ecur]. rewrite Ecur, race_with_current_throws.
    cbn [fst snd]. destruct HC as [HI HD].
    assert (Hful : fulfilled_value s cur).
    { eapply fulfilled_value_current; [apply HI|done]. }
    exists [Timeout (now s + 500) cur]. split; [|done]. split.
    + by apply Inv_timeout_promise.
    + by apply Dedup_timeout_promise; [apply HI|].
  - apply get_None in E as [E Hid]. destruct HC as [HI HD].
    rewrite run_bind, ret_run. cbn [fst snd].
    destruct (start_update_spec ρ s c sub HI) as [Hfst HI1].
    pose proof (Dedup_start_update ρ s c sub (proj1 HI) HD E) as HD1.
    destruct (start_update_fields s c sub) as (Hc & Hn & _ & Hu & _).
    rewrite Hfst. set (s1 := (start_update c sub s).2) in *.
    assert (Hr : is_refresh (ρ ++ [Remote; Wrap (length (heap s))])
                   (S (length (heap s)))).
    { pose proof (safe_len _ _ (proj1 HI)) as Hlen.
      exists (length (heap s)). rewrite <-Hlen. split.
      - rewrite lookup_app_r by lia.
        by replace (S (length ρ) - length ρ) with 1 by lia.
      - by rewrite lookup_app_r, Nat.sub_diag by lia. }
    destruct (serve_spec _ s1 (sub_id sub) _ (conj HI1 HD1) Hr)
      as (ρ' & x & HI' & Hu' & Hx & Hlt & Hshape).
    rewrite <-(assoc_L (++)) in HI', Hshape. rewrite Hc, Hn in Hshape.
    eexists. split; [exact HI'|]. exists x, (S (length (heap s))).
    split; [done|]. split; [|done].
    rewrite Hu', Hu. apply lookup_insert_eq.
Qed.

Lemma async_return_spec ρ s (body : M completion) (x : nat) :
  (body s).1 = Return x →
  Inv ρ (body s).2 → x < length (heap (body s).2) →
  (async body s).1 = length (heap (body s).2) ∧
  Inv (ρ ++ [Wrap x]) (async body s).2 ∧
  updates (async body s).2 = updates (body s).2 ∧
  current (async body s).2 = current (body s).2 ∧
  calls (async body s).2 = calls (body s).2 ∧
  timers (async body s).2 = timers (body s).2.
Proof.
  intros Hx HI Hlt. unfold async. run_binds. rewrite Hx. unfold resolve.
  run_binds.
  change (new_promise (body s).2).1 with (length (heap (body s).2)).
  split; [done|]. split; [by apply Inv_async_return|]. done.
Qed.

Lemma async_throw_spec ρ s (body : M completion) e :
  (body s).1 = Throw e →
  Inv ρ (body s).2 →
  (async body s).1 = length (heap (body s).2) ∧
  Inv (ρ ++ [Thrown e]) (async body s).2 ∧
  settled (async body s).2 (length (heap (body s).2)) (Rejected e) ∧
  updates (async body s).2 = updates (body s).2 ∧
  current (async body s).2 = current (body s).2 ∧
  calls (async body s).2 = calls (body s).2 ∧
  timers (async body s).2 = timers (body s).2 ∧
  jobs (async body s).2 = jobs (body s).2.
Proof.
  intros Hx HI. unfold async. run_binds. rewrite Hx. run_binds.
  change (new_promise (body s).2).1 with (length (heap (body s).2)).
  split; [done|]. split; [by apply Inv_async_throw|].
  unfold settled, settle. simpl. rewrite list_lookup_middle by done. simpl.
  rewrite app_nil_r. repeat split; try done.
  apply list_lookup_insert_eq. rewrite length_app. simpl. lia.
Qed.

Lemma body_shape_prefix ρ ρ' x u cur d :
  ρ `prefix_of` ρ' → body_shape ρ x u cur d → body_shape ρ' x u cur d.
Proof.
  intros Hp. destruct cur as [c|]; simpl; [|done].
  intros (t & k & ? & ? & ?). exists t, k.
  eauto 6 using prefix_lookup_Some.
Qed.

(** An [async] function that throws returns a promise born rejected. *)
Lemma async_throw_run (body : M completion) s e :
  (body s).1 = Throw e →
  async body s =
    (length (heap (body s).2),
     set_heap (λ h, h ++ [Settled (Rejected e)]) (body s).2).
Proof.
  intros Hb. unfold async. run_binds. rewrite Hb.
  unfold settle, new_promise. simpl. rewrite list_lookup_middle by done.
  simpl. f_equal. destruct (body s).2; unfold set_jobs, set_heap; simpl.
  f_equal.
  - rewrite insert_app_r_alt by done. by rewrite Nat.sub_diag.
  - by rewrite app_nil_r.
Qed.

Lemma async_return_run (body : M completion) s (x : nat) :
  (body s).1 = Return x →
  async body s =
    (length (heap (body s).2),
     set_jobs (λ q, q ++ [JAdopt (length (heap (body s).2)) x])
       (set_heap (λ h, h ++ [Pending []]) (body s).2)).
Proof. intros Hb. unfold async. run_binds. by rewrite Hb. Qed.

(** The promise of a call: rejected at once when the read of [updates]
    found an inherited value, else resolved with what the body returned. *)
Lemma updateGroups_spec ρ s c sub :
  Coherent ρ s →
  let P := (updateGroups c sub s).1 in
  ∃ ρ', Coherent (ρ ++ ρ') (updateGroups c sub s).2 ∧
    match get (updates s) (sub_id sub) with
    | Some (VInherited _) =>
        (ρ ++ ρ') !! P = Some (Thrown (TypeError no_catch)) ∧
        updates (updateGroups c sub s).2 = updates s
    | _ =>
        ∃ x u, (updateGroups_body c sub s).1 = Return (VPromise x) ∧
          updates (updateGroups c sub s).2 !! sub_id sub = Some u ∧
          (ρ ++ ρ') !! P = Some (Wrap x) ∧
          body_shape (ρ ++ ρ') x u (get (current s) (sub_id sub))
            (now s + 500)
    end.
Proof.
  intros HC P.
  destruct (updateGroups_body_spec ρ s c sub HC) as (ρ1 & [HI1 HD1] & Hm).
  unfold P, updateGroups. set (body := updateGroups_body c sub) in *.
  pose proof (safe_len _ _ (proj1 HI1)) as Hl1.
  destruct (get (updates s) (sub_id sub)) as [[u0|name]|];
    [destruct Hm as (x & u & Hb1 & Hu & Hx & Hshape)
    |destruct Hm as [Hb1 Hu]
    |destruct Hm as (x & u & Hb1 & Hu & Hx & Hshape)].
  1,3: destruct (async_return_spec _ s body _ Hb1 HI1 Hx)
         as (Hfst & HI2 & Hupd & _);
       exists (ρ1 ++ [Wrap x]); rewrite (assoc_L (++));
       (split;
        [split; [done|]; rewrite (async_return_run body s _ Hb1); cbn [snd];
         apply (Dedup_async_return _ _ _ (proj1 HI1) HD1)|]);
       exists x, u; split; [done|]; split; [by rewrite Hupd|];
       rewrite Hfst; (split; [by apply lookup_new_role|]);
       (eapply body_shape_prefix; [|done]); by apply prefix_app_r.
  destruct (async_throw_spec _ s body _ Hb1 HI1)
    as (Hfst & HI2 & _ & Hupd & _).
  exists (ρ1 ++ [Thrown (TypeError no_catch)]). rewrite (assoc_L (++)).
  split.
  - split; [done|]. unfold async. run_binds. rewrite Hb1. run_binds.
    apply (Dedup_async_throw _ _ _ (proj1 HI1) HD1).
  - rewrite Hfst. split; [by apply lookup_new_role|]. by rewrite Hupd.
Qed.

Lemma updateGroups_Coherent ρ s c sub :
  Coherent ρ s →
  ∃ ρ', Coherent (ρ ++ ρ') (updateGroups c sub s).2 ∧
        (updateGroups c sub s).1 < length (heap (updateGroups c sub s).2).
Proof.
  intros HC. destruct (updateGroups_spec ρ s c sub HC) as (ρ' & HC' & Hm).
  exists ρ'. split; [done|].
  assert (∃ r, (ρ ++ ρ') !! (updateGroups c sub s).1 = Some r) as [r Hr].
  { destruct (get (updates s) (sub_id sub)) as [[u|n]|];
      [destruct Hm as (x & u' & _ & _ & ? & _)|destruct Hm as [? _]
      |destruct Hm as (x & u' & _ & _ & ? & _)]; eauto. }
  eapply role_allocated; [apply HC'|done].
Qed.

(** ** Every step of the event loop keeps the invariants *)

Lemma feeds_explains ρ s d q o :
  feeds ρ s d q → settled s q o → explains ρ s d o.
Proof.
  unfold feeds, adopts, explains.
  intros [H|(a & b & -> & [->| ->])] Hq; [|by left|by right].
  destruct (ρ !! d) as [[]|]; try done.
  - by subst.
  - by destruct H as [-> ?].
  - destruct H as [-> [e ?]]. right. by exists e.
Qed.

Lemma adopts_source ρ s d c :
  Safe ρ s → adopts ρ s d c → c < length (heap s).
Proof.
  intros HS Ha. unfold adopts in Ha.
  destruct (ρ !! d) as [r|] eqn:E; [|done].
  pose proof (lookup_lt_Some _ _ _ E) as Hd. rewrite (safe_len _ _ HS) in Hd.
  assert (c ∈ role_sources r) as Hc.
  { destruct r; try done; simpl.
    - subst. by apply list_elem_of_singleton.
    - destruct Ha as [-> _]. by apply list_elem_of_singleton.
    - destruct Ha as [-> _]. apply elem_of_cons. right.
      by apply list_elem_of_singleton. }
  pose proof (safe_src _ _ HS _ _ _ E Hc). lia.
Qed.

Lemma settle_not_pending s p o : ¬ pending (settle p o s).2 p.
Proof.
  unfold settle. intros [rs E]. revert E.
  destruct (heap s !! p) as [[rs'|o']|] eqn:E'; simpl; try congruence.
  rewrite list_lookup_insert_eq; [done|]. eauto using lookup_lt_Some.
Qed.

Lemma progress_same_length ρ s s' p :
  grows s s' → length (heap s') = length (heap s) →
  progress_at ρ s p → progress_at ρ s' p.
Proof.
  intros Hg Hl Hp Hpend. eapply progress_grows; eauto.
  apply pending_lt in Hpend. lia.
Qed.

Lemma progress_pop ρ s j q p :
  jobs s = j :: q → job_target j ≠ Some p →
  progress_at ρ s p → progress_at ρ (set_jobs (λ _, q) s) p.
Proof.
  intros Hj Hne Hp Hpend. destruct (Hp Hpend) as [(j' & Hin & Ht)|Hw].
  - left. exists j'. split; [|done]. simpl. rewrite Hj in Hin.
    apply elem_of_cons in Hin as [->|]; [congruence|done].
  - by right.
Qed.

(** A refresh is settled with the outcome of its listing. *)
Lemma refresh_settlement ρ s u o :
  Safe ρ s → is_refresh ρ u → settled s u o → ∃ o' : outcome, o = o'.
Proof.
  intros HS (l & Eu & El) Ho.
  pose proof (safe_settled _ _ HS _ _ Ho) as He. unfold explains in He.
  rewrite Eu in He.
  pose proof (safe_settled _ _ HS _ _ He) as He'. unfold explains in He'.
  by rewrite El in He'.
Qed.

(** The completion handlers are called with the outcome of a listing. *)
Lemma done_job_outcome ρ s id u o :
  Safe ρ s → JReact (RDone id u) o ∈ jobs s → ∃ o' : outcome, o = o'.
Proof.
  intros HS Hin. destruct (safe_job _ _ HS _ Hin) as (q & Hq & _ & Href).
  eapply refresh_settlement; eauto.
Qed.

Lemma Inv_run_job ρ s j q :
  Inv ρ s → jobs s = j :: q → Inv ρ (run_job j (set_jobs (λ _, q) s)).2.
Proof.
  intros [HS HL] Hj. set (s0 := set_jobs (λ _, q) s).
  assert (HS0 : Safe ρ s0).
  { eapply Safe_same; eauto. simpl. rewrite Hj. intros x Hx.
    apply elem_of_cons. by right. }
  assert (Hok : job_ok ρ s0 j).
  { eapply job_ok_mono; [done|by apply evolves_heap|].
    apply (safe_job _ _ HS). rewrite Hj. apply elem_of_cons. by left. }
  assert (HL0 : ∀ p, job_target j ≠ Some p → progress_at ρ s0 p).
  { intros p Hp. eapply progress_pop; eauto. }
  assert (Hlive : ∀ s', grows s0 s' → length (heap s') = length (heap s0) →
            (∀ p, job_target j = Some p → progress_at ρ s' p) → Live ρ s').
  { intros s' Hg Hl Ht p. destruct (decide (job_target j = Some p)); [auto|].
    eapply progress_same_length; eauto. }
  destruct j as [[d|d c|id u] o|d c]; simpl in *.
  - (* the resolving functions of [d] *)
    destruct Hok as (x & Hx & Hf). split.
    + apply Safe_settle; [done|]. eapply feeds_explains; eauto.
    + apply Hlive; [apply grows_settle|exact (length_heap_settle s0 _ _)|].
      intros p [= <-] Hpend. by apply settle_not_pending in Hpend.
  - (* .catch(() => current) *)
    destruct Hok as (x & Hx & Hr & Href).
    destruct o as [[v|e]|n]; simpl;
      [| |by destruct (refresh_settlement _ _ _ _ HS0 Href Hx)].
    + split.
      * apply Safe_settle; [done|]. unfold explains. rewrite Hr. left. eauto.
      * apply Hlive; [apply grows_settle|exact (length_heap_settle s0 _ _)|].
        intros p [= <-] Hpend. by apply settle_not_pending in Hpend.
    + destruct c as [c|n]; simpl; split.
      * apply Safe_enqueue; [done|]. simpl. unfold adopts. rewrite Hr. eauto.
      * apply Hlive; [apply grows_enqueue|done|].
        intros p [= <-] _. left. exists (JAdopt d c). split; [|done].
        simpl. apply elem_of_app. right. by apply list_elem_of_singleton.
      * apply Safe_settle; [done|]. unfold explains. rewrite Hr. right.
        by exists e.
      * apply Hlive; [apply grows_settle|exact (length_heap_settle s0 _ _)|].
        intros p [= <-] Hpend. by apply settle_not_pending in Hpend.
  - (* the completion handlers *)
    destruct Hok as (x & Hx & <- & Href).
    destruct o as [[v|e]|n];
      [| |by destruct (refresh_settlement _ _ _ _ HS0 Href Hx)].
    + unfold on_loaded. run_binds. split.
      * eapply Safe_frame; eauto; simpl.
        -- by apply evolves_heap.
        -- apply (safe_len _ _ HS0).
        -- intros p r E E0. congruence.
        -- intros q' rs r E Hr. left. by exists rs.
        -- intros tm Htm. left. split; [done|]. by apply (safe_timer _ _ HS0).
        -- intros i c' E. destruct (decide (id = i)) as [<-|Hne].
           ++ rewrite lookup_insert_eq in E. simplify_eq. right. by exists v.
           ++ rewrite lookup_insert_ne in E by done. by left.
        -- intros i u E. left. eapply lookup_weaken; [done|].
           apply delete_subseteq.
      * apply Hlive; [by apply grows_same|done|done].
    + unfold on_load_failed. run_binds. split.
      * eapply Safe_same; eauto. simpl. apply delete_subseteq.
      * apply Hlive; [by apply grows_same|done|done].
  - (* adopting the thenable [c] *)
    split.
    + apply Safe_then; [done|]. simpl. by left.
    + apply Hlive; [apply grows_then|exact (length_heap_then s0 _ _)|].
      intros p [= <-] Hpend.
      destruct (then_witness s0 c (RForward d)) as [Hr|[o Ho]].
      * eapply adopts_source; eauto.
      * right. unfold waiting. unfold adopts in Hok.
        destruct (ρ !! d) as [r|] eqn:E; [|done].
        assert (Hcp : pending s0 c).
        { destruct Hr as (rs & Hc & _).
          eapply grows_pending; [apply grows_then| |by exists rs].
          eapply adopts_source; eauto. unfold adopts. by rewrite E. }
        assert (Hnf : ¬ fulfilled s0 c).
        { intros [v Hv]. destruct Hcp as [rs Hc]. unfold settled in Hv. congruence. }
        destruct r; try done.
        -- by subst.
        -- destruct Hok as [-> _]. destruct Hnf.
           eapply (safe_fallback _ _ HS0); eauto.
        -- destruct Hok as [-> _]. destruct Hnf.
           eapply (safe_fallback _ _ HS0); eauto.
      * left. by exists (JReact (RForward d) o).
Qed.

Lemma pop_due_Some t l tm rest :
  pop_due t l = Some (tm, rest) →
  due tm ≤ t ∧ tm ∈ l ∧ rest ⊆ l ∧ ∀ x, x ∈ l → x = tm ∨ x ∈ rest.
Proof.
  revert rest. induction l as [|x l IH]; intros rest; simpl; [done|].
  case_decide.
  - intros [= <- <-]. repeat split; [done|apply elem_of_cons; by left| |].
    + intros y Hy. apply elem_of_cons. by right.
    + intros y Hy. by apply elem_of_cons in Hy.
  - destruct (pop_due t l) as [[y r]|]; [|done]. intros [= <- <-].
    destruct (IH r eq_refl) as (Hd & Hin & Hsub & Hall).
    repeat split; [done|apply elem_of_cons; by right| |].
    + intros z Hz. apply elem_of_cons in Hz as [->|Hz];
        apply elem_of_cons; [by left|right; by apply Hsub].
    + intros z Hz. apply elem_of_cons in Hz as [->|Hz].
      * right. apply elem_of_cons. by left.
      * destruct (Hall z Hz); [by left|right]. apply elem_of_cons. by right.
Qed.

Lemma Inv_settle_remote ρ s c (o : outcome) :
  Inv ρ s → c ∈ calls s → Inv ρ (settle (call_promise c) o s).2.
Proof.
  intros [HS HL] Hc. split.
  - apply Safe_settle; [done|]. unfold explains.
    rewrite (safe_calls _ _ HS c Hc). by exists o.
  - intros p. eapply progress_same_length;
      eauto using grows_settle, length_heap_settle.
Qed.

Lemma Inv_fire ρ s tm rest :
  Inv ρ s → pop_due (now s) (timers s) = Some (tm, rest) →
  Inv ρ (resolve (tpromise tm) (tvalue tm) (set_timers (λ _, rest) s)).2.
Proof.
  intros [HS HL] Hpop.
  destruct (pop_due_Some _ _ _ _ Hpop) as (Hdue & Hin & Hsub & Hall).
  set (s0 := set_timers (λ _, rest) s).
  assert (HS0 : Safe ρ s0) by (eapply Safe_same; eauto).
  destruct (safe_timer _ _ HS tm Hin) as [Hrole _].
  assert (HL0 : ∀ p, p ≠ tpromise tm → progress_at ρ s0 p).
  { intros p Hne Hpend. destruct (HL p Hpend) as [(j & Hj & Ht)|Hw].
    - left. by exists j.
    - right. unfold waiting in *. destruct (ρ !! p) as [[]|]; try done.
      simpl. destruct (Hall _ Hw) as [<-|?]; [done|done]. }
  destruct (tvalue tm) as [c|n] eqn:Ev; simpl; split.
  - apply Safe_enqueue; [done|]. simpl. unfold adopts. by rewrite Hrole.
  - intros p Hpend. destruct (decide (p = tpromise tm)) as [->|Hne].
    { left. exists (JAdopt (tpromise tm) c). split; [|done].
      simpl. apply elem_of_app. right. by apply list_elem_of_singleton. }
    eapply progress_same_length; [apply grows_enqueue|done|by apply HL0|done].
  - apply Safe_settle; [done|]. unfold explains. by rewrite Hrole.
  - intros p Hpend. destruct (decide (p = tpromise tm)) as [->|Hne].
    { by apply settle_not_pending in Hpend. }
    eapply progress_same_length;
      [apply grows_settle|apply length_heap_settle|by apply HL0|done].
Qed.

Lemma Inv_wait ρ s dt :
  Inv ρ s → Forall (λ tm, now s + dt ≤ due tm) (timers s) →
  Inv ρ (set_now (λ t, t + dt) s).
Proof.
  intros [HS HL] Hall. rewrite Forall_forall in Hall. split.
  - eapply Safe_frame; eauto; simpl.
    + apply evolves_heap; simpl; [done|lia].
    + apply (safe_len _ _ HS).
    + intros p r E E0. congruence.
    + intros q rs r E Hr. left. by exists rs.
  - intros p. eapply progress_same_length; [|done|apply HL].
    split; simpl; try done.
    intros q [rs|o] E; simpl; [|done]. left. exists []. by rewrite app_nil_r.
Qed.

Lemma Inv_lookupCredentials ρ s t :
  Inv ρ s → Inv ρ (lookupCredentials t s).2.
Proof. intros HI. unfold lookupCredentials. run_binds. by eapply Inv_same. Qed.

Lemma Coherent_same ρ s s' :
  Coherent ρ s →
  heap s' = heap s → now s' = now s → jobs s' = jobs s →
  timers s' = timers s → current s' = current s → updates s' = updates s →
  calls s' = calls s →
  Coherent ρ s'.
Proof.
  intros [HI HD] Hh Hn Hj Ht Hc Hu Hk. split.
  - eapply Inv_same; eauto; by rewrite ?Hc, ?Hu, ?Hk.
  - by eapply Dedup_same.
Qed.

Lemma Coherent_fetchGroups ρ s :
  Coherent ρ s → ∃ ρ', Coherent (ρ ++ ρ') (fetchGroups s).2.
Proof.
  intros HC. unfold fetchGroups.
  set (body := bind _ _).
  destruct (defaultSubscription s) as [sub|] eqn:Ed.
  - set (s0 := (lookupCredentials (tenantId sub) s).2).
    assert (HC0 : Coherent ρ s0) by by eapply Coherent_same.
    destruct (login s !! tenantId sub) as [c|] eqn:Ec.
    + assert (Hb : body s = (Return (updateGroups c sub s0).1,
                             (updateGroups c sub s0).2)).
      { unfold body. run_binds. rewrite Ed. run_binds.
        change (lookupCredentials (tenantId sub) s).1
          with (login s !! tenantId sub).
        rewrite Ec. by run_binds. }
      destruct (updateGroups_Coherent ρ s0 c sub HC0)
        as (ρ1 & [HI1 HD1] & Hlt).
      exists (ρ1 ++ [Wrap (updateGroups c sub s0).1]).
      rewrite (assoc_L (++)).
      rewrite (async_return_run body s (updateGroups c sub s0).1)
        by by rewrite Hb.
      rewrite Hb. cbn [fst snd]. split.
      * by apply Inv_async_return.
      * apply (Dedup_async_return _ _ _ (proj1 HI1) HD1).
    + assert (Hb : body s = (Throw (UIError not_logged_in), s0)).
      { unfold body. run_binds. rewrite Ed. run_binds.
        change (lookupCredentials (tenantId sub) s).1
          with (login s !! tenantId sub).
        by rewrite Ec. }
      exists [Thrown (UIError not_logged_in)].
      unfold async. run_binds. rewrite Hb. cbn [fst snd].
      change (new_promise s0).1 with (length (heap s0)).
      destruct HC0 as [HI0 HD0]. split.
      * by apply Inv_async_throw.
      * apply (Dedup_async_throw _ _ _ (proj1 HI0) HD0).
  - assert (Hb : body s = (Throw (UIError not_logged_in), s)).
    { unfold body. run_binds. by rewrite Ed. }
    exists [Thrown (UIError not_logged_in)].
    unfold async. run_binds. rewrite Hb. cbn [fst snd].
    change (new_promise s).1 with (length (heap s)).
    destruct HC as [HI HD]. split.
    + by apply Inv_async_throw.
    + apply (Dedup_async_throw _ _ _ (proj1 HI) HD).
Qed.

Lemma Coherent_onSubscriptionUpdated ρ s :
  Coherent ρ s → ∃ ρ', Coherent (ρ ++ ρ') (onSubscriptionUpdated s).2.
Proof.
  intros HC. unfold onSubscriptionUpdated. run_binds.
  case_decide; run_binds.
  { exists []. by rewrite app_nil_r. }
  set (s0 := set_defaultSubscription _ s).
  assert (HC0 : Coherent ρ s0) by by eapply Coherent_same.
  destruct (find isDefault (subscriptions s)) as [sub|]; run_binds;
    [|exists []; by rewrite app_nil_r].
  change (lookupCredentials (tenantId sub) s0).1
    with (login s0 !! tenantId sub).
  assert (HC1 : Coherent ρ (lookupCredentials (tenantId sub) s0).2)
    by by eapply Coherent_same.
  destruct (login s0 !! tenantId sub) as [c|]; run_binds.
  - destruct (updateGroups_Coherent ρ _ c sub HC1) as (ρ1 & HC2 & _).
    by exists ρ1.
  - exists []. by rewrite app_nil_r.
Qed.

Lemma Coherent_step ρ s e :
  Coherent ρ s → ∃ ρ', Coherent (ρ ++ ρ') (step e s).
Proof.
  intros HC.
  assert (Hsame : ∀ s', Coherent ρ s' → ∃ ρ', Coherent (ρ ++ ρ') s').
  { intros s' ?. exists []. by rewrite app_nil_r. }
  destruct e as [| |subs|l|k o| |dt]; simpl.
  - destruct (jobs s) as [|j q] eqn:Ej; [auto|].
    apply Hsame. destruct HC as [HI HD]. split.
    + by apply Inv_run_job.
    + by apply (Dedup_run_job _ _ _ _ (proj1 HI) HD).
  - by apply Coherent_fetchGroups.
  - apply Coherent_onSubscriptionUpdated. by eapply Coherent_same.
  - apply Hsame. by eapply Coherent_same.
  - destruct (calls s !! k) as [c|] eqn:Ek; [|auto].
    apply Hsame. destruct HC as [HI HD]. split.
    + apply Inv_settle_remote; [done|]. eapply list_elem_of_lookup_2; eauto.
    + by apply (Dedup_settle _ _ _ _ (proj1 HI) HD).
  - destruct (jobs s); [|auto].
    destruct (pop_due (now s) (timers s)) as [[tm rest]|] eqn:Ep; [|auto].
    apply Hsame. destruct HC as [HI HD]. split.
    + by apply Inv_fire.
    + apply Dedup_fire; [apply HI|done|].
      by destruct (pop_due_Some _ _ _ _ Ep) as (_ & _ & ? & _).
  - case_decide as Hd; [|auto]. destruct Hd as [_ Hall].
    apply Hsame. destruct HC as [HI HD]. split.
    + by apply Inv_wait.
    + by eapply Dedup_same.
Qed.

Lemma Coherent_run ρ s evs :
  Coherent ρ s → ∃ ρ', Coherent (ρ ++ ρ') (run evs s).
Proof.
  revert ρ s. induction evs as [|e evs IH]; intros ρ s HI; simpl.
  - exists []. by rewrite app_nil_r.
  - destruct (Coherent_step ρ s e HI) as (ρ1 & HI1).
    destruct (IH _ _ HI1) as (ρ2 & HI2).
    exists (ρ1 ++ ρ2). by rewrite (assoc_L (++)).
Qed.

Lemma Coherent_empty subs l t0 : Coherent [] (empty_state subs l t0).
Proof.
  split; [split; [split|]|split]; simpl; try done.
  - intros j Hj. by apply elem_of_nil in Hj.
  - intros tm Htm. by apply elem_of_nil in Htm.
  - intros c Hc. by apply elem_of_nil in Hc.
  - intros p [rs E]. done.
  - intros c Hc. by apply elem_of_nil in Hc.
Qed.

Lemma reachable_Coherent s : reachable s → ∃ ρ, Coherent ρ s.
Proof.
  intros (subs & l & t0 & evs & ->).
  destruct (Coherent_onSubscriptionUpdated [] _ (Coherent_empty subs l t0))
    as (ρ0 & HI0).
  destruct (Coherent_run _ _ evs HI0) as (ρ1 & HI1). eauto.
Qed.

Lemma reachable_Inv s : reachable s → ∃ ρ, Inv ρ s.
Proof.
  intros Hr. destruct (reachable_Coherent _ Hr) as [ρ [HI _]]. eauto.
Qed.

(** ** Own properties and inherited names

    A refresh is stored under an id only after the read of [updates] under
    that id found nothing, and the cached results are stored under the ids
    of refreshes. *)

Lemma async_off_heap {B} (f : state → B) (body : M completion) s :
  off_heap f → f (async body s).2 = f (body s).2.
Proof.
  intros Hf. unfold async. run_binds.
  assert (Hk : ∀ p c, keeps f (match c with
                                | Return x => resolve p x
                                | Throw e => settle p (Rejected e)
                                end)).
  { intros p [[x|n]|e]; unfold resolve; eauto with keeps. }
  by rewrite Hk, (keeps_new_promise f Hf).
Qed.

Lemma updateGroups_updates s c sub :
  updates (updateGroups c sub s).2 =
    match get (updates s) (sub_id sub) with
    | None => <[sub_id sub := S (length (heap s))]> (updates s)
    | Some _ => updates s
    end.
Proof.
  unfold updateGroups. rewrite (async_off_heap updates) by done.
  unfold updateGroups_body. rewrite !run_bind. unfold gets. cbn [fst snd].
  assert (Hserve : ∀ u s1,
    updates (match get (current s1) (sub_id sub) with
             | Some cur => race_with_current u cur
             | None => ret (Return u)
             end s1).2 = updates s1).
  { intros u s1. destruct (get (current s1) (sub_id sub)) as [cur|]; [|done].
    by destruct (race_with_current_fields s1 u cur) as (_ & _ & ? & _). }
  destruct (get (updates s) (sub_id sub)) as [v|].
  - by rewrite ret_run, Hserve.
  - rewrite run_bind, ret_run, Hserve. cbn [fst snd].
    by destruct (start_update_fields s c sub) as (_ & _ & _ & ? & _).
Qed.

Lemma Own_updateGroups s c sub : Own s → Own (updateGroups c sub s).2.
Proof.
  intros HO id Hid. rewrite current_updateGroups, updateGroups_updates.
  destruct (HO id Hid) as [Hu Hc]. split; [|done].
  destruct (get (updates s) (sub_id sub)) eqn:E; [done|].
  apply get_None in E as [_ Hn]. rewrite lookup_insert_ne; [done|].
  intros Heq. by rewrite Heq in Hn.
Qed.

Lemma Own_same s s' :
  Own s → updates s' = updates s → current s' = current s → Own s'.
Proof. intros HO Hu Hc id Hid. rewrite Hu, Hc. by apply HO. Qed.

Lemma Own_fetchGroups s : Own s → Own (fetchGroups s).2.
Proof.
  intros HO. unfold fetchGroups.
  eapply Own_same; [|by rewrite (async_off_heap updates)
                    |by rewrite (async_off_heap current)].
  run_binds. destruct (defaultSubscription s) as [sub|]; run_binds; [|done].
  change (lookupCredentials (tenantId sub) s).1 with (login s !! tenantId sub).
  destruct (login s !! tenantId sub) as [c|]; run_binds; [|done].
  apply Own_updateGroups. by eapply Own_same.
Qed.

Lemma Own_onSubscriptionUpdated s : Own s → Own (onSubscriptionUpdated s).2.
Proof.
  intros HO. unfold onSubscriptionUpdated. run_binds.
  case_decide; run_binds; [done|].
  destruct (find isDefault (subscriptions s)) as [sub|]; run_binds; [|done].
  change (lookupCredentials (tenantId sub)
            (set_defaultSubscription (Some sub) s)).1
    with (login s !! tenantId sub).
  destruct (login s !! tenantId sub) as [c|]; run_binds; [|done].
  apply Own_updateGroups. by eapply Own_same.
Qed.

Lemma Own_run_job ρ s j q :
  Dedup ρ s → Own s → jobs s = j :: q →
  Own (run_job j (set_jobs (λ _, q) s)).2.
Proof.
  intros HD HO Hj.
  assert (Hheap : ∀ (m : M unit),
            keeps updates m → keeps current m →
            Own (m (set_jobs (λ _, q) s)).2).
  { intros m Hu Hc. eapply Own_same; [done|by rewrite Hu|by rewrite Hc]. }
  destruct j as [[d|d c|id u] o|d c]; simpl.
  - apply Hheap; eauto with keeps.
  - destruct o as [[v|e]|n]; apply Hheap; unfold resolve;
      eauto with keeps; destruct c; eauto with keeps.
  - assert (Hid : id ∉ Object_prototype).
    { intros Hid. destruct (HO id Hid) as [Hu _].
      pose proof (dd_job _ _ HD 0 id u o) as Hd. rewrite Hj in Hd.
      specialize (Hd eq_refl). congruence. }
    assert (Hdel : ∀ id', id' ∈ Object_prototype →
              delete id (updates s) !! id' = None).
    { intros id' Hid'. destruct (HO id' Hid') as [Hu _].
      rewrite lookup_delete_ne; [done|]. by intros ->. }
    destruct o as [[v|e]|n]; unfold on_loaded, on_load_failed; run_binds;
      intros id' Hid'; destruct (HO id' Hid') as [Hu Hc]; simpl;
      (split; [by apply Hdel|]); try done;
      rewrite lookup_insert_ne; try done; by intros ->.
  - apply Hheap; eauto with keeps.
Qed.

Lemma Own_resolve s p v : Own s → Own (resolve p v s).2.
Proof.
  intros HO. destruct v; simpl; (eapply Own_same; [done| |]).
  - done.
  - done.
  - by rewrite (keeps_settle updates) by done.
  - by rewrite (keeps_settle current) by done.
Qed.

Lemma Own_step ρ s e : Coherent ρ s → Own s → Own (step e s).
Proof.
  intros [_ HD] HO. destruct e as [| |subs|l|k o| |dt]; simpl.
  - destruct (jobs s) as [|j q] eqn:Ej; [done|]. by eapply Own_run_job.
  - by apply Own_fetchGroups.
  - apply Own_onSubscriptionUpdated. by eapply Own_same.
  - by eapply Own_same.
  - destruct (calls s !! k); [|done].
    eapply Own_same; [done| |].
    + by rewrite (keeps_settle updates) by done.
    + by rewrite (keeps_settle current) by done.
  - destruct (jobs s); [|done].
    destruct (pop_due (now s) (timers s)) as [[tm rest]|]; [|done].
    apply Own_resolve. by eapply Own_same.
  - case_decide; [|done]. by eapply Own_same.
Qed.

Lemma reachable_Own s : reachable s → Own s.
Proof.
  intros (subs & l & t0 & evs & ->). unfold constructor.
  destruct (Coherent_onSubscriptionUpdated [] _ (Coherent_empty subs l t0))
    as (ρ0 & HC0).
  assert (HO : Own (onSubscriptionUpdated (empty_state subs l t0)).2).
  { apply Own_onSubscriptionUpdated. by intros id _. }
  revert HC0 HO. generalize (onSubscriptionUpdated (empty_state subs l t0)).2.
  generalize (([] : list role) ++ ρ0).
  induction evs as [|e evs IH]; intros ρ s HC HO; [done|].
  destruct (Coherent_step _ _ e HC) as [ρ1 HC1].
  apply (IH _ (step e s) HC1). by eapply Own_step.
Qed.

(** An id with an own property is read as that property. *)
Lemma Own_updates s id u :
  Own s → updates s !! id = Some u → id ∉ Object_prototype.
Proof. intros HO Hu Hid. destruct (HO id Hid). congruence. Qed.

Lemma Own_current s id c :
  Own s → current s !! id = Some c → id ∉ Object_prototype.
Proof. intros HO Hc Hid. destruct (HO id Hid). congruence. Qed.

(** ** The microtask queue always drains *)

Lemma sum_list_with_insert {A} (f : A → nat) (l : list A) i x y :
  l !! i = Some x →
  sum_list_with f (<[i:=y]> l) + f x = sum_list_with f l + f y.
Proof.
  revert i. induction l as [|a l IH]; intros [|i] E; simplify_eq/=; [lia|].
  specialize (IH i E). lia.
Qed.

Lemma measure_settle s p o :
  measure (settle p o s).2 ≤ measure s.
Proof.
  unfold settle. destruct (heap s !! p) as [[rs|o']|] eqn:E; simpl; try done.
  unfold measure. simpl. rewrite sum_list_with_app.
  pose proof (sum_list_with_insert cweight _ _ _ (Settled o) E) as Hi.
  simpl in Hi.
  assert (sum_list_with jweight (map (λ r, JReact r o) rs)
          ≤ sum_list_with (λ r, S (rweight r)) rs) as Hle.
  { clear. induction rs as [|r rs IH]; simpl; lia. }
  lia.
Qed.

Lemma measure_then s q r :
  measure (then_ q r s).2 ≤ measure s + S (rweight r).
Proof.
  unfold then_. destruct (heap s !! q) as [[rs|o]|] eqn:E; simpl; try lia.
  - unfold measure. simpl.
    pose proof (sum_list_with_insert cweight _ _ _ (Pending (rs ++ [r])) E) as Hi.
    simpl in Hi. rewrite sum_list_with_app in Hi. simpl in Hi. lia.
  - unfold measure. simpl. rewrite sum_list_with_app. simpl. lia.
Qed.

Lemma measure_job s j q :
  jobs s = j :: q → measure (step EvJob s) < measure s.
Proof.
  intros Hj. simpl. rewrite Hj.
  set (s0 := set_jobs (λ _, q) s).
  assert (H0 : measure s = measure s0 + jweight j).
  { unfold measure. simpl. rewrite Hj. simpl. lia. }
  rewrite H0. destruct j as [[d|d c|id u] o|d c]; simpl.
  - pose proof (measure_settle s0 d o). lia.
  - destruct o as [[v|e]|n]; [| |pose proof (measure_settle s0 d (FulfilledWith n)); lia].
    + pose proof (measure_settle s0 d (Fulfilled v)). lia.
    + destruct c as [c|n]; simpl.
      * unfold measure. simpl. rewrite sum_list_with_app. simpl. lia.
      * pose proof (measure_settle s0 d (FulfilledWith n)). lia.
  - destruct o as [[v|e]|n]; unfold on_loaded, on_load_failed; run_binds;
      unfold measure; simpl; lia.
  - pose proof (measure_then s0 c (RForward d)). simpl in *. lia.
Qed.

Lemma run_app evs1 evs2 s : run (evs1 ++ evs2) s = run evs2 (run evs1 s).
Proof. unfold run. by rewrite foldl_app. Qed.

Lemma run_jobs_quiescent n s : quiescent s → run (repeat EvJob n) s = s.
Proof.
  intros Hq. induction n as [|n IH]; simpl; [done|].
  unfold quiescent in Hq. by rewrite Hq.
Qed.

Lemma run_jobs_drains n s : measure s ≤ n → quiescent (run (repeat EvJob n) s).
Proof.
  revert s. induction n as [|n IH]; intros s Hm.
  - simpl. unfold quiescent. destruct (jobs s) as [|j q] eqn:Hj; [done|].
    unfold measure in Hm. rewrite Hj in Hm. simpl in Hm.
    destruct j as [[]|]; simpl in Hm; lia.
  - change (run (repeat EvJob (S n)) s)
      with (run (repeat EvJob n) (step EvJob s)).
    destruct (jobs s) as [|j q] eqn:Hj.
    + assert (Hq : quiescent (step EvJob s)) by (simpl; by rewrite Hj).
      by rewrite run_jobs_quiescent.
    + apply IH. pose proof (measure_job s j q Hj). lia.
Qed.

Lemma drain_quiescent s : quiescent (drain s).
Proof. by apply run_jobs_drains. Qed.

(** ** Settled promises stay settled along every run *)

Lemma step_evolves e s : evolves s (step e s).
Proof.
  destruct e as [| |subs|l|k o| |dt]; simpl.
  - destruct (jobs s) as [|j q] eqn:Ej; [apply evolves_refl|].
    eapply evolves_trans; [by apply (evolves_heap s (set_jobs (λ _, q) s))|].
    apply grows_evolves, grows_run_job.
  - apply grows_evolves, grows_fetchGroups.
  - eapply evolves_trans; [by apply (evolves_heap s (set_subscriptions subs s))|].
    apply grows_evolves, grows_onSubscriptionUpdated.
  - by apply evolves_heap.
  - destruct (calls s !! k); [|apply evolves_refl].
    apply grows_evolves, grows_settle.
  - destruct (jobs s); [|apply evolves_refl].
    destruct (pop_due (now s) (timers s)) as [[tm rest]|]; [|apply evolves_refl].
    eapply evolves_trans; [by apply (evolves_heap s (set_timers (λ _, rest) s))|].
    apply grows_evolves, grows_resolve.
  - case_decide; [|apply evolves_refl]. apply evolves_heap; simpl; [done|lia].
Qed.

Lemma run_evolves evs s : evolves s (run evs s).
Proof.
  revert s. induction evs as [|e evs IH]; intros s; simpl.
  - apply evolves_refl.
  - eapply evolves_trans; [apply step_evolves | apply IH].
Qed.

Lemma settled_run evs s p o : settled s p o → settled (run evs s) p o.
Proof. apply run_evolves. Qed.

Lemma now_run evs s : now s ≤ now (run evs s).
Proof. apply run_evolves. Qed.

(** ** What the invariants say about one call *)

Lemma wrap_sound ρ s P x o :
  Inv ρ s → ρ !! P = Some (Wrap x) → settled s P o → settled s x o.
Proof.
  intros [HS _] E Ho. pose proof (safe_settled _ _ HS _ _ Ho) as Hx.
  unfold explains in Hx. by rewrite E in Hx.
Qed.

Lemma wrap_complete ρ s P x :
  Inv ρ s → ρ !! P = Some (Wrap x) → quiescent s → pending s P → pending s x.
Proof.
  intros [_ HL] E Hq Hp. destruct (HL P Hp) as [(j & Hj & _)|Hw].
  - unfold quiescent in Hq. rewrite Hq in Hj. by apply elem_of_nil in Hj.
  - unfold waiting in Hw. rewrite E in Hw. destruct Hw as (rs & ? & _).
    by exists rs.
Qed.

Lemma race_sound ρ s x u (c : nat) d o v :
  Inv ρ s → body_shape ρ x u (Some (VPromise c)) d → settled s c (Fulfilled v) →
  settled s x o →
  (o = Fulfilled v ∧ (d ≤ now s ∨ ∃ e, settled s u (Rejected e))) ∨
  (∃ w, o = Fulfilled w ∧ settled s u o).
Proof.
  intros [HS _] (t & k & Ex & Et & Ek) Hc Ho.
  pose proof (safe_settled _ _ HS _ _ Ho) as Hx.
  unfold explains in Hx. rewrite Ex in Hx. destruct Hx as [Ht|Hk].
  - pose proof (safe_settled _ _ HS _ _ Ht) as Hx.
    unfold explains in Hx. rewrite Et in Hx. destruct Hx as [Hd Hc'].
    left. split; [by eapply settled_inj|by left].
  - pose proof (safe_settled _ _ HS _ _ Hk) as Hx.
    unfold explains in Hx. rewrite Ek in Hx.
    destruct Hx as [(w & -> & Hu)|(e & Hu & Hc')].
    + right. eauto.
    + left. split; [by eapply settled_inj|right; eauto].
Qed.

Lemma race_complete ρ s x u (c : nat) d :
  Inv ρ s → body_shape ρ x u (Some (VPromise c)) d → quiescent s → pending s x →
  pending s u ∧ ∃ tm, tm ∈ timers s ∧ due tm = d.
Proof.
  intros [_ HL] (t & k & Ex & Et & Ek) Hq Hp.
  assert (Hw : ∀ p, pending s p → waiting ρ s p).
  { intros p Hpp. destruct (HL p Hpp) as [(j & Hj & _)|Hw]; [|done].
    unfold quiescent in Hq. rewrite Hq in Hj. by apply elem_of_nil in Hj. }
  pose proof (Hw x Hp) as Hx. unfold waiting in Hx. rewrite Ex in Hx.
  destruct Hx as [(rst & Ht & _) (rsk & Hk & _)].
  pose proof (Hw t (ex_intro _ rst Ht)) as Htw. unfold waiting in Htw.
  rewrite Et in Htw.
  pose proof (Hw k (ex_intro _ rsk Hk)) as Hkw. unfold waiting in Hkw.
  rewrite Ek in Hkw. destruct Hkw as (rsu & Hu & _).
  split; [by exists rsu|]. eexists. split; [exact Htw|done].
Qed.

Lemma tracks_run ρ s P u cur d evs :
  tracks ρ s P u cur d → ∃ ρ', tracks ρ' (run evs s) P u cur d.
Proof.
  intros (HI & x & Hx & Hshape). destruct (Coherent_run _ _ evs HI) as [ρ' HI'].
  exists (ρ ++ ρ'). split; [done|]. exists x.
  split; [by apply lookup_app_l_Some|].
  eapply body_shape_prefix; [|done]. by apply prefix_app_r.
Qed.

Lemma tracks_step ρ s P u cur d e :
  tracks ρ s P u cur d → ∃ ρ', tracks ρ' (step e s) P u cur d.
Proof. apply (tracks_run _ _ _ _ _ _ [e]). Qed.

(** A call that leaves a refresh in [updates] was made for an id that is
    not an inherited name: its reads found own properties or nothing. *)
Lemma call_own s c sub u :
  Own s →
  updates (updateGroups c sub s).2 !! sub_id sub = Some u →
  sub_id sub ∉ Object_prototype.
Proof. intros HO. apply Own_updates. by apply Own_updateGroups. Qed.

Lemma updateGroups_spec_own ρ s c sub :
  Coherent ρ s → sub_id sub ∉ Object_prototype →
  ∃ ρ' x u, Coherent (ρ ++ ρ') (updateGroups c sub s).2 ∧
    (updateGroups_body c sub s).1 = Return (VPromise x) ∧
    updates (updateGroups c sub s).2 !! sub_id sub = Some u ∧
    (ρ ++ ρ') !! (updateGroups c sub s).1 = Some (Wrap x) ∧
    body_shape (ρ ++ ρ') x u (VPromise <$> current s !! sub_id sub)
      (now s + 500).
Proof.
  intros HC Hid.
  destruct (updateGroups_spec ρ s c sub HC) as (ρ' & HC' & Hm).
  rewrite (get_own (current s)) in Hm by done.
  rewrite (get_own (updates s)) in Hm by done.
  exists ρ'. destruct (updates s !! sub_id sub); simpl in Hm;
    destruct Hm as (x & u & ?); by exists x, u.
Qed.

Lemma call_tracks s c sub u :
  reachable s →
  updates (updateGroups c sub s).2 !! sub_id sub = Some u →
  ∃ ρ, tracks ρ (updateGroups c sub s).2 (updateGroups c sub s).1 u
         (VPromise <$> current s !! sub_id sub) (now s + 500).
Proof.
  intros Hr Hu. destruct (reachable_Coherent _ Hr) as [ρ0 HI0].
  pose proof (call_own _ _ _ _ (reachable_Own _ Hr) Hu) as Hid.
  destruct (updateGroups_spec_own ρ0 s c sub HI0 Hid)
    as (ρ1 & x & u' & HI1 & _ & Hu' & Hw & Hshape).
  assert (u' = u) as -> by congruence.
  exists (ρ0 ++ ρ1). split; [done|]. eauto.
Qed.

Lemma tracks_allocated ρ s P u cur d :
  tracks ρ s P u cur d → P < length (heap s).
Proof. intros ([[HS _] _] & x & Hx & _). eapply role_allocated; eauto. Qed.

Lemma tracks_first_sound ρ s P u d o :
  tracks ρ s P u None d → settled s P o → settled s u o.
Proof. intros ([HI _] & x & Hx & <-) Ho. eapply wrap_sound; eauto. Qed.

Lemma tracks_first_complete ρ s P u d o :
  tracks ρ s P u None d → quiescent s → settled s u o → settled s P o.
Proof.
  intros Ht Hq Hu. pose proof (tracks_allocated _ _ _ _ _ _ Ht) as Hlt.
  destruct (pending_or_settled _ _ Hlt) as [Hp|[o' Ho']].
  - destruct Ht as ([HI _] & x & Hx & <-). exfalso.
    eapply pending_not_settled; [|exact Hu]. eapply wrap_complete; eauto.
  - pose proof (tracks_first_sound _ _ _ _ _ _ Ht Ho') as Hu'.
    by rewrite (settled_inj _ _ _ _ Hu Hu').
Qed.

Lemma tracks_race_sound ρ s P u (c : nat) d o v :
  tracks ρ s P u (Some (VPromise c)) d → settled s c (Fulfilled v) → settled s P o →
  (o = Fulfilled v ∧ (d ≤ now s ∨ ∃ e, settled s u (Rejected e))) ∨
  (∃ w, o = Fulfilled w ∧ settled s u o).
Proof.
  intros ([HI _] & x & Hx & Hshape) Hc Ho.
  eapply race_sound; eauto. eapply wrap_sound; eauto.
Qed.

Lemma tracks_race_complete ρ s P u (c : nat) d :
  tracks ρ s P u (Some (VPromise c)) d → quiescent s → pending s P →
  pending s u ∧ now s ≤ d ∧ ∃ tm, tm ∈ timers s ∧ due tm = d.
Proof.
  intros ([HI _] & x & Hx & Hshape) Hq Hp.
  pose proof (wrap_complete _ _ _ _ HI Hx Hq Hp) as Hxp.
  destruct (race_complete _ _ _ _ _ _ HI Hshape Hq Hxp) as (Hu & tm & Htm & Hd).
  split; [done|]. split; [|eauto].
  destruct HI as [HS _]. destruct (safe_timer _ _ HS tm Htm) as [_ Hnow]. lia.
Qed.

(** With a cached result the caller never sees a failure, and what it
    gets is the cached groups unless the refresh succeeded. *)
Lemma tracks_race_fulfilled ρ s P u (c : nat) d o v :
  tracks ρ s P u (Some (VPromise c)) d → settled s c (Fulfilled v) → settled s P o →
  ∃ w, o = Fulfilled w ∧ (w = v ∨ settled s u (Fulfilled w)).
Proof.
  intros Ht Hc Ho.
  destruct (tracks_race_sound _ _ _ _ _ _ _ _ Ht Hc Ho) as [[-> _]|(w & -> & ?)];
    eauto.
Qed.

Lemma tracks_race_returns ρ s P u (c : nat) d v :
  tracks ρ s P u (Some (VPromise c)) d → settled s c (Fulfilled v) → quiescent s →
  (Forall (λ tm, d < due tm) (timers s) ∨ ∃ o, settled s u o) →
  ∃ w, settled s P (Fulfilled w).
Proof.
  intros Ht Hc Hq Hdone. pose proof (tracks_allocated _ _ _ _ _ _ Ht) as Hlt.
  destruct (pending_or_settled _ _ Hlt) as [Hp|[o Ho]].
  - exfalso.
    destruct (tracks_race_complete _ _ _ _ _ _ Ht Hq Hp) as (Hu & _ & tm & Htm & Hd).
    destruct Hdone as [Hall|[o Ho]].
    + rewrite Forall_forall in Hall. specialize (Hall tm Htm). lia.
    + eapply pending_not_settled; eauto.
  - destruct (tracks_race_fulfilled _ _ _ _ _ _ _ _ Ht Hc Ho) as (w & -> & _).
    eauto.
Qed.

Lemma updateGroups_first_fields s c sub :
  get (current s) (sub_id sub) = None →
  timers (updateGroups c sub s).2 = timers s ∧
  ∃ u, (updateGroups_body c sub s).1 = Return (VPromise u) ∧
       updates (updateGroups c sub s).2 !! sub_id sub = Some u.
Proof.
  intros Hcur. pose proof Hcur as [_ Hid]%get_None.
  unfold updateGroups. rewrite (async_off_heap timers) by done.
  rewrite (async_off_heap updates) by done.
  unfold updateGroups_body.
  rewrite !run_bind. unfold gets. cbn [fst snd].
  rewrite (get_own (updates s)) by done.
  destruct (updates s !! sub_id sub) as [u|] eqn:Hu; cbn [fmap option_fmap option_map].
  - rewrite ret_run. cbn [fst snd]. rewrite Hcur.
    split; [done|]. by exists u.
  - rewrite run_bind, ret_run. cbn [fst snd].
    destruct (start_update_fields s c sub) as (Hc & _ & Ht & Hupd & _).
    rewrite Hc, Hcur. run_binds. rewrite Ht, Hupd.
    split; [done|]. exists (start_update c sub s).1. split; [done|].
    by rewrite lookup_insert_eq, start_update_fst.
Qed.

(** ** Scenarios *)

Lemma fresh_cache_reachable : reachable fresh_cache.
Proof. by exists [sub1], login1, 0, []. Qed.

Lemma warm_cache_reachable : reachable warm_cache.
Proof. by eexists [sub1], login1, 0, _. Qed.

(** ** The claims about one call of [updateGroups] *)

(** The call when the read of [updates] finds an inherited value: the
    read of [current] finds one too or an own property, the timer is set
    with it, and the promise of the call is born rejected. *)
Lemma updateGroups_inherited s c sub cur :
  sub_id sub ∈ Object_prototype →
  updates s !! sub_id sub = None →
  get (current s) (sub_id sub) = Some cur →
  updateGroups c sub s =
    (S (length (heap s)),
     set_heap (λ h, h ++ [Pending []; Settled (Rejected (TypeError no_catch))])
       (set_timers (λ l, l ++ [{| due := now s + 500;
                                  tpromise := length (heap s);
                                  tvalue := cur |}]) s)).
Proof.
  intros Hid Hu Hcur.
  assert (Hb : updateGroups_body c sub s =
                 (Throw (TypeError no_catch),
                  (timeout_promise 500 cur s).2)).
  { unfold updateGroups_body. rewrite !run_bind. unfold gets. cbn [fst snd].
    assert (get (updates s) (sub_id sub) = Some (VInherited (sub_id sub)))
      as -> by by apply get_inherited.
    rewrite ret_run. cbn [fst snd]. rewrite Hcur.
    apply race_with_current_throws. }
  unfold updateGroups.
  rewrite (async_throw_run _ s (TypeError no_catch)) by by rewrite Hb.
  rewrite Hb. cbn [fst snd]. unfold timeout_promise. run_binds.
  unfold new_promise, setTimeout, modify. cbn [fst snd].
  f_equal.
  - cbn [heap set_heap set_timers]. rewrite length_app. cbn [length]. lia.
  - apply state_eq; try reflexivity.
    cbn [heap set_heap set_timers]. by rewrite <-(assoc_L (++)).
Qed.

(** An id that names a property of [Object.prototype] and has no own
    property reads as the inherited value, in both objects. *)
Lemma get_inherited_name (m : gmap string nat) k :
  k ∈ Object_prototype → m !! k = None → get m k = Some (VInherited k).
Proof. intros. by apply get_inherited. Qed.

(** C5, for a subscription id that names a property of [Object.prototype],
    such as [toString].  Nothing was ever cached or started for the id, yet
    both reads of lines 60 and 75 find the inherited value: the call makes
    no remote call and stores no refresh, it sets the 500ms timer with the
    inherited value, and the promise it returns is rejected with the
    [TypeError] of [update.catch] from the start, whatever happens
    afterwards.  The call does not return a refresh, and no refresh decides
    how its promise settles. *)
Theorem first_fetch_on_an_inherited_name s credentials subscription :
  sub_id subscription ∈ Object_prototype →
  updates s !! sub_id subscription = None →
  current s !! sub_id subscription = None →
  let P := (updateGroups credentials subscription s).1 in
  let s1 := (updateGroups credentials subscription s).2 in
  calls s1 = calls s ∧ updates s1 = updates s ∧ current s1 = current s ∧
  timers s1 = timers s ++ [{| due := now s + 500;
                              tpromise := length (heap s);
                              tvalue := VInherited (sub_id subscription) |}] ∧
  settled s1 P (Rejected (TypeError no_catch)) ∧
  (∀ evs o, settled (run evs s1) P o → o = Rejected (TypeError no_catch)).
Proof.
  intros Hid Hu Hc P s1. unfold P, s1.
  rewrite (updateGroups_inherited s credentials subscription
             (VInherited (sub_id subscription))); [|done|done|].
  2:{ by apply get_inherited_name. }
  cbn [fst snd]. repeat split; try done.
  - unfold settled. cbn [heap set_heap set_timers].
    rewrite lookup_app_r by lia.
    by replace (S (length (heap s)) - length (heap s)) with 1 by lia.
  - intros evs o Ho. eapply settled_inj; [exact Ho|].
    apply settled_run. unfold settled. cbn [heap set_heap set_timers].
    rewrite lookup_app_r by lia.
    by replace (S (length (heap s)) - length (heap s)) with 1 by lia.
Qed.

Lemma first_fetch_on_an_inherited_name_witness :
  let sub := {| sub_id := "toString"; tenantId := "tenant-1";
                isDefault := true |} in
  let s := empty_state [sub] login1 0 in
  current s = ∅ ∧ updates s = ∅ ∧
  calls (updateGroups creds1 sub s).2 = [] ∧
  updates (updateGroups creds1 sub s).2 = ∅ ∧
  timers (updateGroups creds1 sub s).2 =
    [{| due := 500; tpromise := 0; tvalue := VInherited "toString" |}] ∧
  settled (updateGroups creds1 sub s).2 (updateGroups creds1 sub s).1
    (Rejected (TypeError no_catch)).
Proof.
  intros sub s.
  destruct (first_fetch_on_an_inherited_name s creds1 sub)
    as (Hk & Hu & _ & Ht & Hs & _).
  - vm_compute. set_solver.
  - reflexivity.
  - reflexivity.
  - split; [reflexivity|]. split; [reflexivity|].
    split; [exact Hk|]. split; [exact Hu|]. split; [exact Ht|exact Hs].
Defined.

(** X22. With no cached result for the subscription id, a call that leaves
    a refresh in [updates] returns that refresh itself and sets no timer:
    the promise the caller holds settles only with the outcome of the
    refresh, fulfilled or rejected, and it does settle once the refresh has
    and the microtasks have run. *)
Theorem call_without_cached_result_returns_the_refresh
    s credentials subscription u evs :
  reachable s →
  current s !! sub_id subscription = None →
  updates (updateGroups credentials subscription s).2 !! sub_id subscription
    = Some u →
  let P := (updateGroups credentials subscription s).1 in
  let s1 := (updateGroups credentials subscription s).2 in
  let s2 := run evs s1 in
  (updateGroups_body credentials subscription s).1 = Return (VPromise u) ∧
  timers s1 = timers s ∧
  (∀ o, settled s2 P o → settled s2 u o) ∧
  (∀ o, quiescent s2 → settled s2 u o → settled s2 P o) ∧
  (∀ o, settled s2 u o → settled (drain s2) P o).
Proof.
  intros Hr Hcur Hu P s1 s2.
  pose proof (call_own _ _ _ _ (reachable_Own _ Hr) Hu) as Hid.
  assert (Hget : get (current s) (sub_id subscription) = None).
  { by apply get_None. }
  destruct (updateGroups_first_fields s credentials subscription Hget)
    as (Ht & u' & Hb & Hu').
  assert (u' = u) as -> by congruence.
  destruct (call_tracks _ _ _ _ Hr Hu) as [ρ1 Ht1]. rewrite Hcur in Ht1.
  destruct (tracks_run _ _ _ _ _ _ evs Ht1) as [ρ2 Ht2].
  split; [done|]. split; [done|]. split; [|split].
  - intros o. by apply (tracks_first_sound _ _ _ _ _ _ Ht2).
  - intros o. by apply (tracks_first_complete _ _ _ _ _ _ Ht2).
  - intros o Ho.
    destruct (tracks_run _ _ _ _ _ _ (repeat EvJob (measure s2)) Ht2) as [ρ3 Ht3].
    apply (tracks_first_complete _ _ _ _ _ _ Ht3); [apply drain_quiescent|].
    by apply settled_run.
Qed.

Lemma call_without_cached_result_witness :
  let evs := [EvJob; EvJob; EvWait 700;
              EvSettle 0 (Rejected (ListError "timeout")); EvJob] in
  let P := (updateGroups creds1 sub1 fresh_cache).1 in
  let s2 := run evs (updateGroups creds1 sub1 fresh_cache).2 in
  timers (updateGroups creds1 sub1 fresh_cache).2 = [] ∧
  settled (drain s2) P (Rejected (ListError "timeout")).
Proof.
  intros evs P s2.
  destruct (call_without_cached_result_returns_the_refresh
              fresh_cache creds1 sub1 1 evs)
    as (_ & Ht & _ & _ & Hd).
  - apply fresh_cache_reachable.
  - vm_compute. reflexivity.
  - vm_compute. reflexivity.
  - split; [exact Ht|]. apply Hd. vm_compute. reflexivity.
Defined.

(** C2. A failed refresh reaches the caller exactly when there was no cached
    result for the subscription id: with a cached result the returned
    promise is never rejected and, once the refresh has failed, it is
    fulfilled with the cached groups; with none it is rejected with the error
    of the refresh. *)
Theorem refresh_failure_reaches_caller_iff_nothing_cached
    s credentials subscription u evs e :
  reachable s →
  updates (updateGroups credentials subscription s).2 !! sub_id subscription
    = Some u →
  let P := (updateGroups credentials subscription s).1 in
  let s2 := run evs (updateGroups credentials subscription s).2 in
  settled s2 u (Rejected e) →
  (∀ c v, current s !! sub_id subscription = Some c →
          settled s c (Fulfilled v) →
          (∀ o, settled s2 P o → o = Fulfilled v) ∧
          settled (drain s2) P (Fulfilled v)) ∧
  (current s !! sub_id subscription = None →
          (∀ o, settled s2 P o → o = Rejected e) ∧
          settled (drain s2) P (Rejected e)).
Proof.
  intros Hr Hu P s2 He.
  destruct (call_tracks _ _ _ _ Hr Hu) as [ρ1 Ht1].
  destruct (tracks_run _ _ _ _ _ _ evs Ht1) as [ρ2 Ht2].
  destruct (tracks_run _ _ _ _ _ _ (repeat EvJob (measure s2)) Ht2) as [ρ3 Ht3].
  fold s2 in Ht2, Ht3. fold (drain s2) in Ht3.
  assert (Hed : settled (drain s2) u (Rejected e)) by by apply settled_run.
  split.
  - intros c v Hcur Hc. rewrite Hcur in Ht2, Ht3.
    assert (Hc2 : settled s2 c (Fulfilled v)).
    { apply settled_run.
      by apply (grows_evolves _ _ (grows_updateGroups credentials subscription s)). }
    assert (Hc3 : settled (drain s2) c (Fulfilled v)) by by apply settled_run.
    assert (Hout : ∀ ρ s' o, tracks ρ s' P u (Some (VPromise c)) (now s + 500) →
              settled s' c (Fulfilled v) → settled s' u (Rejected e) →
              settled s' P o → o = Fulfilled v).
    { intros ρ s' o Ht Hc' He' Ho.
      destruct (tracks_race_sound _ _ _ _ _ _ _ _ Ht Hc' Ho)
        as [[-> _]|(w & -> & Hw)]; [done|].
      by pose proof (settled_inj _ _ _ _ He' Hw). }
    split; [intros o; by apply (Hout ρ2)|].
    destruct (tracks_race_returns _ _ _ _ _ _ _ Ht3 Hc3 (drain_quiescent s2))
      as [w Hw]; [eauto|].
    by rewrite <-(Hout ρ3 _ _ Ht3 Hc3 Hed Hw).
  - intros Hcur. rewrite Hcur in Ht2, Ht3. split.
    + intros o Ho. pose proof (tracks_first_sound _ _ _ _ _ _ Ht2 Ho).
      by eapply settled_inj.
    + by apply (tracks_first_complete _ _ _ _ _ _ Ht3 (drain_quiescent s2)).
Qed.

Lemma refresh_failure_witness :
  let evs := [EvJob; EvWait 100;
              EvSettle 1 (Rejected (ListError "timeout")); EvJob] in
  let P := (updateGroups creds1 sub1 warm_cache).1 in
  let s2 := run evs (updateGroups creds1 sub1 warm_cache).2 in
  settled (drain s2) P (Fulfilled groups1).
Proof.
  intros evs P s2.
  destruct (refresh_failure_reaches_caller_iff_nothing_cached
              warm_cache creds1 sub1 4 evs (ListError "timeout")) as [Hc _].
  - apply warm_cache_reachable.
  - vm_compute. reflexivity.
  - vm_compute. reflexivity.
  - apply (Hc 1 groups1); vm_compute; reflexivity.
Defined.

(** ** The clock *)

Lemma step_now e s :
  now (step e s) ≠ now s →
  ∃ dt, e = EvWait dt ∧ quiescent s ∧
        Forall (λ tm, now s + dt ≤ due tm) (timers s) ∧
        now (step e s) = now s + dt.
Proof.
  destruct e as [| |subs|l|k o| |dt]; simpl.
  - destruct (jobs s) as [|j q]; [done|].
    by rewrite (now_run_job j (set_jobs (λ _, q) s)).
  - by rewrite now_fetchGroups.
  - by rewrite now_onSubscriptionUpdated.
  - done.
  - destruct (calls s !! k); [|done]. by rewrite (keeps_settle now).
  - destruct (jobs s); [|done].
    destruct (pop_due (now s) (timers s)) as [[tm rest]|]; [|done].
    by rewrite (keeps_resolve now).
  - case_decide as Hd; [|done]. destruct Hd. intros _. by exists dt.
Qed.

Lemma now_run_jobs n s : now (run (repeat EvJob n) s) = now s.
Proof.
  revert s. induction n as [|n IH]; intros s; [done|].
  change (run (repeat EvJob (S n)) s) with (run (repeat EvJob n) (step EvJob s)).
  rewrite IH. destruct (decide (now (step EvJob s) = now s)) as [|Hne]; [done|].
  by destruct (step_now _ _ Hne) as (dt & ? & _).
Qed.

Lemma now_drain s : now (drain s) = now s.
Proof. apply now_run_jobs. Qed.

(** The clock does not pass the deadline of a call that has not returned. *)
Lemma deadline_bound ρ s P u c d v evs :
  tracks ρ s P u (Some (VPromise c)) d → settled s c (Fulfilled v) →
  now s ≤ d → d < now (run evs s) →
  ∃ w, settled (run evs s) P (Fulfilled w).
Proof.
  intros Ht Hc Hnow. induction evs as [|e evs IH] using rev_ind; simpl.
  { lia. }
  rewrite run_app. simpl. set (s' := run evs s) in *. intros Hd.
  destruct (decide (d < now s')) as [Hlt|Hge].
  { destruct (IH Hlt) as [w Hw]. exists w. by apply step_evolves. }
  destruct (step_now e s') as (dt & -> & Hq & Hall & Hdt); [lia|].
  destruct (tracks_run _ _ _ _ _ _ evs Ht) as [ρ' Ht'].
  destruct (tracks_race_returns _ _ _ _ _ _ _ Ht' (settled_run evs _ _ _ Hc) Hq)
    as [w Hw].
  { left. eapply Forall_impl; [exact Hall|]. simpl. intros tm ?. fold s'. lia. }
  exists w. by apply step_evolves.
Qed.

(** C4. With a cached result for the subscription id, a refresh that
    succeeds before the deadline of the 500ms timer gives the caller the new
    groups: once the microtasks have run the returned promise is fulfilled
    with the groups of the refresh, and it stays so. *)
Theorem fresh_result_before_deadline
    s credentials subscription u evs evs' w :
  reachable s →
  is_Some (current s !! sub_id subscription) →
  updates (updateGroups credentials subscription s).2 !! sub_id subscription
    = Some u →
  let P := (updateGroups credentials subscription s).1 in
  let s2 := run evs (updateGroups credentials subscription s).2 in
  now s2 < now s + 500 →
  settled s2 u (Fulfilled w) →
  (quiescent s2 → settled s2 P (Fulfilled w)) ∧
  settled (run evs' (drain s2)) P (Fulfilled w).
Proof.
  intros Hr [c Hcur] Hu P s2 Hnow Hw.
  destruct (reachable_Inv _ Hr) as [ρ0 [HS0 _]].
  destruct (safe_current _ _ HS0 _ _ Hcur) as [v Hc].
  destruct (call_tracks _ _ _ _ Hr Hu) as [ρ1 Ht1]. rewrite Hcur in Ht1.
  assert (Hc1 : settled (updateGroups credentials subscription s).2 c (Fulfilled v)).
  { by apply (grows_evolves _ _ (grows_updateGroups credentials subscription s)). }
  assert (Hfresh : ∀ evs0, now (run evs0 s2) < now s + 500 →
            quiescent (run evs0 s2) → settled (run evs0 s2) P (Fulfilled w)).
  { intros evs0 Hn Hq.
    destruct (tracks_run _ _ _ _ _ _ (evs ++ evs0) Ht1) as [ρ Ht].
    rewrite run_app in Ht. fold s2 in Ht.
    assert (Hc' : settled (run evs0 s2) c (Fulfilled v)) by by do 2 apply settled_run.
    assert (Hw' : settled (run evs0 s2) u (Fulfilled w)) by by apply settled_run.
    destruct (tracks_race_returns _ _ _ _ _ _ _ Ht Hc' Hq) as [w' Ho]; [eauto|].
    destruct (tracks_race_sound _ _ _ _ _ _ _ _ Ht Hc' Ho)
      as [[_ [?|[e He]]]|(w'' & _ & Hu')].
    - lia.
    - by pose proof (settled_inj _ _ _ _ Hw' He).
    - by rewrite (settled_inj _ _ _ _ Hu' Hw') in Ho. }
  split.
  - intros Hq. by apply (Hfresh []).
  - apply settled_run. apply (Hfresh (repeat EvJob (measure s2))).
    + by rewrite now_run_jobs.
    + apply drain_quiescent.
Qed.

Lemma fresh_result_witness :
  let evs := [EvJob; EvWait 100; EvSettle 1 (Fulfilled groups2); EvJob] in
  let P := (updateGroups creds1 sub1 warm_cache).1 in
  let s2 := run evs (updateGroups creds1 sub1 warm_cache).2 in
  now s2 = 100 ∧
  settled (run [EvWait 400; EvTimer; EvJob; EvJob] (drain s2)) P
    (Fulfilled groups2).
Proof.
  intros evs P s2. split; [vm_compute; reflexivity|].
  apply (fresh_result_before_deadline warm_cache creds1 sub1 4 evs).
  - apply warm_cache_reachable.
  - exists 1. vm_compute. reflexivity.
  - vm_compute. reflexivity.
  - vm_compute. lia.
  - vm_compute. reflexivity.
Defined.

(** C3. With a cached result for the subscription id and a refresh that is
    still pending when the 500ms timer fires, the caller gets the cached
    groups at the deadline: until then the returned promise is pending, once
    the timers due by the deadline have fired and the microtasks have run it
    is fulfilled with the cached groups, and the clock never passes the
    deadline before it is fulfilled. *)
Theorem stale_result_at_deadline s credentials subscription c v u evs :
  reachable s →
  current s !! sub_id subscription = Some c →
  settled s c (Fulfilled v) →
  updates (updateGroups credentials subscription s).2 !! sub_id subscription
    = Some u →
  let P := (updateGroups credentials subscription s).1 in
  let s2 := run evs (updateGroups credentials subscription s).2 in
  let deadline := now s + 500 in
  (now s2 < deadline → pending s2 u → pending s2 P) ∧
  (quiescent s2 → Forall (λ tm, deadline < due tm) (timers s2) →
     pending s2 u → settled s2 P (Fulfilled v)) ∧
  (deadline < now s2 → ∃ w, settled s2 P (Fulfilled w)) ∧
  (deadline < now s2 → pending s2 u → settled s2 P (Fulfilled v)).
Proof.
  intros Hr Hcur Hc Hu P s2 deadline.
  destruct (call_tracks _ _ _ _ Hr Hu) as [ρ1 Ht1]. rewrite Hcur in Ht1.
  assert (Hc1 : settled (updateGroups credentials subscription s).2 c (Fulfilled v)).
  { by apply (grows_evolves _ _ (grows_updateGroups credentials subscription s)). }
  destruct (tracks_run _ _ _ _ _ _ evs Ht1) as [ρ2 Ht2]. fold s2 in Ht2.
  assert (Hc2 : settled s2 c (Fulfilled v)) by by apply settled_run.
  assert (Hstale : ∀ o, pending s2 u → settled s2 P o →
            o = Fulfilled v ∧ deadline ≤ now s2).
  { intros o Hp Ho.
    destruct (tracks_race_sound _ _ _ _ _ _ _ _ Ht2 Hc2 Ho)
      as [[-> [?|[e He]]]|(w & _ & Hu')]; [done| |].
    - destruct (pending_not_settled _ _ _ Hp He).
    - destruct (pending_not_settled _ _ _ Hp Hu'). }
  assert (Hbound : deadline < now s2 → ∃ w, settled s2 P (Fulfilled w)).
  { intros Hd. eapply deadline_bound; eauto.
    rewrite now_updateGroups. unfold deadline. lia. }
  split; [|split; [|split]].
  - intros Hn Hp.
    destruct (pending_or_settled s2 P (tracks_allocated _ _ _ _ _ _ Ht2))
      as [|[o Ho]]; [done|].
    destruct (Hstale o Hp Ho). lia.
  - intros Hq Hall Hp.
    destruct (tracks_race_returns _ _ _ _ _ _ _ Ht2 Hc2 Hq) as [w Ho]; [by left|].
    by destruct (Hstale _ Hp Ho) as [<- _].
  - done.
  - intros Hd Hp. destruct (Hbound Hd) as [w Ho].
    by destruct (Hstale _ Hp Ho) as [<- _].
Qed.

Lemma stale_result_witness :
  let evs := [EvJob; EvWait 500; EvTimer; EvJob; EvJob; EvJob; EvJob] in
  let P := (updateGroups creds1 sub1 warm_cache).1 in
  let s2 := run evs (updateGroups creds1 sub1 warm_cache).2 in
  now s2 = 500 ∧ pending s2 4 ∧ settled s2 P (Fulfilled groups1).
Proof.
  intros evs P s2.
  assert (Hp : pending s2 4) by (eexists; vm_compute; reflexivity).
  split; [vm_compute; reflexivity|]. split; [exact Hp|].
  destruct (stale_result_at_deadline warm_cache creds1 sub1 1 groups1 4 evs)
    as (_ & Hs & _).
  - apply warm_cache_reachable.
  - vm_compute. reflexivity.
  - vm_compute. reflexivity.
  - vm_compute. reflexivity.
  - apply Hs; [vm_compute; reflexivity | | exact Hp].
    replace (timers _) with (@nil timer) by (vm_compute; reflexivity).
    apply Forall_nil_2.
Defined.

(** ** The cached results *)

(** The only step that writes [current] is the success handler of a
    refresh. *)
Lemma current_step ρ e s :
  Safe ρ s →
  current (step e s) ≠ current s →
  ∃ id u v q, e = EvJob ∧
    jobs s = JReact (RDone id u) (Fulfilled v) :: q ∧
    current (step e s) = <[id:=u]> (current s) ∧
    updates (step e s) = delete id (updates s).
Proof.
  intros HS. destruct e as [| |subs|l|k o| |dt]; simpl.
  - destruct (jobs s) as [|j q] eqn:Ej; [done|].
    destruct j as [[d|d c|id u] o|d c]; simpl;
      try (by rewrite ?(keeps_settle current), ?(keeps_then current),
                ?(keeps_enqueue current) by apply off_heap_current).
    + destruct o as [[v|e]|n]; simpl;
        by rewrite ?(keeps_settle current), ?(keeps_resolve current)
          by apply off_heap_current.
    + destruct (done_job_outcome ρ s id u o HS) as [[v|e] ->];
        [rewrite Ej; apply elem_of_cons; by left| |done].
      intros _. by exists id, u, v, q.
  - by rewrite current_fetchGroups.
  - by rewrite current_onSubscriptionUpdated.
  - done.
  - destruct (calls s !! k); [|done].
    by rewrite (keeps_settle current) by apply off_heap_current.
  - destruct (jobs s); [|done].
    destruct (pop_due (now s) (timers s)) as [[tm rest]|]; [|done].
    by rewrite (keeps_resolve current) by apply off_heap_current.
  - by case_decide.
Qed.




(** X23. The entries of [current].  In every reachable state each entry
    was put there by the success handler of a refresh and is fulfilled, and
    so is every promise a timer or a [catch] handler falls back to; hence a
    call that found an entry of [current] for its subscription id never
    hands a rejection to its caller. *)
Theorem cached_results_are_fulfilled s :
  reachable s →
  (∀ id c, current s !! id = Some c → fulfilled s c) ∧
  (∀ tm (c : nat), tm ∈ timers s → tvalue tm = VPromise c → fulfilled s c) ∧
  (∀ q d (c : nat), registered s q (RCatch d c) → fulfilled s c) ∧
  (∀ d (c : nat) o, JReact (RCatch d c) o ∈ jobs s → fulfilled s c) ∧
  (∀ e, current (step e s) ≠ current s →
     ∃ id u v q, e = EvJob ∧
       jobs s = JReact (RDone id u) (Fulfilled v) :: q ∧
       settled s u (Fulfilled v) ∧
       current (step e s) = <[id:=u]> (current s)) ∧
  (∀ credentials subscription evs o,
     is_Some (current s !! sub_id subscription) →
     settled (run evs (updateGroups credentials subscription s).2)
       (updateGroups credentials subscription s).1 o →
     ∃ w, o = Fulfilled w).
Proof.
  intros Hr. destruct (reachable_Inv _ Hr) as [ρ [HS HL]].
  split; [|split; [|split; [|split; [|split]]]].
  - apply (safe_current _ _ HS).
  - intros tm c Htm Hv. destruct (safe_timer _ _ HS tm Htm) as [E _].
    rewrite Hv in E. by eapply (safe_fallback _ _ HS).
  - intros q d c (rs & Hq & Hin).
    pose proof (safe_reaction _ _ HS _ _ _ Hq Hin) as [E _].
    by eapply (safe_fallback _ _ HS).
  - intros d c o Hin. destruct (safe_job _ _ HS _ Hin) as (q & _ & E & _).
    by eapply (safe_fallback _ _ HS).
  - intros e He.
    destruct (current_step _ _ _ HS He) as (id & u & v & q & -> & Hj & Hc & _).
    exists id, u, v, q. repeat split; try done.
    destruct (safe_job _ _ HS (JReact (RDone id u) (Fulfilled v)))
      as (x & Hx & <- & _); [|done].
    rewrite Hj. apply elem_of_cons. by left.
  - intros credentials subscription evs o [c Hcur] Ho.
    destruct (safe_current _ _ HS _ _ Hcur) as [v Hc].
    pose proof (Own_current _ _ _ (reachable_Own _ Hr) Hcur) as Hid.
    destruct (reachable_Coherent _ Hr) as [ρ0 HC0].
    destruct (updateGroups_spec_own ρ0 s credentials subscription HC0 Hid)
      as (ρ1 & x & u & HI1 & _ & Hu & Hw & Hshape).
    destruct (call_tracks _ credentials subscription u Hr Hu) as [ρ2 Ht].
    rewrite Hcur in Ht.
    destruct (tracks_run _ _ _ _ _ _ evs Ht) as [ρ3 Ht3].
    assert (Hc3 : settled (run evs (updateGroups credentials subscription s).2)
                    c (Fulfilled v)).
    { apply settled_run.
      by apply (grows_evolves _ _ (grows_updateGroups credentials subscription s)). }
    destruct (tracks_race_fulfilled _ _ _ _ _ _ _ _ Ht3 Hc3 Ho) as (w & -> & _).
    eauto.
Qed.

Lemma cached_results_witness :
  fulfilled warm_cache 1 ∧
  ∀ evs o,
    settled (run evs (updateGroups creds1 sub1 warm_cache).2)
      (updateGroups creds1 sub1 warm_cache).1 o →
    ∃ w, o = Fulfilled w.
Proof.
  destruct (cached_results_are_fulfilled warm_cache warm_cache_reachable)
    as (Hcur & _ & _ & _ & _ & Hcall).
  split.
  - apply (Hcur "sub-1"). vm_compute. reflexivity.
  - intros evs o. apply Hcall. exists 1. vm_compute. reflexivity.
Defined.

(** ** [fetchGroups] and the subscription tracker *)

Lemma fetchGroups_no_default s :
  defaultSubscription s = None →
  fetchGroups s =
    (length (heap s),
     set_heap (λ h, h ++ [Settled (Rejected (UIError not_logged_in))]) s).
Proof.
  intros Hd. unfold fetchGroups. rewrite (async_throw_run _ s (UIError not_logged_in)).
  - run_binds. by rewrite Hd.
  - run_binds. by rewrite Hd.
Qed.

Lemma fetchGroups_no_credentials s sub :
  defaultSubscription s = Some sub →
  login s !! tenantId sub = None →
  fetchGroups s =
    (length (heap s),
     set_heap (λ h, h ++ [Settled (Rejected (UIError not_logged_in))])
       (set_lookups (λ l, l ++ [tenantId sub]) s)).
Proof.
  intros Hd Hl. unfold fetchGroups.
  rewrite (async_throw_run _ s (UIError not_logged_in)).
  - run_binds. rewrite Hd. unfold lookupCredentials. run_binds. simpl.
    by rewrite Hl.
  - run_binds. rewrite Hd. unfold lookupCredentials. run_binds. simpl.
    by rewrite Hl.
Qed.

Lemma fetchGroups_delegates s sub c :
  defaultSubscription s = Some sub →
  login s !! tenantId sub = Some c →
  let s0 := set_lookups (λ l, l ++ [tenantId sub]) s in
  fetchGroups s =
    (length (heap (updateGroups c sub s0).2),
     set_jobs (λ q, q ++ [JAdopt (length (heap (updateGroups c sub s0).2))
                            (updateGroups c sub s0).1])
       (set_heap (λ h, h ++ [Pending []]) (updateGroups c sub s0).2)).
Proof.
  intros Hd Hl s0. unfold fetchGroups.
  rewrite (async_return_run _ s (updateGroups c sub s0).1).
  - run_binds. rewrite Hd. unfold lookupCredentials. run_binds. simpl.
    rewrite Hl. by run_binds.
  - run_binds. rewrite Hd. unfold lookupCredentials. run_binds. simpl.
    rewrite Hl. by run_binds.
Qed.

(** The promise of a delegating [fetchGroups] wraps the promise of
    [updateGroups]. *)
Lemma fetchGroups_tracks s sub c :
  reachable s →
  defaultSubscription s = Some sub →
  login s !! tenantId sub = Some c →
  let s0 := set_lookups (λ l, l ++ [tenantId sub]) s in
  ∃ ρ, tracks ρ (fetchGroups s).2 (fetchGroups s).1
         (updateGroups c sub s0).1 None 0.
Proof.
  intros Hr Hd Hl s0. destruct (reachable_Coherent _ Hr) as [ρ0 HC].
  assert (HC0 : Coherent ρ0 s0) by by eapply Coherent_same.
  destruct (updateGroups_Coherent ρ0 s0 c sub HC0)
    as (ρ1 & [HI1 HD1] & Hlt).
  rewrite (fetchGroups_delegates s sub c Hd Hl). fold s0. cbn [fst snd].
  exists ((ρ0 ++ ρ1) ++ [Wrap (updateGroups c sub s0).1]). split; [split|].
  - by apply (Inv_async_return _ _ _ HI1).
  - apply (Dedup_async_return _ _ _ (proj1 HI1) HD1).
  - exists (updateGroups c sub s0).1. split; [|done].
    apply lookup_new_role. destruct HI1 as [HS1 _]. apply (safe_len _ _ HS1).
Qed.

(** C7. [fetchGroups] fails with the log-in error, starting nothing, when no
    default subscription is tracked or the login watcher has no credentials
    for its tenant; otherwise it calls [updateGroups] with those credentials
    and the tracked subscription, and its promise settles as the promise of
    [updateGroups] does. *)
Theorem fetchGroups_unauthenticated_or_delegates s :
  let F := (fetchGroups s).1 in
  let s' := (fetchGroups s).2 in
  let quiet :=
    calls s' = calls s ∧ updates s' = updates s ∧ current s' = current s ∧
    timers s' = timers s ∧ jobs s' = jobs s in
  (defaultSubscription s = None →
     settled s' F (Rejected (UIError not_logged_in)) ∧ quiet ∧
     lookups s' = lookups s) ∧
  (∀ sub, defaultSubscription s = Some sub →
     login s !! tenantId sub = None →
     settled s' F (Rejected (UIError not_logged_in)) ∧ quiet ∧
     lookups s' = lookups s ++ [tenantId sub]) ∧
  (∀ sub c, defaultSubscription s = Some sub →
     login s !! tenantId sub = Some c →
     let s0 := set_lookups (λ l, l ++ [tenantId sub]) s in
     let P := (updateGroups c sub s0).1 in
     calls s' = calls (updateGroups c sub s0).2 ∧
     updates s' = updates (updateGroups c sub s0).2 ∧
     jobs s' = jobs (updateGroups c sub s0).2 ++ [JAdopt F P] ∧
     (reachable s → ∀ evs o,
        (settled (run evs s') F o → settled (run evs s') P o) ∧
        (settled (run evs s') P o → settled (drain (run evs s')) F o))).
Proof.
  intros F s' quiet. unfold quiet, F, s'. split; [|split].
  - intros Hd. rewrite (fetchGroups_no_default s Hd). cbn [fst snd].
    split; [|done]. unfold settled. simpl. by apply list_lookup_middle.
  - intros sub Hd Hl. rewrite (fetchGroups_no_credentials s sub Hd Hl).
    cbn [fst snd]. split; [|done]. unfold settled. simpl.
    by apply list_lookup_middle.
  - intros sub c Hd Hl.
    split; [|split; [|split]];
      try (rewrite (fetchGroups_delegates s sub c Hd Hl); done).
    intros Hr evs o. destruct (fetchGroups_tracks s sub c Hr Hd Hl) as [ρ Ht].
    destruct (tracks_run _ _ _ _ _ _ evs Ht) as [ρ2 Ht2]. split.
    + by apply (tracks_first_sound _ _ _ _ _ _ Ht2).
    + intros Ho.
      destruct (tracks_run _ _ _ _ _ _
                  (repeat EvJob (measure (run evs (fetchGroups s).2))) Ht2)
        as [ρ3 Ht3].
      apply (tracks_first_complete _ _ _ _ _ _ Ht3); [apply drain_quiescent|].
      by apply settled_run.
Qed.

Lemma fetchGroups_witness :
  let logged_out := constructor [] ∅ 0 in
  settled (fetchGroups logged_out).2 (fetchGroups logged_out).1
    (Rejected (UIError not_logged_in)) ∧
  calls (fetchGroups logged_out).2 = [] ∧
  let evs := [EvJob; EvJob; EvJob; EvSettle 0 (Fulfilled groups1);
              EvJob; EvJob; EvJob; EvJob] in
  settled (drain (run evs (fetchGroups fresh_cache).2))
    (fetchGroups fresh_cache).1 (Fulfilled groups1).
Proof.
  intros logged_out. split; [|split].
  - destruct (fetchGroups_unauthenticated_or_delegates logged_out) as [H _].
    destruct (H eq_refl) as [Hs _]. exact Hs.
  - destruct (fetchGroups_unauthenticated_or_delegates logged_out) as [H _].
    destruct (H eq_refl) as (_ & (Hc & _) & _). exact Hc.
  - intros evs.
    destruct (fetchGroups_unauthenticated_or_delegates fresh_cache)
      as (_ & _ & H).
    destruct (H sub1 creds1) as (_ & _ & _ & Hs);
      [vm_compute; reflexivity | vm_compute; reflexivity|].
    apply (Hs fresh_cache_reachable evs). vm_compute. reflexivity.
Defined.

Lemma onSubscriptionUpdated_same s :
  sub_id <$> defaultSubscription s = sub_id <$> find isDefault (subscriptions s) →
  onSubscriptionUpdated s = (tt, s).
Proof.
  intros Hid. unfold onSubscriptionUpdated. run_binds. by case_decide.
Qed.

Lemma defaultSubscription_updateGroups c sub :
  keeps defaultSubscription (updateGroups c sub).
Proof. keeps_tac. Qed.

Lemma onSubscriptionUpdated_changed s :
  sub_id <$> defaultSubscription s ≠ sub_id <$> find isDefault (subscriptions s) →
  defaultSubscription (onSubscriptionUpdated s).2 = find isDefault (subscriptions s).
Proof.
  intros Hid. unfold onSubscriptionUpdated. run_binds. case_decide; [done|].
  run_binds. destruct (find isDefault (subscriptions s)) as [sub|]; [|done].
  unfold lookupCredentials. run_binds. simpl.
  destruct (login s !! tenantId sub); [|done]. run_binds.
  by rewrite defaultSubscription_updateGroups.
Qed.

(** C8. A notification whose default subscription has the id of the stored
    one (or none, as the stored one) changes nothing in the cache: the
    stored default, both maps, the promises and the queue stay as they are,
    the login watcher is not asked for credentials and no remote call is
    made; the stored default is replaced only when the id differs. *)
Theorem redundant_notification_changes_nothing s subs :
  (sub_id <$> defaultSubscription s = sub_id <$> find isDefault subs →
     onSubscriptionUpdated (set_subscriptions subs s)
       = (tt, set_subscriptions subs s) ∧
     step (EvNotify subs) s = set_subscriptions subs s) ∧
  (defaultSubscription (step (EvNotify subs) s) ≠ defaultSubscription s →
     sub_id <$> defaultSubscription s ≠ sub_id <$> find isDefault subs) ∧
  (sub_id <$> defaultSubscription s ≠ sub_id <$> find isDefault subs →
     defaultSubscription (step (EvNotify subs) s) = find isDefault subs).
Proof.
  split; [|split].
  - intros Hid. simpl. by rewrite onSubscriptionUpdated_same.
  - intros Hne Hid. apply Hne. simpl. by rewrite onSubscriptionUpdated_same.
  - intros Hne. simpl. by rewrite onSubscriptionUpdated_changed.
Qed.

Lemma redundant_notification_witness :
  step (EvNotify [sub1_moved]) warm_cache
    = set_subscriptions [sub1_moved] warm_cache ∧
  defaultSubscription (step (EvNotify [sub1_moved]) warm_cache) = Some sub1 ∧
  lookups (step (EvNotify [sub1_moved]) warm_cache) = lookups warm_cache ∧
  calls (step (EvNotify [sub1_moved]) warm_cache) = calls warm_cache.
Proof.
  destruct (redundant_notification_changes_nothing warm_cache [sub1_moved])
    as [H _].
  destruct H as [_ ->]; [vm_compute; reflexivity|].
  repeat split.
Defined.

Lemma defaultSubscription_fetchGroups : keeps defaultSubscription fetchGroups.
Proof. keeps_tac. Qed.

Lemma defaultSubscription_run_job j : keeps defaultSubscription (run_job j).
Proof. destruct j as [[d|d c|id u] [[v|e]|n]|d c]; simpl; keeps_tac. Qed.

Lemma defaultSubscription_step e s stored :
  defaultSubscription s = Some stored →
  keeps_default_id (sub_id stored) e →
  defaultSubscription (step e s) = Some stored.
Proof.
  intros Hd Hk. destruct e as [| |subs|l|k o| |dt]; simpl.
  - destruct (jobs s) as [|j q]; [done|].
    by rewrite (defaultSubscription_run_job j (set_jobs (λ _, q) s)).
  - by rewrite defaultSubscription_fetchGroups.
  - simpl in Hk. rewrite onSubscriptionUpdated_same; [done|].
    simpl. by rewrite Hd, Hk.
  - done.
  - destruct (calls s !! k); [|done].
    by rewrite (keeps_settle defaultSubscription)
      by apply off_heap_defaultSubscription.
  - destruct (jobs s); [|done].
    destruct (pop_due (now s) (timers s)) as [[tm rest]|]; [|done].
    by rewrite (keeps_resolve defaultSubscription)
      by apply off_heap_defaultSubscription.
  - by case_decide.
Qed.

Lemma defaultSubscription_run evs s stored :
  defaultSubscription s = Some stored →
  Forall (keeps_default_id (sub_id stored)) evs →
  defaultSubscription (run evs s) = Some stored.
Proof.
  revert s. induction evs as [|e evs IH]; intros s Hd Hall; [done|].
  apply Forall_cons in Hall as [He Hall]. simpl. apply IH; [|done].
  by apply defaultSubscription_step.
Qed.

Lemma lookups_updateGroups c sub : keeps lookups (updateGroups c sub).
Proof. keeps_tac. Qed.

Lemma fetchGroups_lookups s sub :
  defaultSubscription s = Some sub →
  lookups (fetchGroups s).2 = lookups s ++ [tenantId sub].
Proof.
  intros Hd. destruct (login s !! tenantId sub) as [c|] eqn:Hl.
  - rewrite (fetchGroups_delegates s sub c Hd Hl). simpl.
    by rewrite lookups_updateGroups.
  - by rewrite (fetchGroups_no_credentials s sub Hd Hl).
Qed.

(** C9, as long as the id of the default subscription stays.  A
    notification that brings a default subscription with the stored id but
    another tenant leaves the stored subscription in place, and as long as
    no later notification changes the id of the default subscription every
    [fetchGroups] asks the login watcher for the credentials of the stored
    tenant, not of the new one, and fails when only the new tenant is
    logged in. *)
Theorem same_id_notification_keeps_old_tenant s subs stored new evs :
  defaultSubscription s = Some stored →
  find isDefault subs = Some new →
  sub_id new = sub_id stored →
  tenantId new ≠ tenantId stored →
  Forall (keeps_default_id (sub_id stored)) evs →
  let s' := run evs (step (EvNotify subs) s) in
  defaultSubscription (step (EvNotify subs) s) = Some stored ∧
  defaultSubscription s' = Some stored ∧
  lookups (fetchGroups s').2 = lookups s' ++ [tenantId stored] ∧
  lookups (fetchGroups s').2 ≠ lookups s' ++ [tenantId new] ∧
  (login s' !! tenantId stored = None →
     settled (fetchGroups s').2 (fetchGroups s').1
       (Rejected (UIError not_logged_in)) ∧
     calls (fetchGroups s').2 = calls s') ∧
  (∀ c, login s' !! tenantId stored = Some c →
     (fetchGroups s').2 =
       (async (do p <- updateGroups c stored; ret (Return p))
          (set_lookups (λ l, l ++ [tenantId stored]) s')).2).
Proof.
  intros Hd Hfind Hid Hten Hall s'.
  assert (Hd1 : defaultSubscription (step (EvNotify subs) s) = Some stored).
  { apply defaultSubscription_step; [done|]. simpl. rewrite Hfind. simpl.
    by rewrite Hid. }
  assert (Hd2 : defaultSubscription s' = Some stored).
  { by apply defaultSubscription_run. }
  pose proof (fetchGroups_lookups s' stored Hd2) as Hl.
  split; [done|]. split; [done|]. split; [done|]. split; [|split].
  - rewrite Hl. intros Heq. apply app_inv_head in Heq. congruence.
  - intros Hnone. rewrite (fetchGroups_no_credentials s' stored Hd2 Hnone).
    cbn [fst snd]. split; [|done]. unfold settled. simpl.
    by apply list_lookup_middle.
  - intros c Hc. rewrite (fetchGroups_delegates s' stored c Hd2 Hc).
    cbn [fst snd]. unfold async. by run_binds.
Qed.

Lemma same_id_notification_witness :
  let s' := run [EvLogin login2; EvWait 10]
              (step (EvNotify [sub1_moved]) warm_cache) in
  defaultSubscription s' = Some sub1 ∧
  lookups (fetchGroups s').2 = lookups s' ++ ["tenant-1"] ∧
  settled (fetchGroups s').2 (fetchGroups s').1
    (Rejected (UIError not_logged_in)).
Proof.
  intros s'.
  destruct (same_id_notification_keeps_old_tenant warm_cache [sub1_moved]
              sub1 sub1_moved [EvLogin login2; EvWait 10])
    as (_ & Hd & Hl & _ & Hrej & _).
  - vm_compute. reflexivity.
  - vm_compute. reflexivity.
  - reflexivity.
  - simpl. discriminate.
  - repeat constructor.
  - split; [exact Hd|]. split; [exact Hl|]. apply Hrej. vm_compute. reflexivity.
Defined.

(** C9 does not hold for every later call of [fetchGroups].  The cache
    holds [sub1] of [tenant-1]; the notification of [sub1_moved], same id
    and [tenant-2], does not replace it.  A notification without a default
    subscription then clears the stored one, the next notification of
    [sub1_moved] stores it, and [fetchGroups] asks for the credentials of
    [tenant-2]. *)
Lemma same_id_notification_counterexample :
  let s1 := step (EvNotify [sub1_moved]) warm_cache in
  let s' := run [EvNotify []; EvNotify [sub1_moved]] s1 in
  defaultSubscription warm_cache = Some sub1 ∧
  find isDefault [sub1_moved] = Some sub1_moved ∧
  sub_id sub1_moved = sub_id sub1 ∧
  tenantId sub1_moved ≠ tenantId sub1 ∧
  defaultSubscription s1 = Some sub1 ∧
  defaultSubscription s' = Some sub1_moved ∧
  lookups (fetchGroups s').2 = lookups s' ++ [tenantId sub1_moved] ∧
  lookups (fetchGroups s').2 ≠ lookups s' ++ [tenantId sub1].
Proof.
  intros s1 s'.
  assert (Hd : defaultSubscription s' = Some sub1_moved)
    by (vm_compute; reflexivity).
  pose proof (fetchGroups_lookups s' sub1_moved Hd) as Hl.
  split; [vm_compute; reflexivity|]. split; [reflexivity|].
  split; [reflexivity|]. split; [simpl; discriminate|].
  split; [vm_compute; reflexivity|]. split; [exact Hd|].
  split; [exact Hl|]. rewrite Hl. intros Heq.
  apply app_inv_head in Heq. discriminate.
Qed.

(** ** Deduplication *)

Lemma calls_race_with_current u c : keeps calls (race_with_current u c).
Proof. keeps_tac. Qed.

Lemma updates_race_with_current u c : keeps updates (race_with_current u c).
Proof. keeps_tac. Qed.

(** The call returns [x]: its promise is resolved with [x]. *)
Lemma updateGroups_run s c sub (x : nat) :
  (updateGroups_body c sub s).1 = Return x →
  updateGroups c sub s =
    (length (heap (updateGroups_body c sub s).2),
     set_jobs (λ q, q ++ [JAdopt (length (heap (updateGroups_body c sub s).2))
                            x])
       (set_heap (λ h, h ++ [Pending []]) (updateGroups_body c sub s).2)).
Proof. intros Hx. unfold updateGroups. by apply async_return_run. Qed.

Lemma updateGroups_fst s c sub :
  (updateGroups c sub s).1 = length (heap (updateGroups_body c sub s).2).
Proof. unfold updateGroups, async. by run_binds. Qed.

(** The three ways the body goes, by what the read of [updates] finds. *)
Lemma updateGroups_body_in_flight s c sub (u : nat) :
  updates s !! sub_id sub = Some u →
  updateGroups_body c sub s =
    match get (current s) (sub_id sub) with
    | Some cur => race_with_current u cur s
    | None => (Return u, s)
    end.
Proof.
  intros Hu. unfold updateGroups_body. rewrite !run_bind. unfold gets.
  cbn [fst snd]. rewrite (get_Some _ _ _ Hu), ret_run. cbn [fst snd].
  by destruct (get (current s) (sub_id sub)).
Qed.

Lemma updateGroups_body_start s c sub :
  get (updates s) (sub_id sub) = None →
  updateGroups_body c sub s =
    match get (current s) (sub_id sub) with
    | Some cur =>
        race_with_current (S (length (heap s))) cur (start_update c sub s).2
    | None => (Return (S (length (heap s))), (start_update c sub s).2)
    end.
Proof.
  intros Hu. unfold updateGroups_body. rewrite !run_bind. unfold gets.
  cbn [fst snd]. rewrite Hu, run_bind, ret_run, start_update_fst.
  cbn [fst snd]. destruct (start_update_fields s c sub) as (-> & _).
  by destruct (get (current s) (sub_id sub)).
Qed.

Lemma updateGroups_body_inherited s c sub name :
  get (updates s) (sub_id sub) = Some (VInherited name) →
  ∃ cur, get (current s) (sub_id sub) = Some cur ∧
    updateGroups_body c sub s =
      (Throw (TypeError no_catch), (timeout_promise 500 cur s).2).
Proof.
  intros Hu. pose proof Hu as (_ & Hid & _)%get_inherited.
  destruct (get (current s) (sub_id sub)) as [cur|] eqn:Ec.
  2:{ apply get_None in Ec as [_ []]. done. }
  exists cur. split; [done|].
  unfold updateGroups_body. rewrite !run_bind. unfold gets.
  cbn [fst snd]. rewrite Hu, ret_run. cbn [fst snd]. rewrite Ec.
  apply race_with_current_throws.
Qed.

Lemma calls_timeout_promise d c : keeps calls (timeout_promise d c).
Proof. keeps_tac. Qed.

Lemma updates_timeout_promise d c : keeps updates (timeout_promise d c).
Proof. keeps_tac. Qed.

(** What [updateGroups] does to the remote calls and to [updates]: nothing
    when the read of [updates] finds a value, one call and one entry
    otherwise. *)
Lemma updateGroups_calls_updates s c sub :
  match get (updates s) (sub_id sub) with
  | Some _ =>
      calls (updateGroups c sub s).2 = calls s ∧
      updates (updateGroups c sub s).2 = updates s
  | None =>
      calls (updateGroups c sub s).2 =
        calls s ++ [{| call_credentials := c;
                       call_subscription := sub_id sub;
                       call_promise := length (heap s) |}] ∧
      updates (updateGroups c sub s).2 =
        <[sub_id sub := S (length (heap s))]> (updates s)
  end.
Proof.
  unfold updateGroups.
  rewrite (async_off_heap calls), (async_off_heap updates) by done.
  destruct (get (updates s) (sub_id sub)) as [[u|name]|] eqn:E.
  - apply get_promise in E.
    rewrite (updateGroups_body_in_flight s c sub u E).
    destruct (get (current s) (sub_id sub)) as [cur|]; [|done].
    by rewrite calls_race_with_current, updates_race_with_current.
  - destruct (updateGroups_body_inherited s c sub name E) as (cur & _ & ->).
    cbn [snd]. by rewrite calls_timeout_promise, updates_timeout_promise.
  - rewrite (updateGroups_body_start s c sub E).
    destruct (start_update_fields s c sub) as (_ & _ & _ & Hu & Hc).
    destruct (get (current s) (sub_id sub)) as [cur|]; cbn [snd];
      rewrite ?calls_race_with_current, ?updates_race_with_current;
      by rewrite Hu, Hc.
Qed.

(** The same for an id that is not an inherited name. *)
Lemma updateGroups_calls_updates_own s c sub :
  sub_id sub ∉ Object_prototype →
  match updates s !! sub_id sub with
  | Some u =>
      calls (updateGroups c sub s).2 = calls s ∧
      updates (updateGroups c sub s).2 = updates s
  | None =>
      calls (updateGroups c sub s).2 =
        calls s ++ [{| call_credentials := c;
                       call_subscription := sub_id sub;
                       call_promise := length (heap s) |}] ∧
      updates (updateGroups c sub s).2 =
        <[sub_id sub := S (length (heap s))]> (updates s)
  end.
Proof.
  intros Hid. pose proof (updateGroups_calls_updates s c sub) as H.
  rewrite get_own in H by done. by destruct (updates s !! sub_id sub).
Qed.

Lemma updateGroups_many_found cs sub s :
  is_Some (get (updates s) (sub_id sub)) →
  calls (updateGroups_many cs sub s) = calls s ∧
  updates (updateGroups_many cs sub s) = updates s.
Proof.
  revert s. induction cs as [|c cs IH]; intros s [v Hv]; [done|].
  pose proof (updateGroups_calls_updates s c sub) as H.
  rewrite Hv in H. destruct H as [Hc Hupd].
  change (updateGroups_many (c :: cs) sub s)
    with (updateGroups_many cs sub (updateGroups c sub s).2).
  destruct (IH (updateGroups c sub s).2) as [-> ->];
    [rewrite Hupd; eauto|done].
Qed.

Lemma updateGroups_many_in_flight cs sub s u :
  updates s !! sub_id sub = Some u →
  calls (updateGroups_many cs sub s) = calls s ∧
  updates (updateGroups_many cs sub s) = updates s.
Proof.
  intros Hu. apply updateGroups_many_found. rewrite (get_Some _ _ _ Hu). eauto.
Qed.

(** After a call the read of [updates] finds a value. *)
Lemma updateGroups_found s c sub :
  is_Some (get (updates (updateGroups c sub s).2) (sub_id sub)).
Proof.
  pose proof (updateGroups_calls_updates s c sub) as H.
  destruct (get (updates s) (sub_id sub)) as [v|] eqn:E;
    destruct H as [_ ->]; [eauto|].
  rewrite (get_Some _ _ (S (length (heap s)))); [eauto|].
  apply lookup_insert_eq.
Qed.

Lemma updates_run_job_other j :
  (∀ id u o, j ≠ JReact (RDone id u) o) → keeps updates (run_job j).
Proof.
  intros Hj. destruct j as [[d|d c|id u] o|d c];
    [| |by destruct (Hj id u o)|]; try destruct o as [[v|e]|n]; simpl;
    keeps_tac.
Qed.

Lemma calls_run_job j : keeps calls (run_job j).
Proof. destruct j as [[d|d c|id u] [[v|e]|n]|d c]; simpl; keeps_tac. Qed.

Lemma calls_for_updateGroups s c sub id :
  is_Some (updates s !! id) →
  calls_for id (updateGroups c sub s).2 = calls_for id s ∧
  updates (updateGroups c sub s).2 !! id = updates s !! id.
Proof.
  intros [u Hu]. pose proof (updateGroups_calls_updates s c sub) as H.
  unfold calls_for.
  destruct (get (updates s) (sub_id sub)) as [u'|] eqn:E.
  - by destruct H as [-> ->].
  - destruct H as [-> ->]. apply get_None in E as [E _].
    assert (sub_id sub ≠ id) by congruence.
    rewrite filter_app, lookup_insert_ne by done. split; [|done].
    rewrite (filter_cons_False _ _ []) by done. by rewrite app_nil_r.
Qed.

Lemma calls_for_fetchGroups s id :
  is_Some (updates s !! id) →
  calls_for id (fetchGroups s).2 = calls_for id s ∧
  updates (fetchGroups s).2 !! id = updates s !! id.
Proof.
  intros Hu. destruct (defaultSubscription s) as [sub|] eqn:Hd.
  - destruct (login s !! tenantId sub) as [c|] eqn:Hl.
    + rewrite (fetchGroups_delegates s sub c Hd Hl). cbn [snd].
      apply (calls_for_updateGroups (set_lookups _ s) c sub id Hu).
    + by rewrite (fetchGroups_no_credentials s sub Hd Hl).
  - by rewrite (fetchGroups_no_default s Hd).
Qed.

Lemma onSubscriptionUpdated_run s :
  onSubscriptionUpdated s =
    if decide (sub_id <$> defaultSubscription s
               = sub_id <$> find isDefault (subscriptions s))
    then (tt, s)
    else
      let s0 := set_defaultSubscription (find isDefault (subscriptions s)) s in
      match find isDefault (subscriptions s) with
      | Some sub =>
          let s1 := set_lookups (λ l, l ++ [tenantId sub]) s0 in
          match login s !! tenantId sub with
          | Some c => (tt, (updateGroups c sub s1).2)
          | None => (tt, s1)
          end
      | None => (tt, s0)
      end.
Proof.
  unfold onSubscriptionUpdated. rewrite !run_bind. unfold gets.
  cbn [fst snd]. case_decide; [done|]. rewrite run_bind. unfold modify.
  cbn [fst snd]. destruct (find isDefault (subscriptions s)) as [sub|]; [|done].
  rewrite run_bind. unfold lookupCredentials. rewrite run_bind.
  unfold modify, gets. cbn [fst snd].
  change (login (set_lookups _ (set_defaultSubscription _ s))) with (login s).
  destruct (login s !! tenantId sub) as [c|]; [|done].
  by rewrite run_bind.
Qed.

Lemma calls_for_onSubscriptionUpdated s id :
  is_Some (updates s !! id) →
  calls_for id (onSubscriptionUpdated s).2 = calls_for id s ∧
  updates (onSubscriptionUpdated s).2 !! id = updates s !! id.
Proof.
  intros Hu. rewrite onSubscriptionUpdated_run. case_decide; [done|].
  cbn zeta. destruct (find isDefault (subscriptions s)) as [sub|]; [|done].
  destruct (login s !! tenantId sub) as [c|]; [|done]. cbn [snd].
  apply (calls_for_updateGroups
           (set_lookups _ (set_defaultSubscription _ s)) c sub id Hu).
Qed.

Lemma step_length e s : length (heap s) ≤ length (heap (step e s)).
Proof.
  destruct e as [| |subs|l|k o| |dt]; simpl.
  - destruct (jobs s) as [|j q] eqn:Ej; [done|].
    change (length (heap s)) with (length (heap (set_jobs (λ _, q) s))).
    apply grows_length, grows_run_job.
  - apply grows_length, grows_fetchGroups.
  - change (length (heap s))
      with (length (heap (set_subscriptions subs s))).
    apply grows_length, grows_onSubscriptionUpdated.
  - done.
  - destruct (calls s !! k); [|done]. apply grows_length, grows_settle.
  - destruct (jobs s); [|done].
    destruct (pop_due (now s) (timers s)) as [[tm rest]|]; [|done].
    change (length (heap s)) with (length (heap (set_timers (λ _, rest) s))).
    apply grows_length, grows_resolve.
  - by case_decide.
Qed.

Lemma step_allocated e s p :
  p < length (heap s) → p < length (heap (step e s)).
Proof. pose proof (step_length e s). lia. Qed.

(** While the refresh [u] of a subscription id is pending, no step starts
    another remote call for that id, and [u] stays the entry of [updates]. *)
Lemma step_in_flight ρ s e id u :
  Coherent ρ s → updates s !! id = Some u → pending (step e s) u →
  calls_for id (step e s) = calls_for id s ∧
  updates (step e s) !! id = Some u.
Proof.
  intros [[HS _] HD] Hu Hp. rewrite <-Hu.
  assert (Hsome : is_Some (updates s !! id)) by eauto.
  destruct e as [| |subs|l|k o| |dt]; simpl in *.
  - destruct (jobs s) as [|j q] eqn:Hj; [done|].
    unfold calls_for. rewrite (calls_run_job j (set_jobs (λ _, q) s)).
    split; [done|].
    destruct j as [[d|d c|id' u'] o|d c];
      try (rewrite updates_run_job_other; [done|by intros ???]).
    assert (Hu' : updates s !! id' = Some u').
    { apply (dd_job _ _ HD 0 id' u' o). by rewrite Hj. }
    assert (Hset : settled s u' o).
    { destruct (safe_job _ _ HS (JReact (RDone id' u') o))
        as (x & Hx & <- & _);
        [rewrite Hj; apply elem_of_cons; by left|done]. }
    assert (id' ≠ id).
    { intros ->. assert (u' = u) as -> by congruence.
      eapply pending_not_settled; [exact Hp|].
      apply (step_evolves EvJob s) in Hset. simpl in Hset.
      by rewrite Hj in Hset. }
    destruct o as [[v|e]|n]; unfold run_job, on_loaded, on_load_failed;
      run_binds; simpl; by rewrite lookup_delete_ne.
  - by apply calls_for_fetchGroups.
  - by apply (calls_for_onSubscriptionUpdated (set_subscriptions subs s)).
  - done.
  - destruct (calls s !! k); [|done]. unfold calls_for.
    by rewrite (keeps_settle calls), (keeps_settle updates)
      by auto using off_heap_calls, off_heap_updates.
  - destruct (jobs s); [|done].
    destruct (pop_due (now s) (timers s)) as [[tm rest]|]; [|done].
    unfold calls_for.
    by rewrite (keeps_resolve calls), (keeps_resolve updates)
      by auto using off_heap_calls, off_heap_updates.
  - by case_decide.
Qed.

Lemma run_in_flight ρ s evs id u :
  Coherent ρ s → updates s !! id = Some u → pending (run evs s) u →
  calls_for id (run evs s) = calls_for id s ∧
  updates (run evs s) !! id = Some u.
Proof.
  revert ρ s. induction evs as [|e evs IH]; intros ρ s HC Hu Hp; [done|].
  change (run (e :: evs) s) with (run evs (step e s)) in *.
  assert (Hp1 : pending (step e s) u).
  { assert (Hlt : u < length (heap (step e s))).
    { apply step_allocated. destruct HC as [[HS _] _].
      rewrite <-(safe_len _ _ HS).
      eapply is_refresh_lt, safe_updates; eauto. }
    destruct (pending_or_settled _ _ Hlt) as [|[o Ho]]; [done|].
    destruct (pending_not_settled _ _ _ Hp (settled_run evs _ _ _ Ho)). }
  destruct (step_in_flight _ _ e _ _ HC Hu Hp1) as [Hc Hu1].
  destruct (Coherent_step _ _ e HC) as [ρ1 HC1].
  destruct (IH _ _ HC1 Hu1 Hp) as [Hc2 Hu2]. by rewrite Hc2, Hc.
Qed.

(** In a reachable state at most one remote call per subscription id has
    not settled. *)
Lemma one_call_in_flight ρ s i j k k' :
  Coherent ρ s →
  calls s !! i = Some k → calls s !! j = Some k' →
  call_subscription k = call_subscription k' →
  pending s (call_promise k) → pending s (call_promise k') →
  i = j.
Proof.
  intros [_ HD] Ei Ej Hid Hp Hp'.
  destruct (dd_call _ _ HD k (list_elem_of_lookup_2 _ _ _ Ei) Hp) as (u & Hu & Hw).
  destruct (dd_call _ _ HD k' (list_elem_of_lookup_2 _ _ _ Ej) Hp') as (u' & Hu' & Hw').
  rewrite Hid in Hu. assert (u = u') as -> by congruence.
  apply (dd_call_fresh _ _ HD i j k k' Ei Ej). congruence.
Qed.

(** ** Every refresh has its completion handlers

    While a refresh is the entry of [updates], the handlers of lines 64-72
    are either registered on it or queued as a microtask. *)

Lemma handled_grows s s' id u : grows s s' → handled s id u → handled s' id u.
Proof.
  intros Hg [Hr|(o & Hj)].
  - destruct (grows_registered _ _ _ _ Hg Hr); [by left|by right].
  - right. exists o. by apply (grows_jobs _ _ Hg).
Qed.

Lemma Handled_grows s s' :
  grows s s' → updates s' = updates s → Handled s → Handled s'.
Proof.
  intros Hg Hu H id u E. rewrite Hu in E. eauto using handled_grows.
Qed.

Lemma grows_after_body s c sub :
  grows (updateGroups_body c sub s).2 (updateGroups c sub s).2.
Proof.
  unfold updateGroups, async. run_binds.
  apply (grows_trans _ (new_promise (updateGroups_body c sub s).2).2);
    [apply grows_new_promise|].
  destruct (updateGroups_body c sub s).1 as [x|e];
    [apply grows_resolve|apply grows_settle].
Qed.

Lemma grows_after_start s c sub :
  get (updates s) (sub_id sub) = None →
  grows (start_update c sub s).2 (updateGroups c sub s).2.
Proof.
  intros E. eapply grows_trans; [|apply grows_after_body].
  rewrite (updateGroups_body_start s c sub E).
  destruct (get (current s) (sub_id sub)) as [cur|]; cbn [snd];
    [apply grows_race_with_current|apply grows_refl].
Qed.

Lemma handled_start_update s c sub :
  handled (start_update c sub s).2 (sub_id sub) (S (length (heap s))).
Proof.
  left. rewrite start_update_run. cbn [snd].
  exists [RDone (sub_id sub) (S (length (heap s)))].
  split; [|apply list_elem_of_singleton; done]. simpl.
  rewrite lookup_app_r by lia.
  by replace (S (length (heap s)) - length (heap s)) with 1 by lia.
Qed.

Lemma Handled_updateGroups s c sub :
  Handled s → Handled (updateGroups c sub s).2.
Proof.
  intros H id u Hu.
  pose proof (updateGroups_calls_updates s c sub) as Hcu.
  destruct (get (updates s) (sub_id sub)) as [u0|] eqn:E;
    destruct Hcu as [_ Hupd]; rewrite Hupd in Hu.
  - eapply handled_grows; [apply grows_updateGroups|auto].
  - destruct (decide (sub_id sub = id)) as [<-|Hne].
    + rewrite lookup_insert_eq in Hu. injection Hu as <-.
      eapply handled_grows; [by apply grows_after_start|].
      apply handled_start_update.
    + rewrite lookup_insert_ne in Hu by done.
      eapply handled_grows; [apply grows_updateGroups|auto].
Qed.

Lemma Handled_same s s' :
  heap s' = heap s → jobs s' = jobs s → updates s' = updates s →
  Handled s → Handled s'.
Proof.
  intros Hh Hj Hu H id u E. rewrite Hu in E.
  unfold handled, registered. rewrite Hh, Hj. by apply H.
Qed.

Lemma Handled_fetchGroups s : Handled s → Handled (fetchGroups s).2.
Proof.
  intros H. destruct (defaultSubscription s) as [sub|] eqn:Hd.
  - destruct (login s !! tenantId sub) as [c|] eqn:Hl.
    + eapply (Handled_grows (updateGroups c sub (set_lookups _ s)).2).
      * rewrite (fetchGroups_delegates s sub c Hd Hl). cbn [snd].
        eapply grows_trans; [apply grows_new_promise|].
        exact (grows_enqueue _ _).
      * by rewrite (fetchGroups_delegates s sub c Hd Hl).
      * apply Handled_updateGroups. by apply (Handled_same s).
    + eapply Handled_grows; [apply grows_fetchGroups| |done].
      by rewrite (fetchGroups_no_credentials s sub Hd Hl).
  - eapply Handled_grows; [apply grows_fetchGroups| |done].
    by rewrite (fetchGroups_no_default s Hd).
Qed.

Lemma Handled_onSubscriptionUpdated s :
  Handled s → Handled (onSubscriptionUpdated s).2.
Proof.
  intros H. rewrite onSubscriptionUpdated_run. case_decide; [done|].
  cbn zeta. destruct (find isDefault (subscriptions s)) as [sub|];
    [|by apply (Handled_same s)].
  destruct (login s !! tenantId sub) as [c|]; [|by apply (Handled_same s)].
  cbn [snd]. apply Handled_updateGroups. by apply (Handled_same s).
Qed.

Lemma Handled_step e s : Handled s → Handled (step e s).
Proof.
  intros H. destruct e as [| |subs|l|k o| |dt]; simpl.
  - destruct (jobs s) as [|j q] eqn:Ej; [done|].
    assert (Hrest : ∀ id u, updates s !! id = Some u →
              (∀ o, j ≠ JReact (RDone id u) o) →
              handled (set_jobs (λ _, q) s) id u).
    { intros id u E Hne. destruct (H id u E) as [Hr|(o & Hj)]; [by left|].
      right. exists o. rewrite Ej in Hj. apply elem_of_cons in Hj as [Heq|Hj];
        [by destruct (Hne o)|done]. }
    destruct j as [[d|d c|id' u'] o|d c].
    1,2,4: intros id u E;
      rewrite updates_run_job_other in E by (by intros ???);
      apply (handled_grows (set_jobs (λ _, q) s)); [apply grows_run_job|];
      apply Hrest; [done|by intros ?].
    intros id u E.
    assert (Hid : id ≠ id' ∧ updates s !! id = Some u).
    { destruct o as [[v|e]|n]; unfold run_job, on_loaded, on_load_failed in E;
        revert E; run_binds; simpl; intros E;
        (destruct (decide (id = id')) as [->|Hne];
          [by rewrite lookup_delete_eq in E
          |by rewrite lookup_delete_ne in E]). }
    destruct Hid as [Hne Hu].
    apply (handled_grows (set_jobs (λ _, q) s)); [apply grows_run_job|].
    apply Hrest; [done|]. intros o0 [= ? ?]. by destruct Hne.
  - by apply Handled_fetchGroups.
  - apply Handled_onSubscriptionUpdated. by apply (Handled_same s).
  - by apply (Handled_same s).
  - destruct (calls s !! k); [|done].
    eapply Handled_grows; [apply grows_settle| |done].
    by rewrite (keeps_settle updates) by apply off_heap_updates.
  - destruct (jobs s) eqn:Ej; [|done].
    destruct (pop_due (now s) (timers s)) as [[tm rest]|]; [|done].
    eapply Handled_grows; [apply grows_resolve| |by apply (Handled_same s)].
    by rewrite (keeps_resolve updates) by apply off_heap_updates.
  - case_decide; [|done]. by apply (Handled_same s).
Qed.

Lemma reachable_Handled s : reachable s → Handled s.
Proof.
  intros (subs & l & t0 & evs & ->).
  assert (H0 : Handled (constructor subs l t0)).
  { apply Handled_onSubscriptionUpdated. by intros id u E. }
  revert H0. generalize (constructor subs l t0).
  induction evs as [|e evs IH]; intros s H; [done|].
  apply (IH (step e s)), Handled_step, H.
Qed.

(** A settled refresh that is still the entry of [updates] has its
    completion handler in the microtask queue. *)
Lemma settled_refresh_queued s id u o :
  reachable s → updates s !! id = Some u → settled s u o →
  JReact (RDone id u) o ∈ jobs s.
Proof.
  intros Hr Hu Hs. destruct (reachable_Coherent _ Hr) as (ρ & [[HS _] _]).
  destruct (reachable_Handled _ Hr id u Hu) as [(rs & E & _)|(o' & Hj)].
  - unfold settled in Hs. congruence.
  - destruct (safe_job _ _ HS _ Hj) as (x & Hx & <- & _).
    by rewrite (settled_inj _ _ _ _ Hs Hx).
Qed.

Lemma updateGroups_many_calls c cs sub s :
  calls (updateGroups_many (c :: cs) sub s) = calls (updateGroups c sub s).2 ∧
  updates (updateGroups_many (c :: cs) sub s) = updates (updateGroups c sub s).2.
Proof.
  change (updateGroups_many (c :: cs) sub s)
    with (updateGroups_many cs sub (updateGroups c sub s).2).
  apply updateGroups_many_found, updateGroups_found.
Qed.

(** C1. [updates] holds one refresh per subscription id.  A call of
    [updateGroups] starts a remote listing only if the read of [updates]
    under the id finds nothing; after the call the read finds a value, the
    refresh [u] stored under the id unless the id is an inherited name, and
    every further call for that id, in the same turn or at any later point
    while [u] has not settled, finds it and starts no listing, so the calls
    made for the id stay the same.  At no point do two unsettled remote
    calls belong to one subscription id. *)
Theorem refresh_is_deduplicated s0 credentials subscription others evs :
  reachable s0 →
  let id := sub_id subscription in
  let s := (updateGroups credentials subscription s0).2 in
  calls s = calls s0 ++
    match get (updates s0) id with
    | Some _ => []
    | None => [{| call_credentials := credentials;
                  call_subscription := id;
                  call_promise := length (heap s0) |}]
    end ∧
  (∀ u, updates s0 !! id = Some u → updates s = updates s0) ∧
  is_Some (get (updates s) id) ∧
  (id ∉ Object_prototype → is_Some (updates s !! id)) ∧
  calls (updateGroups_many others subscription s) = calls s ∧
  updates (updateGroups_many others subscription s) = updates s ∧
  (∀ u, updates s !! id = Some u → pending (run evs s) u →
     calls_for id (run evs s) = calls_for id s ∧
     updates (run evs s) !! id = Some u) ∧
  (∀ i j k k',
     calls (run evs s) !! i = Some k → calls (run evs s) !! j = Some k' →
     call_subscription k = call_subscription k' →
     pending (run evs s) (call_promise k) →
     pending (run evs s) (call_promise k') → i = j).
Proof.
  intros Hr id s. destruct (reachable_Coherent _ Hr) as [ρ0 HC0].
  destruct (updateGroups_Coherent ρ0 s0 credentials subscription HC0)
    as (ρ1 & HC1 & _).
  pose proof (updateGroups_calls_updates s0 credentials subscription) as Hcu.
  pose proof (updateGroups_found s0 credentials subscription) as Hfound.
  fold id s in Hcu, HC1, Hfound.
  split; [|split; [|split; [|split]]].
  - destruct (get (updates s0) id); destruct Hcu as [-> _]; [|done].
    by rewrite app_nil_r.
  - intros u0 E. rewrite (get_Some _ _ _ E) in Hcu. by destruct Hcu.
  - done.
  - intros Hid. rewrite get_own in Hfound by done.
    by apply fmap_is_Some in Hfound.
  - destruct (updateGroups_many_found others subscription s Hfound)
      as [Hc Hupd].
    split; [done|]. split; [done|]. split.
    + intros u Hu. by apply (run_in_flight _ _ _ _ _ HC1).
    + destruct (Coherent_run _ _ evs HC1) as [ρ2 HC2].
      intros i j k k'. by apply (one_call_in_flight _ _ _ _ _ _ HC2).
Qed.

Lemma refresh_is_deduplicated_witness :
  let s := (updateGroups creds1 sub1 warm_cache).2 in
  let evs := [EvFetch; EvJob; EvNotify [sub1]; EvFetch; EvJob] in
  length (calls s) = S (length (calls warm_cache)) ∧
  calls (updateGroups_many [creds1; creds1; creds1] sub1 s) = calls s ∧
  calls_for "sub-1" (run evs s) = calls_for "sub-1" s.
Proof.
  intros s evs.
  destruct (refresh_is_deduplicated warm_cache creds1 sub1
              [creds1; creds1; creds1] evs warm_cache_reachable)
    as (Hfirst & _ & _ & _ & Hmany & _ & Hlater & _).
  split; [|split].
  - fold s in Hfirst. rewrite Hfirst. vm_compute. reflexivity.
  - exact Hmany.
  - destruct (Hlater 4) as [Hl _]; [vm_compute; reflexivity| |exact Hl].
    eexists. vm_compute. reflexivity.
Defined.

(** ** The failure handler *)

Lemma failure_handler_run s id u e q :
  jobs s = JReact (RDone id u) (Rejected e) :: q →
  step EvJob s =
    set_console (λ l, l ++ [e]) (set_updates (delete id) (set_jobs (λ _, q) s)).
Proof.
  intros Ej. unfold step. rewrite Ej. unfold run_job, on_load_failed.
  by run_binds.
Qed.

(** An entry of [updates] goes away only when its completion handler
    runs. *)
Lemma updates_step ρ e s id u :
  Dedup ρ s →
  updates s !! id = Some u → updates (step e s) !! id ≠ Some u →
  e = EvJob ∧ ∃ o q, jobs s = JReact (RDone id u) o :: q.
Proof.
  intros HD Hu Hne.
  assert (Hsome : is_Some (updates s !! id)) by eauto.
  destruct e as [| |subs|l|k o| |dt]; simpl in Hne.
  - split; [done|]. destruct (jobs s) as [|j q] eqn:Ej; [done|].
    destruct j as [[d|d c|id' u'] o|d c];
      try (rewrite updates_run_job_other in Hne by (by intros ???); done).
    assert (Hu' : updates s !! id' = Some u').
    { apply (dd_job _ _ HD 0 id' u' o). by rewrite Ej. }
    destruct (decide (id' = id)) as [->|Hid].
    + assert (u' = u) as -> by congruence. eauto.
    + exfalso. apply Hne.
      destruct o as [[v|e]|n]; unfold run_job, on_loaded, on_load_failed;
        run_binds; simpl; by rewrite lookup_delete_ne.
  - destruct (calls_for_fetchGroups s id Hsome) as [_ E]. congruence.
  - destruct (calls_for_onSubscriptionUpdated (set_subscriptions subs s) id Hsome)
      as [_ E]. simpl in E. congruence.
  - done.
  - destruct (calls s !! k); [|done].
    by rewrite (keeps_settle updates) in Hne by apply off_heap_updates.
  - destruct (jobs s); [|done].
    destruct (pop_due (now s) (timers s)) as [[tm rest]|]; [|done].
    by rewrite (keeps_resolve updates) in Hne by apply off_heap_updates.
  - by case_decide.
Qed.

Lemma current_run_job_other j :
  (∀ id u o, j ≠ JReact (RDone id u) o) → keeps current (run_job j).
Proof.
  intros Hj. destruct j as [[d|d c|id u] o|d c];
    [| |by destruct (Hj id u o)|]; try destruct o as [[v|e]|n]; simpl;
    keeps_tac.
Qed.

(** A microtask that is not a completion handler for [id] leaves the
    entries of [current] and [updates] for [id] alone. *)
Lemma job_step_other s id :
  (∀ u o q, jobs s ≠ JReact (RDone id u) o :: q) →
  current (step EvJob s) !! id = current s !! id ∧
  updates (step EvJob s) !! id = updates s !! id.
Proof.
  intros Hne. unfold step. destruct (jobs s) as [|j q] eqn:Ej; [done|].
  destruct j as [[d|d c|id' u'] o|d c].
  1,2,4: by rewrite updates_run_job_other, current_run_job_other
           by (by intros ???).
  assert (id' ≠ id) by (intros ->; by destruct (Hne u' o q)).
  destruct o as [[v|e]|n]; unfold run_job, on_loaded, on_load_failed;
    run_binds; simpl; by rewrite ?lookup_insert_ne, ?lookup_delete_ne.
Qed.

Lemma no_entry_jobs ρ s id n :
  Coherent ρ s → updates s !! id = None →
  current (run (repeat EvJob n) s) !! id = current s !! id ∧
  updates (run (repeat EvJob n) s) !! id = None.
Proof.
  revert ρ s. induction n as [|n IH]; intros ρ s HC Hu; [done|].
  change (run (repeat EvJob (S n)) s)
    with (run (repeat EvJob n) (step EvJob s)).
  destruct (job_step_other s id) as [Hc Hu1].
  { intros u o q Ej. destruct HC as [_ HD].
    assert (updates s !! id = Some u); [|congruence].
    apply (dd_job _ _ HD 0 id u o). by rewrite Ej. }
  destruct (Coherent_step _ _ EvJob HC) as [ρ1 HC1].
  destruct (IH _ _ HC1) as [Hc2 Hu2]; [congruence|].
  split; [congruence|done].
Qed.

(** Once the failure handler of the refresh of [id] is queued, running the
    microtasks removes the entry of [updates] for [id] and keeps the cached
    result for [id]. *)
Lemma failed_refresh_jobs ρ s id u e n :
  Coherent ρ s → JReact (RDone id u) (Rejected e) ∈ jobs s →
  current (run (repeat EvJob n) s) !! id = current s !! id ∧
  (JReact (RDone id u) (Rejected e) ∈ jobs (run (repeat EvJob n) s) ∨
   updates (run (repeat EvJob n) s) !! id = None).
Proof.
  revert ρ s. induction n as [|n IH]; intros ρ s HC Hin; [by split; [|left]|].
  change (run (repeat EvJob (S n)) s)
    with (run (repeat EvJob n) (step EvJob s)).
  destruct (Coherent_step _ _ EvJob HC) as [ρ1 HC1].
  destruct (jobs s) as [|j q] eqn:Ej; [by apply elem_of_nil in Hin|].
  apply elem_of_cons in Hin as [Heq|Hin].
  - rewrite <-Heq in Ej. clear Heq.
    assert (Hc : current (step EvJob s) = current s).
    { by rewrite (failure_handler_run s id u e q Ej). }
    assert (Hu : updates (step EvJob s) !! id = None).
    { rewrite (failure_handler_run s id u e q Ej). simpl.
      by rewrite lookup_delete_eq. }
    destruct (no_entry_jobs _ _ id n HC1 Hu) as [Hc2 Hu2].
    split; [congruence|by right].
  - destruct (job_step_other s id) as [Hc Hu1].
    { intros u' o q' Ej'. rewrite Ej in Ej'. injection Ej' as -> ->.
      apply list_elem_of_lookup_1 in Hin as [i Hi].
      destruct HC as [_ HD].
      assert (0 = S i); [|done].
      apply (dd_job_unique _ _ HD 0 (S i) id u' u o (Rejected e));
        by rewrite Ej. }
    destruct (IH _ _ HC1) as [Hc2 Hd].
    + unfold step. rewrite Ej.
      apply (grows_jobs _ _ (grows_run_job j (set_jobs (λ _, q) s))). done.
    + split; [congruence|done].
Qed.

Lemma failed_refresh_drain s id u e :
  reachable s → updates s !! id = Some u → settled s u (Rejected e) →
  updates (drain s) !! id = None ∧
  current (drain s) !! id = current s !! id.
Proof.
  intros Hr Hu Hs. destruct (reachable_Coherent _ Hr) as [ρ HC].
  pose proof (settled_refresh_queued _ _ _ _ Hr Hu Hs) as Hin.
  destruct (failed_refresh_jobs _ _ _ _ _ (measure s) HC Hin) as [Hc Hd].
  fold (drain s) in Hc, Hd. split; [|done].
  destruct Hd as [Hd|Hd]; [|done].
  rewrite (drain_quiescent s) in Hd. by apply elem_of_nil in Hd.
Qed.

Lemma reachable_run evs s : reachable s → reachable (run evs s).
Proof.
  intros (subs & l & t0 & evs0 & ->). exists subs, l, t0, (evs0 ++ evs).
  by rewrite run_app.
Qed.

(** C6. A failed refresh that is still the entry of [updates] has its
    failure handler queued.  When the handler runs it deletes that entry of
    [updates], logs the error and changes nothing else: [current] is as it
    was, for every subscription id.  A step changes [current] only by
    running the success handler of a refresh.  After the microtasks have
    run the entry is gone, the cached result for the id is the one from
    before the failure, and the next [updateGroups] for the id starts a new
    remote call. *)
Theorem failed_refresh_leaves_cache_untouched s id u e :
  reachable s →
  updates s !! id = Some u →
  settled s u (Rejected e) →
  JReact (RDone id u) (Rejected e) ∈ jobs s ∧
  (∀ q, jobs s = JReact (RDone id u) (Rejected e) :: q →
     updates (step EvJob s) = delete id (updates s) ∧
     current (step EvJob s) = current s ∧
     calls (step EvJob s) = calls s ∧
     heap (step EvJob s) = heap s ∧
     console (step EvJob s) = console s ++ [e]) ∧
  (∀ ev, current (step ev s) ≠ current s →
     ∃ id' u' v q, ev = EvJob ∧
       jobs s = JReact (RDone id' u') (Fulfilled v) :: q ∧
       current (step ev s) = <[id':=u']> (current s)) ∧
  (∀ ev, updates (step ev s) !! id ≠ Some u →
     ev = EvJob ∧ ∃ o q, jobs s = JReact (RDone id u) o :: q) ∧
  updates (drain s) !! id = None ∧
  current (drain s) !! id = current s !! id ∧
  (∀ credentials subscription,
     sub_id subscription = id →
     calls (updateGroups credentials subscription (drain s)).2 =
       calls (drain s) ++
         [{| call_credentials := credentials;
             call_subscription := id;
             call_promise := length (heap (drain s)) |}] ∧
     updates (updateGroups credentials subscription (drain s)).2 !! id
       = Some (S (length (heap (drain s))))).
Proof.
  intros Hr Hu Hs. destruct (reachable_Coherent _ Hr) as [ρ [[HS _] HD]].
  destruct (failed_refresh_drain s id u e Hr Hu Hs) as [Hnone Hcur].
  split; [by apply settled_refresh_queued|].
  split; [|split; [|split; [|split; [|split]]]]; try done.
  - intros q Ej. by rewrite (failure_handler_run s id u e q Ej).
  - intros ev Hne.
    destruct (current_step ρ ev s HS Hne)
      as (id' & u' & v & q & -> & Ej & Hc & _).
    by exists id', u', v, q.
  - intros ev. by apply (updates_step ρ).
  - intros credentials subscription <-.
    pose proof (Own_updates _ _ _ (reachable_Own _ Hr) Hu) as Hid.
    pose proof (updateGroups_calls_updates_own (drain s) credentials
                  subscription Hid) as H.
    rewrite Hnone in H. destruct H as [-> ->].
    by rewrite lookup_insert_eq.
Qed.

Lemma failed_refresh_witness :
  let s := run [EvFetch; EvJob; EvSettle 1 (Rejected (ListError "timeout"));
                EvJob; EvJob] warm_cache in
  updates (step EvJob s) = delete "sub-1" (updates s) ∧
  current (step EvJob s) = current s ∧
  updates (drain s) !! "sub-1" = None ∧
  current (drain s) !! "sub-1" = Some 1 ∧
  length (calls (updateGroups creds1 sub1 (drain s)).2) = 3.
Proof.
  intros s.
  destruct (failed_refresh_leaves_cache_untouched s "sub-1" 4
              (ListError "timeout"))
    as (_ & Hh & _ & _ & Hu & Hc & Hn).
  - apply reachable_run, warm_cache_reachable.
  - vm_compute. reflexivity.
  - vm_compute. reflexivity.
  - destruct (Hh [JReact (RCatch 6 1) (Rejected (ListError "timeout"))])
      as (Hu' & Hc' & _); [vm_compute; reflexivity|].
    destruct (Hn creds1 sub1 eq_refl) as [Hcalls _].
    split; [exact Hu'|]. split; [exact Hc'|]. split; [exact Hu|].
    split; [rewrite Hc; vm_compute; reflexivity|].
    rewrite Hcalls. vm_compute. reflexivity.
Defined.

(** ** Where the promises of the maps come from *)

Lemma calm_bind {A B} (m : M A) (k : A → M B) :
  calm m → (∀ x, calm (k x)) → calm (bind m k).
Proof. intros Hm Hk s p Hp. rewrite run_bind. by apply Hk, Hm. Qed.

Lemma calm_new_promise : calm new_promise.
Proof.
  intros s p [rs E]. exists rs. simpl. by apply lookup_app_l_Some.
Qed.

Lemma calm_then q r : calm (then_ q r).
Proof.
  intros s p [rs E]. unfold then_.
  destruct (heap s !! q) as [[rs'|o]|] eqn:Eq; simpl; [|by exists rs..].
  destruct (decide (q = p)) as [->|Hne].
  - exists (rs' ++ [r]). simpl. apply list_lookup_insert_eq.
    eauto using lookup_lt_Some.
  - exists rs. simpl. by rewrite list_lookup_insert_ne.
Qed.

Lemma calm_setTimeout d t c : calm (setTimeout d t c).
Proof. by intros s p Hp. Qed.

Lemma calm_race_with_current u c : calm (race_with_current u c).
Proof.
  unfold race_with_current, timeout_promise, catch_, race.
  destruct u;
    repeat first [apply calm_bind; [|intros ?] | apply calm_new_promise
                 | apply calm_then | apply calm_setTimeout | by intros ??].
Qed.

Lemma pending_wrapper s p j :
  pending s p →
  pending (set_jobs (λ q, q ++ [j]) (set_heap (λ h, h ++ [Pending []]) s)) p.
Proof. intros [rs E]. exists rs. simpl. by apply lookup_app_l_Some. Qed.

Lemma updateGroups_new_call s c sub :
  get (updates s) (sub_id sub) = None →
  pending (updateGroups c sub s).2 (length (heap s)).
Proof.
  intros E.
  assert (Hp : pending (start_update c sub s).2 (length (heap s))).
  { rewrite start_update_run. cbn [snd]. eexists. simpl.
    rewrite lookup_app_r by lia. by rewrite Nat.sub_diag. }
  assert (Hb : pending (updateGroups_body c sub s).2 (length (heap s)) ∧
               ∃ x : nat, (updateGroups_body c sub s).1 = Return x).
  { rewrite (updateGroups_body_start s c sub E).
    destruct (get (current s) (sub_id sub)) as [cur|]; cbn [fst snd].
    - split; [by apply calm_race_with_current|].
      rewrite race_with_current_fst. eauto.
    - eauto. }
  destruct Hb as [Hb [x Hx]].
  rewrite (updateGroups_run s c sub x Hx). cbn [snd].
  by apply pending_wrapper.
Qed.

(** What one call of [updateGroups] does to [calls] and [updates]. *)
Lemma updateGroups_effect s c sub (s' := (updateGroups c sub s).2) :
  (calls s' = calls s ∧ updates s' = updates s) ∨
  (∃ k, calls s' = calls s ++ [k] ∧
        updates s' = <[call_subscription k := S (call_promise k)]> (updates s) ∧
        pending s' (call_promise k) ∧ call_promise k = length (heap s) ∧
        call_subscription k = sub_id sub ∧ call_credentials k = c ∧
        updates s !! sub_id sub = None).
Proof.
  unfold s'. pose proof (updateGroups_calls_updates s c sub) as H.
  destruct (get (updates s) (sub_id sub)) as [u|] eqn:E; [by left|].
  destruct H as [Hc Hu]. right. eexists. split; [exact Hc|]. simpl.
  split; [done|]. split; [by apply updateGroups_new_call|].
  by apply get_None in E as [E _].
Qed.

(** What one step does to [calls] and [updates]. *)
Lemma step_effect e s :
  (calls (step e s) = calls s ∧
   ∀ id u, updates (step e s) !! id = Some u → updates s !! id = Some u) ∨
  (∃ k, calls (step e s) = calls s ++ [k] ∧
        updates (step e s)
          = <[call_subscription k := S (call_promise k)]> (updates s) ∧
        pending (step e s) (call_promise k) ∧
        call_promise k = length (heap s) ∧
        updates s !! call_subscription k = None).
Proof.
  assert (Hug : ∀ s0 c sub s1,
    calls s0 = calls s → updates s0 = updates s → heap s0 = heap s →
    calls s1 = calls (updateGroups c sub s0).2 →
    updates s1 = updates (updateGroups c sub s0).2 →
    (∀ p, pending (updateGroups c sub s0).2 p → pending s1 p) →
    (calls s1 = calls s ∧
     ∀ id u, updates s1 !! id = Some u → updates s !! id = Some u) ∨
    (∃ k, calls s1 = calls s ++ [k] ∧
          updates s1 = <[call_subscription k := S (call_promise k)]> (updates s) ∧
          pending s1 (call_promise k) ∧ call_promise k = length (heap s) ∧
          updates s !! call_subscription k = None)).
  { intros s0 c sub s1 Hc Hu Hh Hc1 Hu1 Hp1.
    destruct (updateGroups_effect s0 c sub)
      as [[Hc' Hu']|(k & Hc' & Hu' & Hp & Hk & Hid & _ & Hn)].
    - left. rewrite Hc1, Hu1, Hc', Hu', Hc, Hu. done.
    - right. exists k. split; [by rewrite Hc1, Hc', Hc|].
      split; [by rewrite Hu1, Hu', Hu|]. split; [by apply Hp1|].
      split; [by rewrite Hk, Hh|]. by rewrite Hid, <-Hu. }
  destruct e as [| |subs|l|k o| |dt]; simpl.
  - destruct (jobs s) as [|j q] eqn:Ej; [by left|]. left.
    rewrite (calls_run_job j (set_jobs (λ _, q) s)). split; [done|].
    intros id u. destruct j as [[d|d c|id' u'] o|d c];
      try (by rewrite updates_run_job_other by (by intros ???)).
    destruct o as [[v|e]|n]; unfold run_job, on_loaded, on_load_failed;
      run_binds; simpl; intros E; apply lookup_delete_Some in E; tauto.
  - destruct (defaultSubscription s) as [sub|] eqn:Hd.
    + destruct (login s !! tenantId sub) as [c|] eqn:Hl.
      * rewrite (fetchGroups_delegates s sub c Hd Hl). cbn [snd].
        apply (Hug (set_lookups (λ l, l ++ [tenantId sub]) s) c sub);
          try done.
        intros p. apply pending_wrapper.
      * left. by rewrite (fetchGroups_no_credentials s sub Hd Hl).
    + left. by rewrite (fetchGroups_no_default s Hd).
  - rewrite onSubscriptionUpdated_run. case_decide; [by left|]. cbn zeta.
    simpl. destruct (find isDefault subs) as [sub|]; [|by left].
    destruct (login s !! tenantId sub) as [c|]; [|by left]. cbn [snd].
    by apply (Hug (set_lookups (λ l, l ++ [tenantId sub])
                    (set_defaultSubscription (Some sub)
                       (set_subscriptions subs s))) c sub).
  - by left.
  - left. destruct (calls s !! k); [|done].
    by rewrite (keeps_settle calls), (keeps_settle updates)
      by auto using off_heap_calls, off_heap_updates.
  - left. destruct (jobs s); [|done].
    destruct (pop_due (now s) (timers s)) as [[tm rest]|]; [|done].
    by rewrite (keeps_resolve calls), (keeps_resolve updates)
      by auto using off_heap_calls, off_heap_updates.
  - left. by case_decide.
Qed.

Lemma calls_step e s i k :
  calls s !! i = Some k → calls (step e s) !! i = Some k.
Proof.
  intros Hi. destruct (step_effect e s) as [[-> _]|(k' & -> & _)]; [done|].
  by apply lookup_app_l_Some.
Qed.

Lemma calls_run evs s i k :
  calls s !! i = Some k → calls (run evs s) !! i = Some k.
Proof.
  revert s. induction evs as [|e evs IH]; intros s Hi; [done|].
  apply (IH (step e s)), calls_step, Hi.
Qed.

Lemma refresh_of_step e s id u : refresh_of s id u → refresh_of (step e s) id u.
Proof.
  intros (i & k & Hi & Hid & Hu). exists i, k. eauto using calls_step.
Qed.

Lemma console_fetchGroups : keeps console fetchGroups.
Proof. keeps_tac. Qed.

Lemma console_onSubscriptionUpdated : keeps console onSubscriptionUpdated.
Proof. keeps_tac. Qed.

(** Only the failure handler of a refresh writes to the console. *)
Lemma console_step e s :
  console (step e s) = console s ∨
  ∃ id u err q, e = EvJob ∧
    jobs s = JReact (RDone id u) (Rejected err) :: q ∧
    console (step e s) = console s ++ [err].
Proof.
  destruct e as [| |subs|l|k o| |dt]; simpl.
  - destruct (jobs s) as [|j q]; [by left|].
    destruct j as [[d|d c|id u] [[v|e]|n]|d c]; simpl;
      try (left; by rewrite ?(keeps_settle console), ?(keeps_then console),
                ?(keeps_enqueue console), ?(keeps_resolve console)
             by apply off_heap_console).
    right. by exists id, u, e, q.
  - left. by rewrite console_fetchGroups.
  - left. by rewrite console_onSubscriptionUpdated.
  - by left.
  - left. destruct (calls s !! k); [|done].
    by rewrite (keeps_settle console) by apply off_heap_console.
  - left. destruct (jobs s); [|done].
    destruct (pop_due (now s) (timers s)) as [[tm rest]|]; [|done].
    by rewrite (keeps_resolve console) by apply off_heap_console.
  - left. by case_decide.
Qed.

Lemma Loaded_step ρ ρ' s e :
  Loaded ρ s → Coherent (ρ ++ ρ') (step e s) → Loaded (ρ ++ ρ') (step e s).
Proof.
  intros HL [_ HD] k Hk.
  destruct (step_effect e s) as [[Hc _]|(k' & Hc & Hu & Hp & _)];
    rewrite Hc in Hk.
  - apply lookup_app_l_Some. by apply HL.
  - apply elem_of_app in Hk as [Hk|Hk].
    + apply lookup_app_l_Some. by apply HL.
    + apply list_elem_of_singleton in Hk as ->.
      destruct (dd_call _ _ HD k') as (u & Hu' & Hw); [|done|].
      { rewrite Hc. apply elem_of_app. right. by apply list_elem_of_singleton. }
      rewrite Hu, lookup_insert_eq in Hu'. by injection Hu' as <-.
Qed.

Lemma Prov_step ρ s e : Coherent ρ s → Prov s → Prov (step e s).
Proof.
  intros [[HS _] HD] [Hu Hc Hk]. split.
  - intros id u E.
    destruct (step_effect e s) as [[_ Hold]|(k & Hcalls & Hupd & _ & _)].
    + apply refresh_of_step. eauto.
    + rewrite Hupd in E.
      destruct (decide (call_subscription k = id)) as [<-|Hne].
      * rewrite lookup_insert_eq in E. injection E as <-.
        exists (length (calls s)), k. split; [|done].
        rewrite Hcalls. by apply list_lookup_middle.
      * rewrite lookup_insert_ne in E by done. apply refresh_of_step; eauto.
  - intros id c E.
    destruct (decide (current (step e s) = current s)) as [Heq|Hne].
    + rewrite Heq in E. apply refresh_of_step; eauto.
    + destruct (current_step ρ e s HS Hne)
        as (id' & u & v & q & -> & Ej & Hcur & _).
      rewrite Hcur in E. destruct (decide (id' = id)) as [->|Hid].
      * rewrite lookup_insert_eq in E. injection E as <-.
        apply refresh_of_step, Hu.
        apply (dd_job _ _ HD 0 id u (Fulfilled v)). by rewrite Ej.
      * rewrite lookup_insert_ne in E by done. apply refresh_of_step; eauto.
  - intros err Hin.
    assert (Hold : ∀ err, err ∈ console s →
              ∃ i k, calls (step e s) !! i = Some k ∧
                     settled (step e s) (S (call_promise k)) (Rejected err)).
    { intros err0 H0. destruct (Hk _ H0) as (i & k & Hi & Hs). exists i, k.
      split; [by apply calls_step|by apply (step_evolves e s)]. }
    destruct (console_step e s) as [Heq|(id & u & err' & q & -> & Ej & Hcon)].
    + rewrite Heq in Hin. eauto.
    + rewrite Hcon in Hin. apply elem_of_app in Hin as [Hin|Hin]; [eauto|].
      apply list_elem_of_singleton in Hin as ->.
      assert (Hupd : updates s !! id = Some u).
      { apply (dd_job _ _ HD 0 id u (Rejected err')). by rewrite Ej. }
      destruct (Hu _ _ Hupd) as (i & k & Hi & _ & ->).
      exists i, k. split; [by apply calls_step|].
      apply (step_evolves EvJob s).
      destruct (safe_job _ _ HS (JReact (RDone id (S (call_promise k)))
                                   (Rejected err')))
        as (x & Hx & <- & _); [|done].
      rewrite Ej. apply elem_of_cons. by left.
Qed.

Lemma Traced_step e s : Traced s → Traced (step e s).
Proof.
  intros (ρ & HC & HL & HP). destruct (Coherent_step _ _ e HC) as [ρ' HC'].
  exists (ρ ++ ρ'). split; [done|].
  split; [by apply Loaded_step|by apply (Prov_step ρ)].
Qed.

Lemma Traced_run evs s : Traced s → Traced (run evs s).
Proof.
  revert s. induction evs as [|e evs IH]; intros s H; [done|].
  apply (IH (step e s)), Traced_step, H.
Qed.

Lemma Traced_empty subs l t0 : Traced (empty_state subs l t0).
Proof.
  exists []. split; [apply Coherent_empty|]. split.
  - intros k Hk. by apply elem_of_nil in Hk.
  - split; simpl; intros ?; try done. intros H. by apply elem_of_nil in H.
Qed.

Lemma reachable_Traced s : reachable s → Traced s.
Proof.
  intros (subs & l & t0 & evs & ->). apply Traced_run.
  pose proof (Traced_step (EvNotify subs) _ (Traced_empty subs l t0)) as H.
  simpl in H. unfold constructor.
  by replace (set_subscriptions subs (empty_state subs l t0))
    with (empty_state subs l t0) in H.
Qed.

(** The promise of [loadGroups] settles only as its remote call did. *)
Lemma refresh_sound s i k o :
  reachable s → calls s !! i = Some k →
  settled s (S (call_promise k)) o → settled s (call_promise k) o.
Proof.
  intros Hr Hi Ho. destruct (reachable_Traced _ Hr) as (ρ & [HI _] & HL & _).
  eapply wrap_sound; [exact HI| |exact Ho].
  apply HL. by eapply list_elem_of_lookup_2.
Qed.

Lemma refresh_complete s i k o :
  reachable s → calls s !! i = Some k → quiescent s →
  settled s (call_promise k) o → settled s (S (call_promise k)) o.
Proof.
  intros Hr Hi Hq Ho. destruct (reachable_Traced _ Hr) as (ρ & [HI _] & HL & _).
  assert (Hw : ρ !! S (call_promise k) = Some (Wrap (call_promise k))).
  { apply HL. by eapply list_elem_of_lookup_2. }
  assert (Hlt : S (call_promise k) < length (heap s)).
  { destruct HI as [HS _]. eapply role_allocated; eauto. }
  destruct (pending_or_settled _ _ Hlt) as [Hp|[o' Ho']].
  - exfalso. eapply pending_not_settled; [|exact Ho].
    eapply wrap_complete; eauto.
  - pose proof (wrap_sound _ _ _ _ _ HI Hw Ho') as Ho2.
    by rewrite (settled_inj _ _ _ _ Ho Ho2).
Qed.

(** ** The success handler *)

Lemma success_handler_run s id u v q :
  jobs s = JReact (RDone id u) (Fulfilled v) :: q →
  step EvJob s =
    set_current (λ m, <[id := u]> m)
      (set_updates (delete id) (set_jobs (λ _, q) s)).
Proof.
  intros Ej. unfold step. rewrite Ej. unfold run_job, on_loaded. by run_binds.
Qed.

Lemma succeeded_refresh_jobs ρ s id u v n :
  Coherent ρ s → JReact (RDone id u) (Fulfilled v) ∈ jobs s →
  JReact (RDone id u) (Fulfilled v) ∈ jobs (run (repeat EvJob n) s) ∨
  (updates (run (repeat EvJob n) s) !! id = None ∧
   current (run (repeat EvJob n) s) !! id = Some u).
Proof.
  revert ρ s. induction n as [|n IH]; intros ρ s HC Hin; [by left|].
  change (run (repeat EvJob (S n)) s)
    with (run (repeat EvJob n) (step EvJob s)).
  destruct (Coherent_step _ _ EvJob HC) as [ρ1 HC1].
  destruct (jobs s) as [|j q] eqn:Ej; [by apply elem_of_nil in Hin|].
  apply elem_of_cons in Hin as [Heq|Hin].
  - rewrite <-Heq in Ej. clear Heq. right.
    assert (Hc : current (step EvJob s) !! id = Some u).
    { rewrite (success_handler_run s id u v q Ej). simpl.
      by rewrite lookup_insert_eq. }
    assert (Hu : updates (step EvJob s) !! id = None).
    { rewrite (success_handler_run s id u v q Ej). simpl.
      by rewrite lookup_delete_eq. }
    destruct (no_entry_jobs _ _ id n HC1 Hu) as [Hc2 Hu2].
    split; [done|congruence].
  - apply (IH _ _ HC1). unfold step. rewrite Ej.
    by apply (grows_jobs _ _ (grows_run_job j (set_jobs (λ _, q) s))).
Qed.

(** ** The cache only moves forward *)

Lemma Ordered_step ρ s e : Coherent ρ s → Ordered s → Ordered (step e s).
Proof.
  intros [[HS _] HD] HO id c u Ec Eu.
  destruct (decide (current (step e s) = current s)) as [Heq|Hne].
  - rewrite Heq in Ec.
    destruct (step_effect e s) as [[_ Hold]|(k & _ & Hupd & _ & Hk & _)].
    + eauto.
    + rewrite Hupd in Eu.
      destruct (decide (call_subscription k = id)) as [<-|Hid].
      * rewrite lookup_insert_eq in Eu. injection Eu as <-. rewrite Hk.
        pose proof (fulfilled_lt _ _ (safe_current _ _ HS _ _ Ec)). lia.
      * rewrite lookup_insert_ne in Eu by done. eauto.
  - destruct (current_step ρ e s HS Hne) as (id' & u' & v & q & -> & Ej & Hcur & Hupd).
    rewrite Hcur in Ec. rewrite Hupd in Eu.
    destruct (decide (id' = id)) as [->|Hid].
    + by rewrite lookup_delete_eq in Eu.
    + rewrite lookup_insert_ne in Ec by done.
      rewrite lookup_delete_ne in Eu by done. eauto.
Qed.

Lemma current_step_mono ρ s e id c :
  Coherent ρ s → Ordered s → current s !! id = Some c →
  ∃ c1, current (step e s) !! id = Some c1 ∧ c ≤ c1.
Proof.
  intros [[HS _] HD] HO Ec.
  destruct (decide (current (step e s) = current s)) as [Heq|Hne].
  - exists c. by rewrite Heq.
  - destruct (current_step ρ e s HS Hne) as (id' & u' & v & q & -> & Ej & Hcur & _).
    rewrite Hcur. destruct (decide (id' = id)) as [->|Hid].
    + exists u'. rewrite lookup_insert_eq. split; [done|].
      assert (updates s !! id = Some u').
      { apply (dd_job _ _ HD 0 id u' (Fulfilled v)). by rewrite Ej. }
      pose proof (HO _ _ _ Ec H). lia.
    + exists c. by rewrite lookup_insert_ne.
Qed.

Lemma current_run_mono ρ s evs id c :
  Coherent ρ s → Ordered s → current s !! id = Some c →
  ∃ c1, current (run evs s) !! id = Some c1 ∧ c ≤ c1.
Proof.
  revert ρ s c. induction evs as [|e evs IH]; intros ρ s c HC HO Ec.
  { by exists c. }
  destruct (current_step_mono _ _ e _ _ HC HO Ec) as (c1 & E1 & Hle).
  destruct (Coherent_step _ _ e HC) as [ρ1 HC1].
  destruct (IH _ _ _ HC1 (Ordered_step _ _ e HC HO) E1) as (c2 & E2 & Hle2).
  exists c2. split; [done|lia].
Qed.

Lemma reachable_Ordered s : reachable s → Ordered s.
Proof.
  intros (subs & l & t0 & evs & ->).
  assert (H0 : ∃ ρ, Coherent ρ (constructor subs l t0) ∧
                    Ordered (constructor subs l t0)).
  { destruct (Coherent_step _ _ (EvNotify subs) (Coherent_empty subs l t0))
      as [ρ HC].
    exists ([] ++ ρ). split; [exact HC|].
    apply (Ordered_step _ _ (EvNotify subs) (Coherent_empty subs l t0)).
    by intros id c u E. }
  revert H0. generalize (constructor subs l t0).
  induction evs as [|e evs IH]; intros s (ρ & HC & HO); [done|].
  apply (IH (step e s)). destruct (Coherent_step _ _ e HC) as [ρ1 HC1].
  exists (ρ ++ ρ1). split; [done|]. by apply (Ordered_step ρ).
Qed.

(** X1. [loadGroups] (lines 82-86) makes one remote call, with the
    credentials and the subscription id it was given, and returns a new
    promise; in every reachable state that promise is settled only with the
    outcome of its remote call, fulfilled or rejected, and it is settled with
    it once the call has settled and the microtasks have run. *)
Theorem loadGroups_forwards_the_listing s i k o :
  reachable s → calls s !! i = Some k →
  (∀ s0 c sub,
     (loadGroups c sub s0).1 = S (length (heap s0)) ∧
     calls (loadGroups c sub s0).2 =
       calls s0 ++ [{| call_credentials := c;
                       call_subscription := sub_id sub;
                       call_promise := length (heap s0) |}]) ∧
  (settled s (S (call_promise k)) o → settled s (call_promise k) o) ∧
  (settled s (call_promise k) o → settled (drain s) (S (call_promise k)) o).
Proof.
  intros Hr Hi. split; [|split].
  - intros s0 c sub. unfold loadGroups, resourceGroups_list. run_binds.
    unfold new_promise. cbn [fst snd heap set_calls set_heap].
    rewrite length_app. cbn [length]. rewrite Nat.add_1_r.
    split; [done|]. by rewrite (keeps_then calls) by apply off_heap_calls.
  - by apply (refresh_sound s i).
  - intros Ho. apply (refresh_complete (drain s) i).
    + by apply reachable_run.
    + by apply calls_run.
    + apply drain_quiescent.
    + by apply settled_run.
Qed.

Lemma loadGroups_forwards_witness :
  settled (drain (run [EvJob; EvSettle 0 (Rejected (ListError "timeout"))]
                   fresh_cache)) 1
    (Rejected (ListError "timeout")).
Proof.
  destruct (loadGroups_forwards_the_listing
              (run [EvJob; EvSettle 0 (Rejected (ListError "timeout"))]
                 fresh_cache) 0
              {| call_credentials := creds1; call_subscription := "sub-1";
                 call_promise := 0 |}
              (Rejected (ListError "timeout"))) as (_ & _ & H).
  - apply reachable_run, fresh_cache_reachable.
  - vm_compute. reflexivity.
  - apply H. vm_compute. reflexivity.
Defined.

(** X2. The success handler of lines 66-68.  A fulfilled refresh that is
    still the entry of [updates] has its handler queued; when the handler
    runs it deletes the entry and stores the refresh in [current], and
    nothing else changes; once the microtasks have run the refresh is the
    cached result of its subscription id and no refresh is in flight for
    it. *)
Theorem fulfilled_refresh_becomes_cached s id u v :
  reachable s →
  updates s !! id = Some u →
  settled s u (Fulfilled v) →
  JReact (RDone id u) (Fulfilled v) ∈ jobs s ∧
  (∀ q, jobs s = JReact (RDone id u) (Fulfilled v) :: q →
     updates (step EvJob s) = delete id (updates s) ∧
     current (step EvJob s) = <[id := u]> (current s) ∧
     calls (step EvJob s) = calls s ∧
     heap (step EvJob s) = heap s ∧
     timers (step EvJob s) = timers s ∧
     console (step EvJob s) = console s) ∧
  updates (drain s) !! id = None ∧
  current (drain s) !! id = Some u ∧
  settled (drain s) u (Fulfilled v).
Proof.
  intros Hr Hu Hs. destruct (reachable_Coherent _ Hr) as [ρ HC].
  pose proof (settled_refresh_queued _ _ _ _ Hr Hu Hs) as Hin.
  split; [done|]. split.
  { intros q Ej. by rewrite (success_handler_run s id u v q Ej). }
  destruct (succeeded_refresh_jobs _ _ _ _ _ (measure s) HC Hin) as [Hd|[? ?]].
  - fold (drain s) in Hd. rewrite (drain_quiescent s) in Hd.
    by apply elem_of_nil in Hd.
  - split; [done|]. split; [done|]. by apply settled_run.
Qed.

Lemma fulfilled_refresh_witness :
  let s := run [EvJob; EvSettle 0 (Fulfilled groups1); EvJob] fresh_cache in
  current s !! "sub-1" = None ∧
  current (drain s) !! "sub-1" = Some 1 ∧
  updates (drain s) !! "sub-1" = None.
Proof.
  intros s.
  destruct (fulfilled_refresh_becomes_cached s "sub-1" 1 groups1)
    as (_ & _ & Hu & Hc & _).
  - apply reachable_run, fresh_cache_reachable.
  - vm_compute. reflexivity.
  - vm_compute. reflexivity.
  - split; [vm_compute; reflexivity|]. split; [exact Hc|exact Hu].
Defined.

Lemma current_provenance s id c :
  reachable s →
  current s !! id = Some c →
  ∃ i k v,
    calls s !! i = Some k ∧ call_subscription k = id ∧
    c = S (call_promise k) ∧
    settled s (call_promise k) (Fulfilled v) ∧
    settled s c (Fulfilled v).
Proof.
  intros Hr Ec. destruct (reachable_Traced _ Hr) as (ρ & [[HS _] _] & _ & HP).
  destruct (prov_current _ HP _ _ Ec) as (i & k & Hi & Hid & ->).
  destruct (safe_current _ _ HS _ _ Ec) as [v Hv].
  exists i, k, v. split; [done|]. split; [done|]. split; [done|].
  split; [|done]. by apply (refresh_sound s i).
Qed.

(** X3. Whatever [current] holds for a subscription id is the promise
    [loadGroups] made for a remote listing of that very subscription id, and
    it is fulfilled with the groups that listing returned: the cache never
    holds groups listed for another subscription, nor anything a remote call
    did not return. *)
Theorem cached_groups_come_from_a_listing_of_that_subscription s id c :
  reachable s →
  current s !! id = Some c →
  ∃ i k v,
    calls s !! i = Some k ∧ call_subscription k = id ∧
    c = S (call_promise k) ∧
    settled s (call_promise k) (Fulfilled v) ∧
    settled s c (Fulfilled v).
Proof.
  intros Hr Ec. destruct (reachable_Traced _ Hr) as (ρ & [[HS _] _] & _ & HP).
  destruct (prov_current _ HP _ _ Ec) as (i & k & Hi & Hid & ->).
  destruct (safe_current _ _ HS _ _ Ec) as [v Hv].
  exists i, k, v. split; [done|]. split; [done|]. split; [done|].
  split; [|done]. by apply (refresh_sound s i).
Qed.

Lemma cached_groups_witness :
  ∃ i k v,
    calls warm_cache !! i = Some k ∧ call_subscription k = "sub-1" ∧
    1 = S (call_promise k) ∧
    settled warm_cache (call_promise k) (Fulfilled v) ∧
    settled warm_cache 1 (Fulfilled v).
Proof.
  apply (cached_groups_come_from_a_listing_of_that_subscription
           warm_cache "sub-1" 1 warm_cache_reachable).
  vm_compute. reflexivity.
Defined.

(** X4. The console (line 71) holds the errors remote listings were
    rejected with, and nothing else: in a reachable state every line is the
    error of a rejected remote call; in any state a step adds a line only by
    running the failure handler of a refresh, and [fetchGroups] logs
    nothing, not even when it fails for want of a login. *)
Theorem console_holds_failed_listings_only s :
  (reachable s → ∀ e, e ∈ console s →
     ∃ i k, calls s !! i = Some k ∧
            settled s (call_promise k) (Rejected e)) ∧
  (∀ ev, console (step ev s) = console s ∨
         ∃ id u err q, ev = EvJob ∧
           jobs s = JReact (RDone id u) (Rejected err) :: q ∧
           console (step ev s) = console s ++ [err]) ∧
  console (fetchGroups s).2 = console s.
Proof.
  split; [|split].
  - intros Hr e Hin. destruct (reachable_Traced _ Hr) as (ρ & _ & _ & HP).
    destruct (prov_console _ HP _ Hin) as (i & k & Hi & Hs).
    exists i, k. split; [done|]. by apply (refresh_sound s i).
  - intros ev. apply console_step.
  - apply console_fetchGroups.
Qed.

Lemma console_witness :
  let s := run [EvFetch; EvJob; EvSettle 1 (Rejected (ListError "timeout"));
                EvJob; EvJob; EvJob] warm_cache in
  console s = [ListError "timeout"] ∧
  ∃ i k, calls s !! i = Some k ∧
         settled s (call_promise k) (Rejected (ListError "timeout")).
Proof.
  intros s. split; [vm_compute; reflexivity|].
  destruct (console_holds_failed_listings_only s) as (H & _).
  apply H.
  - apply reachable_run, warm_cache_reachable.
  - vm_compute. apply elem_of_cons. by left.
Defined.

(** X5. The cache is never emptied and never goes back: once [current] has
    a result for a subscription id it has one after every run of events, and
    the promise it holds then is the same or one made later, by a refresh
    that was started after the cached one. *)
Theorem cached_result_is_only_replaced_by_a_later_refresh s evs id c :
  reachable s →
  current s !! id = Some c →
  ∃ c', current (run evs s) !! id = Some c' ∧ c ≤ c' ∧
        (c' ≠ c → ∃ i k, calls (run evs s) !! i = Some k ∧
                         call_subscription k = id ∧
                         c' = S (call_promise k) ∧ c < call_promise k).
Proof.
  intros Hr Ec. destruct (reachable_Coherent _ Hr) as [ρ HC].
  destruct (current_run_mono _ _ evs _ _ HC (reachable_Ordered _ Hr) Ec)
    as (c' & Ec' & Hle).
  exists c'. split; [done|]. split; [done|]. intros Hne.
  destruct (reachable_Traced _ (reachable_run evs _ Hr))
    as (ρ' & [[HS _] _] & HL & HP).
  destruct (prov_current _ HP _ _ Ec') as (i & k & Hi & Hid & ->).
  exists i, k. split; [done|]. split; [done|]. split; [done|].
  destruct (reachable_Traced _ Hr) as (ρ0 & _ & _ & HP0).
  destruct (prov_current _ HP0 _ _ Ec) as (i0 & k0 & Hi0 & _ & ->).
  assert (call_promise k ≠ S (call_promise k0)); [|lia].
  intros Heq.
  pose proof (safe_calls _ _ HS k (list_elem_of_lookup_2 _ _ _ Hi)) as Hk.
  pose proof (HL k0 (list_elem_of_lookup_2 _ _ _ (calls_run evs _ _ _ Hi0)))
    as Hk0.
  congruence.
Qed.

Lemma cached_result_replaced_witness :
  let evs := [EvFetch; EvJob; EvSettle 1 (Fulfilled groups2);
              EvJob; EvJob; EvJob; EvJob; EvJob] in
  ∃ c', current (run evs warm_cache) !! "sub-1" = Some c' ∧ 1 ≤ c'.
Proof.
  intros evs.
  destruct (cached_result_is_only_replaced_by_a_later_refresh
              warm_cache evs "sub-1" 1 warm_cache_reachable)
    as (c' & Hc & Hle & _).
  - vm_compute. reflexivity.
  - exists c'. split; [exact Hc|exact Hle].
Defined.

(** ** What [fetchGroups] hands out *)

Lemma fetchGroups_inner_tracks s sub c u :
  reachable s →
  defaultSubscription s = Some sub →
  login s !! tenantId sub = Some c →
  updates (fetchGroups s).2 !! sub_id sub = Some u →
  ∃ ρ, tracks ρ (fetchGroups s).2
         (updateGroups c sub (set_lookups (λ l, l ++ [tenantId sub]) s)).1 u
         (VPromise <$> current s !! sub_id sub) (now s + 500).
Proof.
  intros Hr Hd Hl Hu. destruct (reachable_Coherent _ Hr) as [ρ0 HC].
  set (s0 := set_lookups (λ l, l ++ [tenantId sub]) s) in *.
  assert (HC0 : Coherent ρ0 s0) by by eapply Coherent_same.
  rewrite (fetchGroups_delegates s sub c Hd Hl) in Hu |- *. fold s0 in Hu |- *.
  cbn [fst snd] in Hu |- *.
  change (updates (set_jobs ?f (set_heap ?g ?x))) with (updates x) in Hu.
  assert (HO0 : Own s0) by by apply (Own_same s); [apply reachable_Own| |].
  pose proof (call_own _ _ _ _ HO0 Hu) as Hid.
  destruct (updateGroups_spec_own ρ0 s0 c sub HC0 Hid)
    as (ρ1 & x & u' & [HI1 HD1] & _ & Hu' & Hw & Hshape).
  change (current s0) with (current s) in Hshape.
  assert (u' = u) as -> by congruence.
  exists ((ρ0 ++ ρ1) ++ [Wrap (updateGroups c sub s0).1]). split; [split|].
  - apply (Inv_async_return _ _ _ HI1).
    destruct HI1 as [HS1 _]. eapply role_allocated; eauto.
  - apply (Dedup_async_return _ _ _ (proj1 HI1) HD1).
  - exists x. split.
    + by apply lookup_app_l_Some.
    + eapply body_shape_prefix; [|exact Hshape]. by apply prefix_app_r.
Qed.

(** For an id that names a property of [Object.prototype], the promise of
    [updateGroups] is rejected with the [TypeError] of line 77. *)
Lemma updateGroups_inherited_rejected s c sub :
  Own s → sub_id sub ∈ Object_prototype →
  settled (updateGroups c sub s).2 (updateGroups c sub s).1
    (Rejected (TypeError no_catch)).
Proof.
  intros HO Hid. destruct (HO _ Hid) as [Hu Hc].
  rewrite (updateGroups_inherited s c sub (VInherited (sub_id sub)));
    [|done|done|by apply get_inherited_name].
  cbn [fst snd]. unfold settled. cbn [heap set_heap set_timers].
  rewrite lookup_app_r by lia.
  by replace (S (length (heap s)) - length (heap s)) with 1 by lia.
Qed.

Lemma updates_provenance s id u w :
  reachable s → updates s !! id = Some u → ∀ evs,
  settled (run evs s) u (Fulfilled w) →
  ∃ i k, calls (run evs s) !! i = Some k ∧ call_subscription k = id ∧
         settled (run evs s) (call_promise k) (Fulfilled w).
Proof.
  intros Hr Hu evs Hw. destruct (reachable_Traced _ Hr) as (ρ & _ & _ & HP).
  destruct (prov_updates _ HP _ _ Hu) as (i & k & Hi & Hid & ->).
  exists i, k. split; [by apply calls_run|]. split; [done|].
  apply (refresh_sound _ i); [by apply reachable_run|by apply calls_run|done].
Qed.

(** X6. Whatever [fetchGroups] (lines 47-56) is fulfilled with is what a
    remote listing returned for the id of the default subscription stored at
    the time of the call: a result cached for another subscription is never
    handed out, whichever way the race of line 77 goes. *)
Theorem fetchGroups_hands_out_groups_of_the_default_subscription
    s sub evs w :
  reachable s →
  defaultSubscription s = Some sub →
  settled (run evs (fetchGroups s).2) (fetchGroups s).1 (Fulfilled w) →
  ∃ i k, calls (run evs (fetchGroups s).2) !! i = Some k ∧
         call_subscription k = sub_id sub ∧
         settled (run evs (fetchGroups s).2) (call_promise k) (Fulfilled w).
Proof.
  intros Hr Hd HF.
  assert (Hr' : reachable (fetchGroups s).2) by apply (reachable_run [EvFetch] s Hr).
  destruct (login s !! tenantId sub) as [c|] eqn:Hl.
  2:{ exfalso.
      assert (Hn : settled (fetchGroups s).2 (fetchGroups s).1
                     (Rejected (UIError not_logged_in))).
      { rewrite (fetchGroups_no_credentials s sub Hd Hl). cbn [fst snd].
        unfold settled. simpl. by apply list_lookup_middle. }
      pose proof (settled_inj _ _ _ _ HF (settled_run evs _ _ _ Hn)). done. }
  set (s0 := set_lookups (λ l, l ++ [tenantId sub]) s).
  destruct (fetchGroups_tracks s sub c Hr Hd Hl) as [ρF HtF].
  destruct (tracks_run _ _ _ _ _ _ evs HtF) as [ρF2 HtF2].
  pose proof (tracks_first_sound _ _ _ _ _ _ HtF2 HF) as HP. fold s0 in HP.
  assert (HO0 : Own s0) by by apply (Own_same s); [apply reachable_Own| |].
  destruct (decide (sub_id sub ∈ Object_prototype)) as [Hin|Hid].
  { exfalso.
    pose proof (updateGroups_inherited_rejected s0 c sub HO0 Hin) as Hn.
    assert (Hn' : settled (fetchGroups s).2 (updateGroups c sub s0).1
                    (Rejected (TypeError no_catch))).
    { rewrite (fetchGroups_delegates s sub c Hd Hl). fold s0. cbn [snd].
      unfold settled in *. cbn [heap set_heap set_jobs].
      by apply lookup_app_l_Some. }
    pose proof (settled_inj _ _ _ _ HP (settled_run evs _ _ _ Hn')). done. }
  assert (Hsome : ∃ u, updates (fetchGroups s).2 !! sub_id sub = Some u).
  { destruct (reachable_Coherent _ Hr) as [ρ0 HC].
    assert (HC0 : Coherent ρ0 s0) by by eapply Coherent_same.
    destruct (updateGroups_spec_own ρ0 s0 c sub HC0 Hid)
      as (ρ1 & x & u & _ & _ & Hu & _).
    exists u. by rewrite (fetchGroups_delegates s sub c Hd Hl). }
  destruct Hsome as [u Hu].
  destruct (fetchGroups_inner_tracks s sub c u Hr Hd Hl Hu) as [ρP HtP].
  destruct (tracks_run _ _ _ _ _ _ evs HtP) as [ρP2 HtP2]. fold s0 in HtP2.
  assert (Hfresh : settled (run evs (fetchGroups s).2) u (Fulfilled w) →
            ∃ i k, calls (run evs (fetchGroups s).2) !! i = Some k ∧
                   call_subscription k = sub_id sub ∧
                   settled (run evs (fetchGroups s).2) (call_promise k)
                     (Fulfilled w)).
  { by apply updates_provenance. }
  destruct (current s !! sub_id sub) as [cur|] eqn:Ecur;
    cbn [fmap option_fmap option_map] in HtP2.
  - destruct (current_provenance s _ _ Hr Ecur)
      as (i & k & v & Hi & Hid' & -> & Hk & Hc).
    assert (Hk2 : settled (run evs (fetchGroups s).2) (call_promise k)
                    (Fulfilled v)).
    { apply settled_run. by apply (step_evolves EvFetch s). }
    assert (Hc2 : settled (run evs (fetchGroups s).2) (S (call_promise k))
                    (Fulfilled v)).
    { apply settled_run. by apply (step_evolves EvFetch s). }
    destruct (tracks_race_fulfilled _ _ _ _ _ _ _ _ HtP2 Hc2 HP)
      as (w' & [= <-] & [->|Hu']).
    + exists i, k. split; [|done].
      apply calls_run. by apply (calls_step EvFetch).
    + by apply Hfresh.
  - apply Hfresh. by apply (tracks_first_sound _ _ _ _ _ _ HtP2).
Qed.

Lemma fetchGroups_hands_out_witness :
  let evs := [EvJob; EvJob; EvWait 500; EvTimer; EvJob; EvJob; EvJob; EvJob;
              EvJob] in
  ∃ i k, calls (run evs (fetchGroups warm_cache).2) !! i = Some k ∧
         call_subscription k = sub_id sub1 ∧
         settled (run evs (fetchGroups warm_cache).2) (call_promise k)
           (Fulfilled groups1).
Proof.
  intros evs.
  apply (fetchGroups_hands_out_groups_of_the_default_subscription
           warm_cache sub1 evs groups1 warm_cache_reachable).
  - vm_compute. reflexivity.
  - vm_compute. reflexivity.
Defined.

(** ** Who makes remote calls *)

(** X7. A step of the event loop makes at most one remote listing call, and
    only [fetchGroups] and a subscription notification make one: the call is
    for the id of the default subscription stored after the step, with the
    credentials the login watcher holds for that subscription's tenant, and
    it is made only when no refresh is in flight for that id. *)
Theorem remote_calls_are_for_the_default_subscription e s :
  calls (step e s) = calls s ∨
  ∃ sub c,
    (e = EvFetch ∨ ∃ subs, e = EvNotify subs) ∧
    defaultSubscription (step e s) = Some sub ∧
    login s !! tenantId sub = Some c ∧
    updates s !! sub_id sub = None ∧
    calls (step e s) =
      calls s ++ [{| call_credentials := c;
                     call_subscription := sub_id sub;
                     call_promise := length (heap s) |}].
Proof.
  assert (Hug : ∀ s0 c sub,
    calls s0 = calls s → updates s0 = updates s → heap s0 = heap s →
    calls (updateGroups c sub s0).2 = calls s ∨
    (updates s !! sub_id sub = None ∧
     calls (updateGroups c sub s0).2 =
       calls s ++ [{| call_credentials := c;
                      call_subscription := sub_id sub;
                      call_promise := length (heap s) |}])).
  { intros s0 c sub Hc Hu Hh.
    pose proof (updateGroups_calls_updates s0 c sub) as H. rewrite Hu in H.
    destruct (get (updates s) (sub_id sub)) eqn:E; destruct H as [H _].
    - left. by rewrite H.
    - right. apply get_None in E as [E _]. by rewrite H, Hc, Hh. }
  destruct e as [| |subs|l|k o| |dt]; simpl.
  - left. destruct (jobs s) as [|j q]; [done|].
    by rewrite (calls_run_job j (set_jobs (λ _, q) s)).
  - destruct (defaultSubscription s) as [sub|] eqn:Hd.
    + destruct (login s !! tenantId sub) as [c|] eqn:Hl.
      * rewrite defaultSubscription_fetchGroups, Hd.
        rewrite (fetchGroups_delegates s sub c Hd Hl). cbn [snd].
        change (calls (set_jobs ?f (set_heap ?g ?x))) with (calls x).
        destruct (Hug (set_lookups (λ l, l ++ [tenantId sub]) s) c sub)
          as [H|[Hn H]]; try done; [by left|].
        right. exists sub, c. rewrite H. eauto 10.
      * left. by rewrite (fetchGroups_no_credentials s sub Hd Hl).
    + left. by rewrite (fetchGroups_no_default s Hd).
  - rewrite onSubscriptionUpdated_run. case_decide; [by left|]. cbn zeta.
    simpl. destruct (find isDefault subs) as [sub|]; [|by left].
    destruct (login s !! tenantId sub) as [c|] eqn:Hl; [|by left]. cbn [snd].
    rewrite defaultSubscription_updateGroups. simpl.
    destruct (Hug (set_lookups (λ l, l ++ [tenantId sub])
                     (set_defaultSubscription (Some sub)
                        (set_subscriptions subs s))) c sub)
      as [H'|[Hn H']]; try done; [by left|].
    right. exists sub, c. rewrite H'. eauto 10.
  - by left.
  - left. destruct (calls s !! k); [|done].
    by rewrite (keeps_settle calls) by apply off_heap_calls.
  - left. destruct (jobs s); [|done].
    destruct (pop_due (now s) (timers s)) as [[tm rest]|]; [|done].
    by rewrite (keeps_resolve calls) by apply off_heap_calls.
  - left. by case_decide.
Qed.

(** ** Construction and notifications *)

Lemma console_updateGroups c sub : keeps console (updateGroups c sub).
Proof. keeps_tac. Qed.

Lemma off_heap_login : off_heap login.
Proof. done. Qed.

Lemma login_updateGroups c sub : keeps login (updateGroups c sub).
Proof. unfold updateGroups, async, updateGroups_body, race_with_current,
    start_update, loadGroups, resourceGroups_list, race, catch_,
    timeout_promise.
  repeat (progress (eauto 200 using off_heap_login with keeps)).
Qed.

Lemma empty_state_subscriptions subs l t0 :
  set_subscriptions subs (empty_state subs l t0) = empty_state subs l t0.
Proof. done. Qed.

Lemma onSubscriptionUpdated_first s :
  defaultSubscription s = None →
  (onSubscriptionUpdated s).2 =
    match find isDefault (subscriptions s) with
    | Some sub =>
        match login s !! tenantId sub with
        | Some c =>
            (updateGroups c sub
               (set_lookups (λ t, t ++ [tenantId sub])
                  (set_defaultSubscription (Some sub) s))).2
        | None =>
            set_lookups (λ t, t ++ [tenantId sub])
              (set_defaultSubscription (Some sub) s)
        end
    | None => s
    end.
Proof.
  intros Hd. rewrite onSubscriptionUpdated_run, Hd.
  destruct (find isDefault (subscriptions s)) as [sub|].
  - rewrite decide_False by (by intros [=]). cbn zeta.
    by destruct (login s !! tenantId sub).
  - by rewrite decide_True by reflexivity.
Qed.

Lemma constructor_run subs l t0 :
  constructor subs l t0 =
    match find isDefault subs with
    | Some sub =>
        match l !! tenantId sub with
        | Some c =>
            (updateGroups c sub
               (set_lookups (λ t, t ++ [tenantId sub])
                  (set_defaultSubscription (Some sub)
                     (empty_state subs l t0)))).2
        | None =>
            set_lookups (λ t, t ++ [tenantId sub])
              (set_defaultSubscription (Some sub) (empty_state subs l t0))
        end
    | None => empty_state subs l t0
    end.
Proof.
  unfold constructor. by rewrite onSubscriptionUpdated_first.
Qed.

(** A call that finds neither a refresh in flight nor a cached result. *)
Lemma updateGroups_cold s c sub (s' := (updateGroups c sub s).2) :
  get (updates s) (sub_id sub) = None → get (current s) (sub_id sub) = None →
  calls s' = calls s ++ [{| call_credentials := c;
                            call_subscription := sub_id sub;
                            call_promise := length (heap s) |}] ∧
  updates s' = <[sub_id sub := S (length (heap s))]> (updates s) ∧
  timers s' = timers s.
Proof.
  intros Hu Hc. unfold s'.
  pose proof (updateGroups_calls_updates s c sub) as Hcu. rewrite Hu in Hcu.
  destruct Hcu as [-> ->].
  by destruct (updateGroups_first_fields s c sub Hc) as [-> _].
Qed.

(** [fetchGroups] when the read of line 60 finds something for the id of
    the default subscription. *)
Lemma fetchGroups_in_flight s sub c v :
  defaultSubscription s = Some sub →
  login s !! tenantId sub = Some c →
  get (updates s) (sub_id sub) = Some v →
  calls (fetchGroups s).2 = calls s ∧ updates (fetchGroups s).2 = updates s.
Proof.
  intros Hd Hl Hu. rewrite (fetchGroups_delegates s sub c Hd Hl). cbn [snd].
  pose proof (updateGroups_calls_updates
                (set_lookups (λ t, t ++ [tenantId sub]) s) c sub) as Hcu.
  change (updates (set_lookups ?f s)) with (updates s) in Hcu.
  by rewrite Hu in Hcu.
Qed.

(** X8. The constructor (lines 29-32) looks at the subscriptions once.
    When there is a default subscription and the login watcher has
    credentials for its tenant, it calls [updateGroups]: for an id that is
    not a property name of [Object.prototype] this starts the first refresh
    and sets no timer; for an id that is one, both reads of lines 60 and 75
    find the inherited value, so no remote call is made, nothing enters
    [updates], and the 500ms timer is set with the inherited value.
    Otherwise nothing is started.  Nothing is cached and nothing is logged;
    and a [fetchGroups] right after construction makes no further remote
    call and leaves [updates] as it is. *)
Theorem construction_starts_at_most_one_refresh subs l t0 :
  let s := constructor subs l t0 in
  current s = ∅ ∧ console s = [] ∧
  defaultSubscription s = find isDefault subs ∧
  match find isDefault subs with
  | Some sub =>
      match l !! tenantId sub with
      | Some c =>
          if decide (sub_id sub ∈ Object_prototype) then
            calls s = [] ∧ updates s = ∅ ∧
            timers s = [{| due := t0 + 500; tpromise := 0;
                           tvalue := VInherited (sub_id sub) |}]
          else
            calls s = [{| call_credentials := c;
                          call_subscription := sub_id sub;
                          call_promise := 0 |}] ∧
            updates s = {[ sub_id sub := 1 ]} ∧
            timers s = []
      | None => calls s = [] ∧ updates s = ∅ ∧ timers s = []
      end
  | None => calls s = [] ∧ updates s = ∅ ∧ timers s = []
  end ∧
  calls (fetchGroups s).2 = calls s ∧
  updates (fetchGroups s).2 = updates s.
Proof.
  intros s. unfold s. rewrite constructor_run.
  destruct (find isDefault subs) as [sub|] eqn:Hf.
  2:{ by rewrite (fetchGroups_no_default (empty_state subs l t0)). }
  destruct (l !! tenantId sub) as [c|] eqn:Hl.
  2:{ by rewrite (fetchGroups_no_credentials _ sub). }
  set (s0 := set_lookups (λ t, t ++ [tenantId sub])
               (set_defaultSubscription (Some sub) (empty_state subs l t0))).
  rewrite current_updateGroups, defaultSubscription_updateGroups,
    (console_updateGroups c sub).
  split; [done|]. split; [done|]. split; [done|].
  destruct (decide (sub_id sub ∈ Object_prototype)) as [Hin|Hid].
  - pose proof (updateGroups_inherited s0 c sub (VInherited (sub_id sub))
                  Hin (lookup_empty _)
                  (get_inherited_name _ _ Hin (lookup_empty _))) as E.
    assert (Hc : calls (updateGroups c sub s0).2 = []) by by rewrite E.
    assert (Hu : updates (updateGroups c sub s0).2 = ∅) by by rewrite E.
    split; [by rewrite E|].
    apply (fetchGroups_in_flight _ sub c (VInherited (sub_id sub))).
    + by rewrite defaultSubscription_updateGroups.
    + by rewrite (login_updateGroups c sub).
    + rewrite Hu. by apply get_inherited_name.
  - destruct (updateGroups_cold s0 c sub) as (Hc & Hu & Ht).
    { by apply get_None. }
    { by apply get_None. }
    split; [by rewrite Hc, Hu, Ht|].
    apply (fetchGroups_in_flight _ sub c (VPromise 1)).
    + by rewrite defaultSubscription_updateGroups.
    + by rewrite (login_updateGroups c sub).
    + rewrite Hu. apply get_promise, lookup_insert_eq.
Qed.

Lemma onSubscriptionUpdated_switch s sub :
  find isDefault (subscriptions s) = Some sub →
  sub_id <$> defaultSubscription s ≠ Some (sub_id sub) →
  (onSubscriptionUpdated s).2 =
    match login s !! tenantId sub with
    | Some c =>
        (updateGroups c sub
           (set_lookups (λ t, t ++ [tenantId sub])
              (set_defaultSubscription (Some sub) s))).2
    | None =>
        set_lookups (λ t, t ++ [tenantId sub])
          (set_defaultSubscription (Some sub) s)
    end.
Proof.
  intros Hf Hne. rewrite onSubscriptionUpdated_run, Hf.
  rewrite decide_False by done. cbn zeta.
  by destruct (login s !! tenantId sub).
Qed.

(** X9. A notification whose default subscription has another id than the
    stored one (lines 36-43) stores it and asks the login watcher for the
    credentials of its tenant.  With credentials, the read of line 60 finds
    something for the new id afterwards, and a remote call is made exactly
    when it found nothing before: for an id that is not a property name of
    [Object.prototype] a refresh is in flight afterwards, started now unless
    there was one already; for an id that is one, no refresh is ever
    started.  Without credentials nothing else happens: no promise, no
    remote call, no error.  Either way the refreshes in flight for other
    ids, the cached results and the console are left alone. *)
Theorem notification_of_another_default_subscription s subs sub :
  find isDefault subs = Some sub →
  sub_id <$> defaultSubscription s ≠ Some (sub_id sub) →
  let s' := step (EvNotify subs) s in
  defaultSubscription s' = Some sub ∧
  lookups s' = lookups s ++ [tenantId sub] ∧
  current s' = current s ∧
  console s' = console s ∧
  (∀ id, id ≠ sub_id sub → updates s' !! id = updates s !! id) ∧
  match login s !! tenantId sub with
  | Some c =>
      is_Some (get (updates s') (sub_id sub)) ∧
      (sub_id sub ∉ Object_prototype → is_Some (updates s' !! sub_id sub)) ∧
      (sub_id sub ∈ Object_prototype → updates s' = updates s) ∧
      calls s' = calls s ++
        match get (updates s) (sub_id sub) with
        | Some _ => []
        | None => [{| call_credentials := c;
                      call_subscription := sub_id sub;
                      call_promise := length (heap s) |}]
        end
  | None =>
      heap s' = heap s ∧ jobs s' = jobs s ∧ timers s' = timers s ∧
      calls s' = calls s ∧ updates s' = updates s
  end.
Proof.
  intros Hf Hne s'. unfold s', step.
  rewrite (onSubscriptionUpdated_switch (set_subscriptions subs s) sub Hf Hne).
  change (login (set_subscriptions subs s)) with (login s).
  destruct (login s !! tenantId sub) as [c|]; [|done].
  set (s0 := set_lookups _ _).
  rewrite defaultSubscription_updateGroups, lookups_updateGroups,
    current_updateGroups, (console_updateGroups c sub).
  split; [done|]. split; [done|]. split; [done|]. split; [done|].
  pose proof (updateGroups_calls_updates s0 c sub) as Hcu.
  change (updates s0) with (updates s) in Hcu.
  change (calls s0) with (calls s) in Hcu.
  change (heap s0) with (heap s) in Hcu.
  destruct (get (updates s) (sub_id sub)) as [v|] eqn:Eu;
    destruct Hcu as [-> ->].
  - split; [done|]. split; [by rewrite Eu|]. split.
    { intros Hid. rewrite get_own in Eu by done.
      by destruct (updates s !! sub_id sub). }
    split; [done|]. by rewrite app_nil_r.
  - apply get_None in Eu as [Eu Hid]. split.
    { intros id Hne'. by rewrite lookup_insert_ne. }
    split.
    { exists (VPromise (S (length (heap s)))).
      apply get_promise, lookup_insert_eq. }
    split; [intros _; rewrite lookup_insert_eq; eauto|]. by split.
Qed.

Lemma notification_of_another_default_witness :
  let s := constructor [] login1 0 in
  let s' := step (EvNotify [sub1]) s in
  defaultSubscription s' = Some sub1 ∧ length (calls s') = 1.
Proof.
  intros s s'.
  destruct (notification_of_another_default_subscription s [sub1] sub1)
    as (Hd & _ & _ & _ & _ & H).
  - reflexivity.
  - vm_compute. intros [=].
  - split; [exact Hd|]. vm_compute. reflexivity.
Defined.

(** X10. A notification without a default subscription, when one is stored
    (lines 36-38), forgets the stored one and touches nothing else: the
    refreshes in flight go on and the cached results stay.  From then on
    [fetchGroups] fails for want of a login, without asking the login
    watcher and without a remote call, whatever the cache holds. *)
Theorem notification_without_default_subscription s subs old :
  defaultSubscription s = Some old →
  find isDefault subs = None →
  let s' := step (EvNotify subs) s in
  s' = set_defaultSubscription None (set_subscriptions subs s) ∧
  settled (fetchGroups s').2 (fetchGroups s').1
    (Rejected (UIError not_logged_in)) ∧
  calls (fetchGroups s').2 = calls s ∧
  lookups (fetchGroups s').2 = lookups s ∧
  updates (fetchGroups s').2 = updates s ∧
  current (fetchGroups s').2 = current s.
Proof.
  intros Hd Hf s'.
  assert (Hs : s' = set_defaultSubscription None (set_subscriptions subs s)).
  { unfold s', step. rewrite onSubscriptionUpdated_run.
    change (defaultSubscription (set_subscriptions subs s))
      with (defaultSubscription s).
    change (subscriptions (set_subscriptions subs s)) with subs.
    rewrite Hd, Hf. by rewrite decide_False by (by intros [=]). }
  split; [done|]. rewrite Hs.
  rewrite (fetchGroups_no_default
             (set_defaultSubscription None (set_subscriptions subs s)) eq_refl).
  cbn [fst snd].
  split; [|done]. unfold settled. simpl. by apply list_lookup_middle.
Qed.

Lemma notification_without_default_witness :
  let s' := step (EvNotify []) warm_cache in
  settled (fetchGroups s').2 (fetchGroups s').1
    (Rejected (UIError not_logged_in)) ∧
  current (fetchGroups s').2 !! "sub-1" = Some 1.
Proof.
  intros s'.
  destruct (notification_without_default_subscription warm_cache [] sub1)
    as (_ & Hr & _ & _ & _ & Hc).
  - vm_compute. reflexivity.
  - reflexivity.
  - split; [exact Hr|]. unfold s'. rewrite Hc. vm_compute. reflexivity.
Defined.

(** ** Timers *)

Lemma updateGroups_warm_timer s c sub (cur : value) :
  get (current s) (sub_id sub) = Some cur →
  ∃ p, timers (updateGroups c sub s).2 =
         timers s ++ [{| due := now s + 500; tpromise := p; tvalue := cur |}].
Proof.
  intros Hc. unfold updateGroups. rewrite (async_off_heap timers) by done.
  destruct (get (updates s) (sub_id sub)) as [[u|name]|] eqn:Eu.
  - apply get_promise in Eu.
    rewrite (updateGroups_body_in_flight s c sub u Eu), Hc.
    destruct (race_with_current_fields s u cur) as (_ & _ & _ & _ & ->). eauto.
  - destruct (updateGroups_body_inherited s c sub name Eu) as (cur' & Hc' & ->).
    assert (cur' = cur) as -> by congruence.
    rewrite <-(race_with_current_throws name).
    destruct (race_with_current_fields s (VInherited name) cur)
      as (_ & _ & _ & _ & ->). eauto.
  - rewrite (updateGroups_body_start s c sub Eu), Hc.
    destruct (race_with_current_fields (start_update c sub s).2
                (S (length (heap s))) cur) as (_ & _ & _ & _ & ->).
    destruct (start_update_fields s c sub) as (_ & -> & -> & _). eauto.
Qed.

Lemma timers_step e s : e ≠ EvTimer → timers s ⊆ timers (step e s).
Proof.
  intros He. destruct e as [| |subs|l|k o| |dt]; simpl; try done.
  - destruct (jobs s) as [|j q]; [done|].
    apply (grows_timers _ _ (grows_run_job j (set_jobs (λ _, q) s))).
  - apply (grows_timers _ _ (grows_fetchGroups s)).
  - apply (grows_timers _ _
             (grows_onSubscriptionUpdated (set_subscriptions subs s))).
  - destruct (calls s !! k); [|done].
    apply (grows_timers _ _ (grows_settle s _ _)).
  - by case_decide.
Qed.

(** X11. Every call of [updateGroups] that finds a cached result sets a
    timer of its own (line 77), due 500ms after the call and carrying the
    cached promise, also when it joins a refresh that is already in flight:
    [n] calls leave [n] timers.  No timer is ever cancelled: a timer leaves
    the list only by firing, also when the refresh has long won the race. *)
Theorem calls_with_a_cached_result_each_set_a_timer s cs sub (cur : promise) :
  current s !! sub_id sub = Some cur →
  length (timers (updateGroups_many cs sub s)) =
    length (timers s) + length cs ∧
  (∀ tm, tm ∈ timers (updateGroups_many cs sub s) →
         tm ∈ timers s ∨ (due tm = now s + 500 ∧ tvalue tm = cur)) ∧
  (∀ e, e ≠ EvTimer → timers s ⊆ timers (step e s)).
Proof.
  intros Hc. split; [|split]; [| |intros e; apply timers_step].
  - revert s Hc. induction cs as [|c cs IH]; intros s Hc; simpl; [lia|].
    change (foldl _ (updateGroups c sub s).2 cs)
      with (updateGroups_many cs sub (updateGroups c sub s).2).
    rewrite IH by by rewrite current_updateGroups.
    destruct (updateGroups_warm_timer s c sub cur (get_Some _ _ _ Hc))
      as [p ->].
    rewrite length_app. simpl. lia.
  - revert s Hc. induction cs as [|c cs IH]; intros s Hc tm; [by left|].
    change (updateGroups_many (c :: cs) sub s)
      with (updateGroups_many cs sub (updateGroups c sub s).2).
    intros Hin. apply IH in Hin; [|by rewrite current_updateGroups].
    rewrite now_updateGroups in Hin.
    destruct Hin as [Hin|Hin]; [|by right].
    destruct (updateGroups_warm_timer s c sub cur (get_Some _ _ _ Hc))
      as [p Hp].
    rewrite Hp in Hin. apply elem_of_app in Hin as [Hin|Hin]; [by left|].
    apply list_elem_of_singleton in Hin as ->. by right.
Qed.

Lemma calls_with_a_cached_result_witness :
  length (timers (updateGroups_many [creds1; creds1; creds1] sub1 warm_cache))
    = length (timers warm_cache) + 3.
Proof.
  destruct (calls_with_a_cached_result_each_set_a_timer
              warm_cache [creds1; creds1; creds1] sub1 1) as [H _].
  - vm_compute. reflexivity.
  - exact H.
Defined.

(** ** [loadGroupsOld] *)

Lemma id_startsWith_Some p g b :
  id_startsWith p g = Some b →
  ∃ members gid, g = JObject members ∧
    member "id" members = Some (JString gid) ∧ b = String.prefix p gid.
Proof.
  destruct g as [| | | | |members]; simpl; try done.
  destruct (member "id" members) as [[| | |gid| |]|] eqn:E; try done.
  intros [= <-]. by exists members, gid.
Qed.

(** Whether the filter throws does not depend on the prefix. *)
Lemma id_startsWith_None p q g :
  id_startsWith p g = None → id_startsWith q g = None.
Proof.
  destruct g as [| | | | |members]; simpl; try done.
  by destruct (member "id" members) as [[| | |gid| |]|].
Qed.

Lemma filter_groups_Some p groups filtered :
  filter_groups p groups = Some filtered →
  filtered `sublist_of` groups ∧
  (∀ g, g ∈ filtered → id_startsWith p g = Some true) ∧
  (∀ g, g ∈ groups → id_startsWith p g = Some true → g ∈ filtered) ∧
  (∀ g, g ∈ groups → is_Some (id_startsWith p g)).
Proof.
  revert filtered. induction groups as [|g groups IH]; intros filtered; simpl.
  { intros [= <-]. split; [done|]. split; [|split]; intros g Hg;
      by apply elem_of_nil in Hg. }
  destruct (id_startsWith p g) as [keep|] eqn:Eg; [|done].
  destruct (filter_groups p groups) as [kept|]; [|done]. intros [= <-].
  destruct (IH kept eq_refl) as (Hsub & Hin & Hall & Hsome).
  split; [|split; [|split]].
  - destruct keep; [by apply sublist_skip|by apply sublist_cons].
  - intros g' Hg'. destruct keep; [|by apply Hin].
    apply elem_of_cons in Hg' as [->|Hg']; [done|by apply Hin].
  - intros g' Hg' Ht. apply elem_of_cons in Hg' as [->|Hg'].
    + rewrite Eg in Ht. injection Ht as ->. apply elem_of_cons. by left.
    + destruct keep; [apply elem_of_cons; right|]; by apply Hall.
  - intros g' Hg'. apply elem_of_cons in Hg' as [->|Hg']; [by rewrite Eg|].
    by apply Hsome.
Qed.

(** When no element makes [startsWith] throw, the loop of lines 98-100 is
    the filter of the list by the prefix test. *)
Lemma filter_groups_filter p groups filtered :
  filter_groups p groups = Some filtered →
  filtered = filter (λ g, id_startsWith p g = Some true) groups.
Proof.
  revert filtered. induction groups as [|g groups IH]; intros filtered; simpl.
  { by intros [= <-]. }
  destruct (id_startsWith p g) as [keep|] eqn:Eg; [|done].
  destruct (filter_groups p groups) as [kept|]; [|done]. intros [= <-].
  rewrite filter_cons, Eg, (IH kept eq_refl).
  destruct keep.
  - by rewrite decide_True.
  - by rewrite decide_False.
Qed.

Lemma filter_groups_None p groups g :
  g ∈ groups → id_startsWith p g = None → filter_groups p groups = None.
Proof.
  intros Hg Hn. induction groups as [|g' groups IH]; [by apply elem_of_nil in Hg|].
  simpl. apply elem_of_cons in Hg as [<-|Hg]; [by rewrite Hn|].
  destruct (id_startsWith p g'); [|done]. by rewrite IH.
Qed.

(** A filter that keeps everything. *)
Lemma filter_groups_all p groups :
  (∀ g, g ∈ groups → id_startsWith p g = Some true) →
  filter_groups p groups = Some groups.
Proof.
  induction groups as [|g groups IH]; intros H; [done|]. simpl.
  rewrite (H g) by (apply elem_of_cons; by left).
  rewrite IH; [done|]. intros g' Hg'. apply H, elem_of_cons. by right.
Qed.

(** A filter that keeps nothing. *)
Lemma filter_groups_none p groups :
  (∀ g, g ∈ groups → id_startsWith p g = Some false) →
  filter_groups p groups = Some [].
Proof.
  induction groups as [|g groups IH]; intros H; [done|]. simpl.
  rewrite (H g) by (apply elem_of_cons; by left).
  rewrite IH; [done|]. intros g' Hg'. apply H, elem_of_cons. by right.
Qed.

Lemma append_cons c a b : String c a +:+ b = String c (a +:+ b).
Proof. done. Qed.

Lemma prefix_cons c a d s :
  String.prefix (String c a) (String d s) = true ↔
  c = d ∧ String.prefix a s = true.
Proof.
  simpl. destruct (Ascii.ascii_dec c d) as [->|Hne]; [tauto|].
  split; [done|]. by intros [? _].
Qed.

Lemma prefix_app a b s :
  String.prefix (a +:+ b) s = true →
  ∃ r, s = a +:+ r ∧ String.prefix b r = true.
Proof.
  revert s. induction a as [|c a IH]; intros s.
  { exists s. done. }
  rewrite append_cons. destruct s as [|d s]; [done|].
  intros [-> H]%prefix_cons. destruct (IH s H) as (r & -> & Hr).
  by exists r.
Qed.

Lemma append_inj_l a r r' : a +:+ r = a +:+ r' → r = r'.
Proof.
  induction a as [|c a IH]; [done|]. rewrite !append_cons.
  intros [= H]. by apply IH.
Qed.

(** Two slash-free ids followed by a slash that start the same string are
    the same id. *)
Lemma no_slash_prefix a b r :
  no_slash a = true → no_slash b = true →
  String.prefix (a +:+ "/") r = true → String.prefix (b +:+ "/") r = true →
  a = b.
Proof.
  revert b r. induction a as [|c a IH]; intros [|d b] r Ha Hb; simpl in Ha, Hb.
  - done.
  - destruct (Ascii.eqb_spec d slash) as [->|Hd]; [done|].
    destruct r as [|e r]; [done|]. rewrite append_cons.
    change (EmptyString +:+ "/") with (String slash EmptyString).
    intros [<- _]%prefix_cons [Heq _]%prefix_cons. by destruct Hd.
  - destruct (Ascii.eqb_spec c slash) as [->|Hc]; [done|].
    destruct r as [|e r]; [done|]. rewrite append_cons.
    change (EmptyString +:+ "/") with (String slash EmptyString).
    intros [Heq _]%prefix_cons [<- _]%prefix_cons. by destruct Hc.
  - destruct (Ascii.eqb_spec c slash) as [->|Hc]; [done|].
    destruct (Ascii.eqb_spec d slash) as [->|Hd]; [done|].
    destruct r as [|e r]; [done|]. rewrite !append_cons.
    intros [-> H1]%prefix_cons [-> H2]%prefix_cons.
    by rewrite (IH b r Ha Hb H1 H2).
Qed.

(** A group id lies under the prefix of one slash-free subscription id
    only. *)
Lemma subscription_prefix_inj a b gid :
  no_slash a = true → no_slash b = true →
  String.prefix (subscription_prefix a) gid = true →
  String.prefix (subscription_prefix b) gid = true →
  a = b.
Proof.
  intros Ha Hb H1 H2. unfold subscription_prefix in *.
  apply prefix_app in H1 as (r1 & -> & H1).
  apply prefix_app in H2 as (r2 & Heq & H2).
  apply append_inj_l in Heq as ->.
  by apply (no_slash_prefix a b r2).
Qed.

Lemma loadGroupsOld_resolved parse id err stdout stderr filtered :
  loadGroupsOld_callback parse id err stdout stderr = OldResolved filtered →
  err = None ∧ stderr = EmptyString ∧
  ∃ groups, parse stdout = Some (JArray groups) ∧
    filter_groups (subscription_prefix id) groups = Some filtered ∧
    (filtered = [] → groups = []).
Proof.
  unfold loadGroupsOld_callback.
  destruct err as [e|]; [done|]. destruct stderr as [|c stderr]; [|done].
  destruct (parse stdout) as [[| | | |groups|]|]; try done.
  destruct (filter_groups (subscription_prefix id) groups) as [kept|] eqn:Ef;
    [|done].
  intros H. split; [done|]. split; [done|]. exists groups. split; [done|].
  destruct groups as [|g groups], kept as [|k kept]; try done;
    injection H as <-; done.
Qed.

(** X12. When [loadGroupsOld] (lines 88-104) resolves, [az] gave no error
    and wrote nothing to stderr, its output parsed as an array, and the
    promise holds exactly the list of the groups of that array whose [id]
    starts with [/subscriptions/<subscriptionId>/]: each of them as often
    as the listing has it, in the order of the listing, and nothing else.
    Every element of the listing is then an object with a string [id].  It
    resolves with no groups only when the listing was empty. *)
Theorem loadGroupsOld_resolves_with_the_groups_of_the_subscription
    parse id err stdout stderr filtered :
  loadGroupsOld_callback parse id err stdout stderr = OldResolved filtered →
  err = None ∧ stderr = EmptyString ∧
  ∃ groups, parse stdout = Some (JArray groups) ∧
    filtered =
      filter (λ g, id_startsWith (subscription_prefix id) g = Some true)
        groups ∧
    (∀ g, g ∈ groups →
       ∃ members gid, g = JObject members ∧
         member "id" members = Some (JString gid) ∧
         (g ∈ filtered ↔
          String.prefix (subscription_prefix id) gid = true)) ∧
    (filtered = [] → groups = []).
Proof.
  intros H.
  destruct (loadGroupsOld_resolved _ _ _ _ _ _ H)
    as (-> & -> & groups & Hp & Hf & Hempty).
  split; [done|]. split; [done|]. exists groups. split; [done|].
  destruct (filter_groups_Some _ _ _ Hf) as (Hsub & Hin & Hall & Hsome).
  split; [by apply filter_groups_filter|]. split; [|done].
  intros g Hg. destruct (Hsome g Hg) as [b Hb].
  destruct (id_startsWith_Some _ _ _ Hb) as (members & gid & -> & Hm & ->).
  exists members, gid. split; [done|]. split; [done|]. split.
  - intros Hgf. apply Hin in Hgf. rewrite Hb in Hgf. by injection Hgf.
  - intros Hpre. apply Hall; [done|]. by rewrite Hb, Hpre.
Qed.

Lemma loadGroupsOld_resolves_witness :
  let g1 := JObject [("id", JString "/subscriptions/s1/resourceGroups/a");
                     ("name", JString "a")] in
  let g2 := JObject [("id", JString "/subscriptions/s2/resourceGroups/b");
                     ("name", JString "b")] in
  [g1; g1] =
    filter (λ g, id_startsWith (subscription_prefix "s1") g = Some true)
      [g1; g2; g1].
Proof.
  intros g1 g2.
  destruct (loadGroupsOld_resolves_with_the_groups_of_the_subscription
              (λ _, Some (JArray [g1; g2; g1])) "s1" None "[...]" EmptyString
              [g1; g1])
    as (_ & _ & groups & Hp & Hfilter & _).
  - reflexivity.
  - injection Hp as <-. exact Hfilter.
Defined.

(** X13. [loadGroupsOld] tells a listing of another subscription from its
    own: for two different subscription ids without a slash, a non-empty
    listing that resolves unfiltered for one of them is rejected with
    "Subscription changed" for the other, and no group is ever kept for
    both. *)
Theorem loadGroupsOld_rejects_the_listing_of_another_subscription
    parse a b stdout groups :
  no_slash a = true → no_slash b = true → a ≠ b →
  groups ≠ [] →
  loadGroupsOld_callback parse a None stdout EmptyString
    = OldResolved groups →
  parse stdout = Some (JArray groups) →
  loadGroupsOld_callback parse b None stdout EmptyString
    = OldRejected (ReasonString "Subscription changed") ∧
  (∀ g, id_startsWith (subscription_prefix a) g = Some true →
        id_startsWith (subscription_prefix b) g = Some false).
Proof.
  intros Ha Hb Hab Hne Hres Hp.
  assert (Hiso : ∀ g, id_startsWith (subscription_prefix a) g = Some true →
                      id_startsWith (subscription_prefix b) g = Some false).
  { intros g Hg.
    destruct (id_startsWith_Some _ _ _ Hg) as (members & gid & -> & Hm & Hpre).
    simpl. rewrite Hm.
    destruct (String.prefix (subscription_prefix b) gid) eqn:E; [|done].
    destruct Hab. by apply (subscription_prefix_inj a b gid). }
  split; [|done].
  destruct (loadGroupsOld_resolved _ _ _ _ _ _ Hres)
    as (_ & _ & groups' & Hp' & Hf & _).
  assert (groups' = groups) as -> by congruence.
  destruct (filter_groups_Some _ _ _ Hf) as (_ & Hin & _ & _).
  unfold loadGroupsOld_callback. rewrite Hp.
  rewrite (filter_groups_none (subscription_prefix b) groups) by auto.
  by destruct groups.
Qed.

Lemma loadGroupsOld_rejects_witness :
  let g1 := JObject [("id", JString "/subscriptions/s1/resourceGroups/a")] in
  loadGroupsOld_callback (λ _, Some (JArray [g1])) "s" None "[...]" EmptyString
    = OldRejected (ReasonString "Subscription changed").
Proof.
  intros g1.
  destruct (loadGroupsOld_rejects_the_listing_of_another_subscription
              (λ _, Some (JArray [g1])) "s1" "s" "[...]" [g1]) as [H _];
    try reflexivity; try done.
Defined.

Lemma filter_groups_nil p groups :
  filter_groups p groups = Some [] →
  ∀ g, g ∈ groups → id_startsWith p g = Some false.
Proof.
  intros Hf g Hg.
  destruct (filter_groups_Some _ _ _ Hf) as (_ & _ & Hall & Hsome).
  destruct (Hsome g Hg) as [[|] E]; [|done].
  pose proof (Hall g Hg E) as Hin. by apply elem_of_nil in Hin.
Qed.

(** X14. When and with what [loadGroupsOld] rejects.  An error of
    [execFile] rejects with that error and anything on stderr rejects with
    its text, the error first and in both cases without a look at stdout;
    otherwise the only rejection is "Subscription changed", for a listing
    that is not empty, holds only objects with a string [id], and has none
    under the prefix of the subscription. *)
Theorem loadGroupsOld_rejections parse id err stdout stderr r :
  loadGroupsOld_callback parse id err stdout stderr = OldRejected r ↔
  (∃ e, err = Some e ∧ r = ReasonError e) ∨
  (err = None ∧ stderr ≠ EmptyString ∧ r = ReasonString stderr) ∨
  (err = None ∧ stderr = EmptyString ∧
   r = ReasonString "Subscription changed" ∧
   ∃ groups, parse stdout = Some (JArray groups) ∧ groups ≠ [] ∧
     ∀ g, g ∈ groups →
       id_startsWith (subscription_prefix id) g = Some false).
Proof.
  unfold loadGroupsOld_callback. split.
  - destruct err as [e|]; [intros [= <-]; left; by exists e|].
    destruct stderr as [|c stderr]; [|intros [= <-]; right; by left].
    destruct (parse stdout) as [[| | | |groups|]|]; try done.
    destruct (filter_groups (subscription_prefix id) groups) as [kept|] eqn:Ef;
      [|done].
    destruct groups as [|g groups], kept as [|k kept]; try done.
    intros [= <-]. right. right. split; [done|]. split; [done|].
    split; [done|]. exists (g :: groups). split; [done|]. split; [done|].
    by apply filter_groups_nil.
  - intros [(e & -> & ->)|[(-> & Hs & ->)|(-> & -> & -> & groups & -> & Hne & Hall)]].
    + done.
    + by destruct stderr.
    + rewrite (filter_groups_none _ _ Hall). by destruct groups.
Qed.

(** X15. An output that is not a listing leaves the promise of
    [loadGroupsOld] unsettled: when [az] succeeds silently and its output
    does not parse, is not an array, or holds one element that is not an
    object with a string [id], the callback throws, for every subscription
    id, however many well-formed groups the array holds besides. *)
Theorem loadGroupsOld_throws_on_a_malformed_listing parse id stdout :
  (parse stdout = None ∨
   (∃ v, parse stdout = Some v ∧ ∀ groups, v ≠ JArray groups) ∨
   (∃ groups g, parse stdout = Some (JArray groups) ∧ g ∈ groups ∧
      ∀ members gid, g = JObject members →
        member "id" members ≠ Some (JString gid))) →
  loadGroupsOld_callback parse id None stdout EmptyString = OldThrown.
Proof.
  unfold loadGroupsOld_callback.
  intros [->|[(v & -> & Hv)|(groups & g & -> & Hg & Hbad)]]; [done| |].
  - destruct v; try done. by destruct (Hv items).
  - rewrite (filter_groups_None _ groups g Hg); [done|].
    destruct (id_startsWith (subscription_prefix id) g) as [b|] eqn:E; [|done].
    destruct (id_startsWith_Some _ _ _ E) as (members & gid & -> & Hm & _).
    by destruct (Hbad members gid).
Qed.

Lemma loadGroupsOld_throws_witness :
  let good := JObject [("id", JString "/subscriptions/s1/resourceGroups/a")] in
  let bad := JObject [("name", JString "b")] in
  loadGroupsOld_callback (λ _, Some (JArray [good; bad])) "s1" None "[...]"
    EmptyString = OldThrown.
Proof.
  intros good bad.
  apply (loadGroupsOld_throws_on_a_malformed_listing
           (λ _, Some (JArray [good; bad])) "s1" "[...]").
  right. right. exists [good; bad], bad. split; [reflexivity|].
  split; [apply elem_of_cons; right; apply elem_of_cons; by left|].
  intros members gid [= <-]. done.
Defined.

(** ** Revalidation *)

(** X16. The cache always revalidates: whenever no refresh is in flight for
    the stored default subscription, whose id is not a property name of
    [Object.prototype], and the login watcher has credentials for its
    tenant, [fetchGroups] starts a remote listing, however recent the cached
    result is; the cached result only decides whether the caller waits for
    the listing or for at most 500ms.  For an id that is such a name the
    read of line 60 finds the inherited value instead: no listing is
    started and nothing enters [updates], only the timer of line 77 is
    set. *)
Theorem fetchGroups_always_revalidates s sub c :
  defaultSubscription s = Some sub →
  login s !! tenantId sub = Some c →
  updates s !! sub_id sub = None →
  current (fetchGroups s).2 = current s ∧
  if decide (sub_id sub ∈ Object_prototype) then
    calls (fetchGroups s).2 = calls s ∧
    updates (fetchGroups s).2 = updates s ∧
    length (timers (fetchGroups s).2) = length (timers s) + 1
  else
    calls (fetchGroups s).2 =
      calls s ++ [{| call_credentials := c;
                     call_subscription := sub_id sub;
                     call_promise := length (heap s) |}] ∧
    updates (fetchGroups s).2 =
      <[sub_id sub := S (length (heap s))]> (updates s) ∧
    length (timers (fetchGroups s).2) =
      length (timers s) +
        match current s !! sub_id sub with Some _ => 1 | None => 0 end.
Proof.
  intros Hd Hl Hu. rewrite current_fetchGroups. split; [done|].
  rewrite (fetchGroups_delegates s sub c Hd Hl). cbn [snd].
  change (calls (set_jobs ?f (set_heap ?g ?x))) with (calls x).
  change (updates (set_jobs ?f (set_heap ?g ?x))) with (updates x).
  change (timers (set_jobs ?f (set_heap ?g ?x))) with (timers x).
  set (s0 := set_lookups (λ l, l ++ [tenantId sub]) s).
  pose proof (updateGroups_calls_updates s0 c sub) as Hcu.
  change (updates s0) with (updates s) in Hcu.
  destruct (decide (sub_id sub ∈ Object_prototype)) as [Hin|Hid].
  - rewrite (get_inherited_name _ _ Hin Hu) in Hcu.
    destruct Hcu as [-> ->]. split; [done|]. split; [done|].
    assert (∃ cur, get (current s0) (sub_id sub) = Some cur) as [cur Ec].
    { unfold get. destruct (current s0 !! sub_id sub); [eauto|].
      rewrite decide_True by done. eauto. }
    destruct (updateGroups_warm_timer s0 c sub cur Ec) as [p ->].
    by rewrite length_app.
  - rewrite (get_own _ _ Hid), Hu in Hcu. cbn in Hcu.
    destruct Hcu as [-> ->]. split; [done|]. split; [done|].
    destruct (current s !! sub_id sub) as [cur|] eqn:Ec.
    + destruct (updateGroups_warm_timer s0 c sub cur (get_Some _ _ _ Ec))
        as [p ->].
      by rewrite length_app.
    + destruct (updateGroups_first_fields s0 c sub) as [-> _]; [|simpl; lia].
      by apply get_None.
Qed.

Lemma fetchGroups_always_revalidates_witness :
  length (calls (fetchGroups warm_cache).2) = 2 ∧
  length (calls (fetchGroups (drain (run [EvFetch; EvJob; EvJob;
            EvSettle 1 (Fulfilled groups2)] warm_cache))).2) = 3.
Proof.
  assert (Hn : sub_id sub1 ∉ Object_prototype).
  { apply (bool_decide_unpack _). vm_compute. exact I. }
  split.
  - destruct (fetchGroups_always_revalidates warm_cache sub1 creds1)
      as [_ H]; [vm_compute; reflexivity..|].
    rewrite decide_False in H by exact Hn. destruct H as [H _].
    rewrite H. vm_compute. reflexivity.
  - destruct (fetchGroups_always_revalidates
                (drain (run [EvFetch; EvJob; EvJob;
                             EvSettle 1 (Fulfilled groups2)] warm_cache))
                sub1 creds1) as [_ H]; [vm_compute; reflexivity..|].
    rewrite decide_False in H by exact Hn. destruct H as [H _].
    rewrite H. vm_compute. reflexivity.
Defined.

(** ** Promises nobody holds *)

Lemma hoare_ret {A} p (x : A) (Q : A → Prop) : Q x → hoare p (ret x) Q.
Proof. by intros HQ s Hs. Qed.

Lemma hoare_bind {A B} p (m : M A) (k : A → M B) Q R :
  hoare p m Q → (∀ x, Q x → hoare p (k x) R) → hoare p (bind m k) R.
Proof.
  intros Hm Hk s Hs. rewrite run_bind. destruct (Hm s Hs) as [Hs1 HQ].
  by apply Hk.
Qed.

Lemma hoare_weaken {A} p (m : M A) (Q R : A → Prop) :
  hoare p m Q → (∀ x, Q x → R x) → hoare p m R.
Proof. intros Hm HQR s Hs. destruct (Hm s Hs). auto. Qed.

Lemma hoare_gets {A} p (f : state → A) (Q : A → Prop) :
  (∀ s, unobserved p s → Q (f s)) → hoare p (gets f) Q.
Proof. intros HQ s Hs. split; [done|]. by apply HQ. Qed.

Lemma hoare_new_promise p : hoare p new_promise (λ x, x ≠ p).
Proof.
  intros s [H1 H2 H3 H4 H5 H6 H7]. split; [|simpl; lia].
  split; simpl; try done.
  - rewrite length_app. simpl. lia.
  - intros rs E. apply H2. by rewrite lookup_app_l in E.
  - intros q rs r E Hr. apply lookup_app_Some in E as [E|[_ E]]; [eauto|].
    destruct (q - length (heap s)) as [|n]; simplify_eq/=.
    by apply elem_of_nil in Hr.
Qed.

Lemma hoare_enqueue p j :
  p ∉ job_reads j → hoare p (enqueue j) (λ _, True).
Proof.
  intros Hj s [H1 H2 H3 H4 H5 H6 H7]. split; [|done]. split; simpl; try done.
  intros j' [Hin|Hin%list_elem_of_singleton]%elem_of_app; [eauto|by subst].
Qed.

Lemma hoare_then p q r :
  q ≠ p → p ∉ reaction_reads r → hoare p (then_ q r) (λ _, True).
Proof.
  intros Hq Hr s Hs. unfold then_.
  destruct (heap s !! q) as [[rs|o]|] eqn:E; [| |done].
  - destruct Hs as [H1 H2 H3 H4 H5 H6 H7]. split; [|done].
    split; simpl; try done.
    + by rewrite length_insert.
    + intros rs'. rewrite list_lookup_insert_ne by done. apply H2.
    + intros q' rs' r' E' Hr'. destruct (decide (q = q')) as [<-|Hne].
      * rewrite list_lookup_insert_eq in E' by eauto using lookup_lt_Some.
        injection E' as <-.
        apply elem_of_app in Hr' as [Hr'|Hr'%list_elem_of_singleton];
          [eauto|by subst].
      * rewrite list_lookup_insert_ne in E' by done. eauto.
  - by apply hoare_enqueue.
Qed.

Lemma hoare_settle p q o : hoare p (settle q o) (λ _, True).
Proof.
  intros s Hs. unfold settle.
  destruct (heap s !! q) as [[rs|o']|] eqn:E; [|done..].
  destruct Hs as [H1 H2 H3 H4 H5 H6 H7]. split; [|done].
  split; simpl; try done.
  - by rewrite length_insert.
  - intros rs'. destruct (decide (q = p)) as [->|Hne].
    + by rewrite list_lookup_insert_eq by done.
    + rewrite list_lookup_insert_ne by done. apply H2.
  - intros q' rs' r' E' Hr'. destruct (decide (q = q')) as [<-|Hne].
    + by rewrite list_lookup_insert_eq in E' by eauto using lookup_lt_Some.
    + rewrite list_lookup_insert_ne in E' by done. eauto.
  - intros j [Hin|Hin]%elem_of_app; [eauto|].
    apply list_elem_of_fmap in Hin as (r & -> & Hr). simpl. eauto.
Qed.

Lemma hoare_setTimeout p d t (c : value) :
  c ≠ VPromise p → hoare p (setTimeout d t c) (λ _, True).
Proof.
  intros Hc s [H1 H2 H3 H4 H5 H6 H7]. split; [|done]. split; simpl; try done.
  intros tm [Hin|Hin%list_elem_of_singleton]%elem_of_app; [eauto|by subst].
Qed.

(** A change of the state that leaves the promises alone. *)
Lemma hoare_modify p (f : state → state) :
  (∀ s, heap (f s) = heap s ∧ jobs (f s) = jobs s ∧ timers (f s) = timers s ∧
        (∀ id, updates s !! id ≠ Some p → updates (f s) !! id ≠ Some p) ∧
        (∀ id, current s !! id ≠ Some p → current (f s) !! id ≠ Some p)) →
  hoare p (modify f) (λ _, True).
Proof.
  intros Hf s [H1 H2 H3 H4 H5 H6 H7]. split; [|done].
  destruct (Hf s) as (Hh & Hj & Ht & Hu & Hc).
  split; unfold modify; cbn [fst snd]; rewrite ?Hh, ?Hj, ?Ht; auto.
Qed.

Lemma not_elem_of_singleton_ne (p c : promise) : c ≠ p → p ∉ [c].
Proof. intros Hc Hin. apply list_elem_of_singleton in Hin. by subst. Qed.

Lemma not_elem_of_value_reads (p : promise) (c : value) :
  c ≠ VPromise p → p ∉ value_reads c.
Proof.
  intros Hc Hin. destruct c as [c|n]; simpl in Hin.
  - apply list_elem_of_singleton in Hin. by subst.
  - by apply elem_of_nil in Hin.
Qed.

Lemma elem_of_value_reads (p : promise) (c : value) :
  p ∈ value_reads c → c = VPromise p.
Proof.
  destruct c as [c|n]; simpl; intros Hin.
  - apply list_elem_of_singleton in Hin. by subst.
  - by apply elem_of_nil in Hin.
Qed.

Lemma hoare_resolve p d (v : value) :
  v ≠ VPromise p → hoare p (resolve d v) (λ _, True).
Proof.
  intros Hv. destruct v as [x|n]; simpl; [|apply hoare_settle].
  apply hoare_enqueue. apply not_elem_of_singleton_ne. congruence.
Qed.

Lemma hoare_timeout_promise p d (c : value) :
  c ≠ VPromise p → hoare p (timeout_promise d c) (λ t, t ≠ p).
Proof.
  intros Hc. unfold timeout_promise.
  eapply hoare_bind; [apply hoare_new_promise|]. intros t Ht.
  eapply hoare_bind; [by apply hoare_setTimeout|]. intros _ _.
  by apply hoare_ret.
Qed.

Lemma hoare_catch p u (c : value) :
  u ≠ p → c ≠ VPromise p → hoare p (catch_ u c) (λ k, k ≠ p).
Proof.
  intros Hu Hc. unfold catch_.
  eapply hoare_bind; [apply hoare_new_promise|]. intros k Hk.
  eapply hoare_bind.
  { apply hoare_then; [done|]. by apply not_elem_of_value_reads. }
  intros _ _. by apply hoare_ret.
Qed.

Lemma hoare_race p a b :
  a ≠ p → b ≠ p → hoare p (race a b) (λ r, r ≠ p).
Proof.
  intros Ha Hb. unfold race.
  eapply hoare_bind; [apply hoare_new_promise|]. intros r Hr.
  eapply hoare_bind; [apply hoare_then; [done|apply not_elem_of_nil]|].
  intros _ _.
  eapply hoare_bind; [apply hoare_then; [done|apply not_elem_of_nil]|].
  intros _ _. by apply hoare_ret.
Qed.

Lemma hoare_race_with_current p (u c : value) :
  u ≠ VPromise p → c ≠ VPromise p →
  hoare p (race_with_current u c) (not_returned p).
Proof.
  intros Hu Hc. unfold race_with_current.
  eapply hoare_bind; [by apply hoare_timeout_promise|]. intros t Ht.
  destruct u as [u|name]; [|by apply hoare_ret].
  eapply hoare_bind; [apply hoare_catch; [congruence|done]|]. intros k Hk.
  eapply hoare_bind; [by apply hoare_race|]. intros r Hr.
  apply hoare_ret. simpl. congruence.
Qed.

Lemma hoare_loadGroups p c sub : hoare p (loadGroups c sub) (λ u, u ≠ p).
Proof.
  unfold loadGroups, resourceGroups_list.
  eapply hoare_bind.
  { eapply hoare_bind; [apply hoare_new_promise|]. intros l Hl.
    eapply hoare_bind; [by apply hoare_modify|]. intros _ _.
    apply (hoare_ret p l (λ l, l ≠ p) Hl). }
  intros l Hl. eapply hoare_bind; [apply hoare_new_promise|]. intros u Hu.
  eapply hoare_bind; [apply hoare_then; [done|apply not_elem_of_nil]|].
  intros _ _. by apply hoare_ret.
Qed.

Lemma hoare_start_update p c sub : hoare p (start_update c sub) (λ u, u ≠ p).
Proof.
  unfold start_update.
  eapply hoare_bind; [apply hoare_loadGroups|]. intros u Hu.
  eapply hoare_bind.
  { apply hoare_modify. intros s. repeat split; try done.
    intros id Hid. simpl. destruct (decide (sub_id sub = id)) as [<-|Hne].
    - rewrite lookup_insert_eq. congruence.
    - by rewrite lookup_insert_ne. }
  intros _ _.
  eapply hoare_bind.
  { apply hoare_then; [done|]. by apply not_elem_of_singleton_ne. }
  intros _ _. by apply hoare_ret.
Qed.

Lemma get_ne (m : gmap string promise) k p :
  (∀ id, m !! id ≠ Some p) → get m k ≠ Some (VPromise p).
Proof. intros Hm E. apply get_promise in E. by apply (Hm k). Qed.

Lemma hoare_updateGroups_body p c sub :
  hoare p (updateGroups_body c sub) (not_returned p).
Proof.
  unfold updateGroups_body.
  eapply hoare_bind.
  { apply (hoare_gets p _ (λ o, o ≠ Some (VPromise p))). intros s Hs.
    apply get_ne, (un_updates _ _ Hs). }
  intros upd Hupd.
  eapply (hoare_bind p _ _ (λ u, u ≠ VPromise p)).
  { destruct upd as [u|]; [apply hoare_ret; congruence|].
    eapply hoare_bind; [apply hoare_start_update|]. intros u Hu.
    apply hoare_ret. congruence. }
  intros u Hu.
  eapply hoare_bind.
  { apply (hoare_gets p _ (λ o, o ≠ Some (VPromise p))). intros s Hs.
    apply get_ne, (un_current _ _ Hs). }
  intros cur Hcur. destruct cur as [cur|]; [|by apply hoare_ret].
  apply hoare_race_with_current; [done|congruence].
Qed.

Lemma hoare_async p (body : M completion) :
  hoare p body (not_returned p) → hoare p (async body) (λ x, x ≠ p).
Proof.
  intros Hb. unfold async.
  eapply hoare_bind; [exact Hb|]. intros c Hc.
  eapply hoare_bind; [apply hoare_new_promise|]. intros x Hx.
  eapply hoare_bind.
  { destruct c as [y|e]; [|apply hoare_settle]. by apply hoare_resolve. }
  intros _ _. by apply hoare_ret.
Qed.

Lemma hoare_updateGroups p c sub : hoare p (updateGroups c sub) (λ x, x ≠ p).
Proof. apply hoare_async, hoare_updateGroups_body. Qed.

Lemma hoare_lookupCredentials p tenant :
  hoare p (lookupCredentials tenant) (λ _, True).
Proof.
  unfold lookupCredentials.
  eapply hoare_bind; [by apply hoare_modify|]. intros _ _.
  by apply hoare_gets.
Qed.

Lemma hoare_fetchGroups p : hoare p fetchGroups (λ _, True).
Proof.
  eapply hoare_weaken; [|done]. apply hoare_async.
  eapply hoare_bind; [by apply (hoare_gets p _ (λ _, True))|]. intros d _.
  destruct d as [sub|]; [|by apply hoare_ret].
  eapply hoare_bind; [apply hoare_lookupCredentials|]. intros cr _.
  destruct cr as [c|]; [|by apply hoare_ret].
  eapply hoare_bind; [apply hoare_updateGroups|]. intros x Hx.
  apply hoare_ret. simpl. congruence.
Qed.

Lemma hoare_onSubscriptionUpdated p :
  hoare p onSubscriptionUpdated (λ _, True).
Proof.
  unfold onSubscriptionUpdated.
  eapply hoare_bind; [by apply (hoare_gets p _ (λ _, True))|]. intros found _.
  eapply hoare_bind; [by apply (hoare_gets p _ (λ _, True))|]. intros stored _.
  case_decide; [by apply hoare_ret|].
  eapply hoare_bind; [by apply hoare_modify|]. intros _ _.
  destruct found as [sub|]; [|by apply hoare_ret].
  eapply hoare_bind; [apply hoare_lookupCredentials|]. intros cr _.
  destruct cr as [c|]; [|by apply hoare_ret].
  eapply hoare_bind; [apply hoare_updateGroups|]. intros x Hx.
  by apply hoare_ret.
Qed.

Lemma hoare_on_loaded p id u : u ≠ p → hoare p (on_loaded id u) (λ _, True).
Proof.
  intros Hu. unfold on_loaded.
  eapply hoare_bind.
  { apply hoare_modify. intros s. repeat split; try done.
    intros id' Hid. simpl. intros E. apply lookup_delete_Some in E as [_ E].
    by apply Hid. }
  intros _ _. apply hoare_modify. intros s. repeat split; try done.
  intros id' Hid. simpl. destruct (decide (id = id')) as [<-|Hne].
  + rewrite lookup_insert_eq. congruence.
  + by rewrite lookup_insert_ne.
Qed.

Lemma hoare_on_load_failed p id e :
  hoare p (on_load_failed id e) (λ _, True).
Proof.
  unfold on_load_failed.
  eapply hoare_bind.
  { apply hoare_modify. intros s. repeat split; try done.
    intros id' Hid. simpl. intros E. apply lookup_delete_Some in E as [_ E].
    by apply Hid. }
  intros _ _. by apply hoare_modify.
Qed.

Lemma hoare_run_job p j : p ∉ job_reads j → hoare p (run_job j) (λ _, True).
Proof.
  intros Hj. destruct j as [[d|d c|id u] [[v|e]|n]|d c]; simpl in *;
    try apply hoare_settle.
  - apply hoare_resolve. intros ->. apply Hj. simpl.
    by apply list_elem_of_singleton.
  - apply hoare_on_loaded. intros ->. apply Hj. by apply list_elem_of_singleton.
  - apply hoare_on_load_failed.
  - apply hoare_on_loaded. intros ->. apply Hj. by apply list_elem_of_singleton.
  - apply hoare_then; [|apply not_elem_of_nil].
    intros ->. apply Hj. by apply list_elem_of_singleton.
Qed.

Lemma unobserved_same p s s' :
  unobserved p s →
  heap s' = heap s → jobs s' ⊆ jobs s → timers s' ⊆ timers s →
  updates s' = updates s → current s' = current s →
  unobserved p s'.
Proof.
  intros [H1 H2 H3 H4 H5 H6 H7] Hh Hj Ht Hu Hc.
  split; rewrite ?Hh, ?Hu, ?Hc; auto.
Qed.

Lemma unobserved_step p e s : unobserved p s → unobserved p (step e s).
Proof.
  intros Hs. destruct e as [| |subs|l|k o| |dt]; simpl.
  - destruct (jobs s) as [|j q] eqn:Ej; [done|].
    apply hoare_run_job.
    + apply (un_jobs _ _ Hs). rewrite Ej. apply elem_of_cons. by left.
    + apply (unobserved_same p s); try done. simpl. rewrite Ej.
      intros x Hx. apply elem_of_cons. by right.
  - by apply hoare_fetchGroups.
  - apply hoare_onSubscriptionUpdated. by apply (unobserved_same p s).
  - by apply (unobserved_same p s).
  - destruct (calls s !! k); [|done]. by apply hoare_settle.
  - destruct (jobs s) eqn:Ej; [|done].
    destruct (pop_due (now s) (timers s)) as [[tm rest]|] eqn:Ep; [|done].
    destruct (pop_due_Some _ _ _ _ Ep) as (_ & Htm & Hrest & _).
    apply hoare_resolve.
    + by apply (un_timers _ _ Hs).
    + by apply (unobserved_same p s).
  - case_decide; [|done]. by apply (unobserved_same p s).
Qed.

Lemma unobserved_run p evs s : unobserved p s → unobserved p (run evs s).
Proof.
  revert s. induction evs as [|e evs IH]; intros s Hs; [done|].
  apply (IH (step e s)), unobserved_step, Hs.
Qed.

(** A promise that is not fulfilled, has no reaction, is not a refresh and
    is the source of no other promise is held by nothing. *)
Lemma lonely_unobserved ρ s p :
  Safe ρ s →
  p < length (heap s) →
  (∀ rs, heap s !! p = Some (Pending rs) → rs = []) →
  ¬ fulfilled s p →
  ¬ is_refresh ρ p →
  (∀ q r, ρ !! q = Some r → p ∉ role_sources r) →
  unobserved p s.
Proof.
  intros HS Hlt Hrs Hnf Hnr Hsrc.
  assert (Hreact : ∀ q r, reaction_ok ρ s q r → p ∉ reaction_reads r).
  { intros q [d|d c|id u] Hok Hin; simpl in Hin, Hok.
    - by apply elem_of_nil in Hin.
    - destruct Hok as [E _]. apply (Hsrc _ _ E). simpl.
      apply elem_of_cons. by right.
    - apply list_elem_of_singleton in Hin as ->.
      destruct Hok as [-> Hq]. by apply Hnr. }
  split.
  - done.
  - done.
  - intros q rs r E Hr. apply (Hreact q).
    by apply (safe_reaction _ _ HS _ _ _ E Hr).
  - intros j Hj Hin. pose proof (safe_job _ _ HS _ Hj) as Hok.
    destruct j as [r o|d c]; simpl in Hin, Hok.
    + destruct Hok as (q & _ & Hok). by apply (Hreact q r).
    + apply list_elem_of_singleton in Hin as ->.
      unfold adopts in Hok. destruct (ρ !! d) as [r|] eqn:E; [|done].
      apply (Hsrc _ _ E).
      destruct r as [|x|t x|u x|a b|e]; try done; simpl.
      * subst. by apply list_elem_of_singleton.
      * destruct Hok as [-> _]. by apply list_elem_of_singleton.
      * destruct Hok as [-> _]. apply elem_of_cons. right.
        by apply list_elem_of_singleton.
  - intros tm Htm Heq. destruct (safe_timer _ _ HS _ Htm) as [E _].
    apply (Hsrc _ _ E). simpl. rewrite Heq. by apply list_elem_of_singleton.
  - intros id E. apply Hnr. by apply (safe_updates _ _ HS id).
  - intros id E. apply Hnf. by apply (safe_current _ _ HS id).
Qed.

(** The promise [async] makes is the last cell of the heap. *)
Lemma async_last (body : M completion) s :
  S (async body s).1 = length (heap (async body s).2) ∧
  ((∀ x : promise, (body s).1 = Return x →
      heap (async body s).2 !! (async body s).1 = Some (Pending [])) ∧
   (∀ e, (body s).1 = Throw e →
      heap (async body s).2 !! (async body s).1 = Some (Settled (Rejected e)))).
Proof.
  split; [|split].
  - unfold async. run_binds.
    assert (Hk : ∀ p c, length (heap ((match c with
                                | Return x => resolve p x
                                | Throw e => settle p (Rejected e)
                                end) (new_promise (body s).2).2).2)
                 = length (heap (new_promise (body s).2).2)).
    { intros p [[x|n]|e]; unfold resolve, settle, enqueue, modify;
        cbn [fst snd]; try done;
        destruct (heap (new_promise (body s).2).2 !! p) as [[rs|o]|];
        cbn [fst snd heap set_heap set_jobs]; try done;
        by rewrite length_insert. }
    rewrite Hk. cbn [fst snd]. simpl. rewrite length_app. simpl. lia.
  - intros x Hx. rewrite (async_return_run body s x Hx). cbn [fst snd].
    simpl. by apply list_lookup_middle.
  - intros e He. rewrite (async_throw_run body s e He). cbn [fst snd].
    simpl. by apply list_lookup_middle.
Qed.

Lemma updateGroups_promise_unobserved ρ s c sub :
  Coherent ρ s →
  unobserved (updateGroups c sub s).1 (updateGroups c sub s).2.
Proof.
  intros HC.
  destruct (updateGroups_spec ρ s c sub HC) as (ρ' & [[HS _] _] & Hm).
  destruct (async_last (updateGroups_body c sub) s) as (Hlast & Hret & Hthrow).
  fold (updateGroups c sub) in Hlast, Hret, Hthrow.
  set (P := (updateGroups c sub s).1) in *.
  set (s' := (updateGroups c sub s).2) in *.
  assert (Hcell : heap s' !! P = Some (Pending []) ∨
                  ∃ e, heap s' !! P = Some (Settled (Rejected e))).
  { destruct (get (updates s) (sub_id sub)) as [[u0|name]|] eqn:E.
    - destruct Hm as (x & u & Hb & _). left. by apply (Hret x).
    - destruct (updateGroups_body_inherited s c sub name E) as (cur & _ & Hb).
      right. exists (TypeError no_catch). apply Hthrow. by rewrite Hb.
    - destruct Hm as (x & u & Hb & _). left. by apply (Hret x). }
  apply (lonely_unobserved (ρ ++ ρ')); [done|lia| | | |].
  - intros rs E. destruct Hcell as [E'|[e E']]; congruence.
  - intros [v Hv]. unfold settled in Hv.
    destruct Hcell as [E'|[e E']]; congruence.
  - intros (l & Hw & Hl).
    assert (Hshape : ∃ u cur, updates s' !! sub_id sub = Some u ∧
              body_shape (ρ ++ ρ') l u cur (now s + 500)).
    { destruct (get (updates s) (sub_id sub)) as [[u0|name]|].
      - destruct Hm as (x & u & _ & Hu & Hx & Hshape).
        assert (x = l) as -> by congruence. eauto.
      - destruct Hm as [Hx _]. congruence.
      - destruct Hm as (x & u & _ & Hu & Hx & Hshape).
        assert (x = l) as -> by congruence. eauto. }
    destruct Hshape as (u & [cur|] & Hu & Hshape); simpl in Hshape.
    + destruct Hshape as (t & k & Hrace & _). congruence.
    + subst l. destruct (safe_updates _ _ HS _ _ Hu) as (l' & Hu' & _).
      congruence.
  - intros q r Hq Hin. pose proof (safe_src _ _ HS _ _ _ Hq Hin) as Hlt.
    pose proof (lookup_lt_Some _ _ _ Hq) as Hq'.
    rewrite (safe_len _ _ HS) in Hq'. lia.
Qed.

Lemma notification_tracks ρ s c sub :
  Coherent ρ s → sub_id sub ∉ Object_prototype →
  ∃ ρ' u, updates (updateGroups c sub s).2 !! sub_id sub = Some u ∧
    tracks ρ' (updateGroups c sub s).2 (updateGroups c sub s).1 u
      (VPromise <$> current s !! sub_id sub) (now s + 500).
Proof.
  intros HC Hid.
  destruct (updateGroups_spec_own ρ s c sub HC Hid)
    as (ρ1 & x & u & HC1 & _ & Hu & Hw & Hshape).
  exists (ρ ++ ρ1), u. split; [done|]. split; [done|]. eauto.
Qed.

(** X17. The promise [updateGroups] returns to [onSubscriptionUpdated]
    (line 41, and line 31 through the constructor) is dropped.  Along every
    run no reaction is ever registered on it and no reaction, microtask,
    timer or map entry holds it, so nothing will ever be; and when nothing
    is cached and the refresh fails, that promise is rejected with the
    error of the refresh once the microtasks have run: a rejection no
    handler takes. *)
Theorem notification_refresh_promise_is_dropped s subs sub c evs :
  reachable s →
  find isDefault subs = Some sub →
  sub_id <$> defaultSubscription s ≠ Some (sub_id sub) →
  login s !! tenantId sub = Some c →
  let s0 := set_lookups (λ t, t ++ [tenantId sub])
              (set_defaultSubscription (Some sub) (set_subscriptions subs s)) in
  let P := (updateGroups c sub s0).1 in
  let s2 := run evs (step (EvNotify subs) s) in
  step (EvNotify subs) s = (updateGroups c sub s0).2 ∧
  unobserved P s2 ∧
  unobserved P (drain s2) ∧
  (current s !! sub_id sub = None →
   ∀ u e, updates (step (EvNotify subs) s) !! sub_id sub = Some u →
          settled s2 u (Rejected e) →
          settled (drain s2) P (Rejected e)).
Proof.
  intros Hr Hf Hne Hl s0 P s2.
  assert (Hstep : step (EvNotify subs) s = (updateGroups c sub s0).2).
  { unfold step.
    rewrite (onSubscriptionUpdated_switch (set_subscriptions subs s) sub Hf Hne).
    change (login (set_subscriptions subs s)) with (login s). by rewrite Hl. }
  destruct (reachable_Coherent _ Hr) as [ρ HC].
  assert (HC0 : Coherent ρ s0) by by eapply Coherent_same.
  assert (Hun : unobserved P s2).
  { unfold s2. rewrite Hstep. apply unobserved_run.
    by apply (updateGroups_promise_unobserved ρ). }
  split; [done|]. split; [done|]. split; [by apply unobserved_run|].
  intros Hcur u e Hu He.
  rewrite Hstep in Hu.
  assert (HO0 : Own s0) by by apply (Own_same s); [apply reachable_Own| |].
  pose proof (call_own _ _ _ _ HO0 Hu) as Hid.
  destruct (notification_tracks ρ s0 c sub HC0 Hid) as (ρ1 & u' & Hu' & Ht).
  assert (u' = u) as -> by congruence.
  change (current s0) with (current s) in Ht. rewrite Hcur in Ht.
  cbn [fmap option_fmap option_map] in Ht.
  destruct (tracks_run _ _ _ _ _ _
              (evs ++ repeat EvJob (measure s2)) Ht) as [ρ2 Ht2].
  rewrite run_app in Ht2. rewrite <-Hstep in Ht2. fold s2 in Ht2.
  fold (drain s2) in Ht2.
  apply (tracks_first_complete _ _ _ _ _ _ Ht2 (drain_quiescent s2)).
  by apply settled_run.
Qed.

Lemma notification_refresh_promise_witness :
  let s2 := run [EvJob; EvSettle 0 (Rejected (ListError "timeout")); EvJob]
              (step (EvNotify [sub1]) (constructor [] login1 0)) in
  settled (drain s2) 2 (Rejected (ListError "timeout")) ∧
  unobserved 2 (drain s2).
Proof.
  intros s2.
  destruct (notification_refresh_promise_is_dropped
              (constructor [] login1 0) [sub1] sub1 creds1
              [EvJob; EvSettle 0 (Rejected (ListError "timeout")); EvJob])
    as (_ & _ & Hun & Hrej).
  - by exists [], login1, 0, [].
  - reflexivity.
  - vm_compute. intros [=].
  - vm_compute. reflexivity.
  - split; [|exact Hun].
    apply (Hrej eq_refl 1); vm_compute; reflexivity.
Defined.

(** ** From the remote call to the cache *)

Lemma console_run evs s e : e ∈ console s → e ∈ console (run evs s).
Proof.
  revert s. induction evs as [|ev evs IH]; intros s He; [done|].
  apply (IH (step ev s)).
  destruct (console_step ev s) as [->|(_ & _ & err & _ & _ & _ & ->)];
    [done|]. apply elem_of_app. by left.
Qed.

(** Running microtasks, the refresh [u] of [id] stays the entry of
    [updates] until its completion handler has run. *)
Lemma refresh_handled_jobs ρ s id u n (s' := run (repeat EvJob n) s) :
  Coherent ρ s → updates s !! id = Some u →
  (updates s' !! id = Some u ∧ current s' !! id = current s !! id) ∨
  (updates s' !! id = None ∧
   ∃ o : outcome, settled s' u o ∧
     match o with
     | Fulfilled _ => current s' !! id = Some u
     | Rejected e => current s' !! id = current s !! id ∧ e ∈ console s'
     end).
Proof.
  unfold s'. clear s'. revert ρ s.
  induction n as [|n IH]; intros ρ s HC Hu; [by left|].
  change (run (repeat EvJob (S n)) s)
    with (run (repeat EvJob n) (step EvJob s)).
  destruct (Coherent_step _ _ EvJob HC) as [ρ1 HC1].
  destruct (jobs s) as [|j q] eqn:Ej.
  { replace (step EvJob s) with s by (unfold step; by rewrite Ej).
    by apply (IH ρ). }
  assert (Hcase : (∃ o, j = JReact (RDone id u) o) ∨
                  (∀ u' o q', jobs s ≠ JReact (RDone id u') o :: q')).
  { destruct j as [[d|d c|id' u'] o|d c];
      try (right; intros ??? E; rewrite Ej in E; by injection E).
    destruct (decide (id' = id)) as [->|Hid].
    - left. exists o. destruct HC as [_ HD].
      assert (updates s !! id = Some u').
      { apply (dd_job _ _ HD 0 id u' o). by rewrite Ej. }
      congruence.
    - right. intros ??? E. rewrite Ej in E. injection E as -> _ _ _. done. }
  destruct Hcase as [[o ->]|Hother].
  - right.
    assert (Hin : JReact (RDone id u) o ∈ jobs s).
    { rewrite Ej. apply elem_of_cons. by left. }
    assert (Hs : settled s u o).
    { destruct HC as [[HS _] _].
      by destruct (safe_job _ _ HS _ Hin) as (x & Hx & <- & _). }
    destruct (done_job_outcome ρ s id u o (proj1 (proj1 HC)) Hin) as [o' ->].
    rename o' into o.
    assert (Hnone : updates (step EvJob s) !! id = None).
    { destruct o; [rewrite (success_handler_run s id u _ q Ej)
                  |rewrite (failure_handler_run s id u _ q Ej)];
        simpl; by rewrite lookup_delete_eq. }
    destruct (no_entry_jobs _ _ id n HC1 Hnone) as [Hc2 Hu2].
    split; [done|]. exists o.
    split; [apply settled_run; by apply (step_evolves EvJob s)|].
    destruct o as [v|e].
    + rewrite Hc2, (success_handler_run s id u v q Ej). simpl.
      by rewrite lookup_insert_eq.
    + split.
      * rewrite Hc2. by rewrite (failure_handler_run s id u e q Ej).
      * apply console_run. rewrite (failure_handler_run s id u e q Ej).
        simpl. apply elem_of_app. right. by apply list_elem_of_singleton.
  - destruct (job_step_other s id Hother) as [Hc Hu1].
    destruct (IH _ _ HC1) as [[Hu2 Hc2]|(Hu2 & o & Ho & Hm)].
    + congruence.
    + left. split; [done|congruence].
    + right. split; [done|]. exists o. split; [done|].
      destruct o; [done|]. destruct Hm as [Hm ?]. split; [congruence|done].
Qed.

(** X18. A refresh ends with its remote call.  Once the remote call behind
    the entry [u] of [updates] has settled and the microtasks have run, [u]
    is settled with the outcome of the call and is no longer in [updates];
    if the call succeeded [u] is the cached result of its subscription id,
    if it failed the cached result is the one from before and the error is
    on the console. *)
Theorem settled_listing_ends_the_refresh s id u i k (o : outcome) :
  reachable s →
  updates s !! id = Some u →
  calls s !! i = Some k → u = S (call_promise k) →
  settled s (call_promise k) o →
  settled (drain s) u o ∧
  updates (drain s) !! id = None ∧
  match o with
  | Fulfilled _ => current (drain s) !! id = Some u
  | Rejected e => current (drain s) !! id = current s !! id ∧
                  e ∈ console (drain s)
  end.
Proof.
  intros Hr Hu Hi -> Hs. destruct (reachable_Coherent _ Hr) as [ρ HC].
  assert (Hd : settled (drain s) (S (call_promise k)) o).
  { apply (refresh_complete (drain s) i).
    - by apply reachable_run.
    - by apply calls_run.
    - apply drain_quiescent.
    - by apply settled_run. }
  split; [done|].
  destruct (refresh_handled_jobs ρ s id _ (measure s) HC Hu)
    as [[Hu2 _]|(Hu2 & o' & Ho' & Hm)]; fold (drain s) in *.
  - exfalso.
    pose proof (settled_refresh_queued _ _ _ _
                  (reachable_run _ _ Hr) Hu2 Hd) as Hin.
    fold (drain s) in Hin. rewrite (drain_quiescent s) in Hin.
    by apply elem_of_nil in Hin.
  - split; [done|].
    pose proof (settled_inj _ _ _ _ Hd Ho') as Heq. by injection Heq as ->.
Qed.

Lemma settled_listing_witness :
  let s := run [EvJob; EvSettle 0 (Fulfilled groups1)] fresh_cache in
  updates (drain s) !! "sub-1" = None ∧ current (drain s) !! "sub-1" = Some 1.
Proof.
  intros s.
  destruct (settled_listing_ends_the_refresh s "sub-1" 1 0
              {| call_credentials := creds1; call_subscription := "sub-1";
                 call_promise := 0 |} (Fulfilled groups1))
    as (_ & Hu & Hc).
  - apply reachable_run, fresh_cache_reachable.
  - vm_compute. reflexivity.
  - vm_compute. reflexivity.
  - reflexivity.
  - vm_compute. reflexivity.
  - split; [exact Hu|exact Hc].
Defined.

Lemma step_hung ρ s e id u :
  Coherent ρ s → updates s !! id = Some u → pending (step e s) u →
  current (step e s) !! id = current s !! id.
Proof.
  intros [[HS _] HD] Hu Hp.
  destruct (decide (current (step e s) = current s)) as [->|Hne]; [done|].
  destruct (current_step ρ e s HS Hne) as (id' & u' & v & q & -> & Ej & Hcur & _).
  rewrite Hcur. destruct (decide (id' = id)) as [->|Hid];
    [|by rewrite lookup_insert_ne].
  exfalso.
  assert (updates s !! id = Some u').
  { apply (dd_job _ _ HD 0 id u' (Fulfilled v)). by rewrite Ej. }
  assert (u' = u) as -> by congruence.
  destruct (safe_job _ _ HS (JReact (RDone id u) (Fulfilled v)))
    as (x & Hx & Hok & _); [rewrite Ej; apply elem_of_cons; by left|].
  simpl in Hok. subst x.
  eapply pending_not_settled; [exact Hp|]. by apply (step_evolves EvJob s).
Qed.

Lemma run_hung ρ s evs id u :
  Coherent ρ s → updates s !! id = Some u → pending (run evs s) u →
  current (run evs s) !! id = current s !! id.
Proof.
  revert ρ s. induction evs as [|e evs IH]; intros ρ s HC Hu Hp; [done|].
  change (run (e :: evs) s) with (run evs (step e s)) in *.
  assert (Hp1 : pending (step e s) u).
  { assert (Hlt : u < length (heap (step e s))).
    { apply step_allocated. destruct HC as [[HS _] _].
      rewrite <-(safe_len _ _ HS).
      eapply is_refresh_lt, safe_updates; eauto. }
    destruct (pending_or_settled _ _ Hlt) as [|[o Ho]]; [done|].
    destruct (pending_not_settled _ _ _ Hp (settled_run evs _ _ _ Ho)). }
  destruct (step_in_flight _ _ e _ _ HC Hu Hp1) as [_ Hu1].
  destruct (Coherent_step _ _ e HC) as [ρ1 HC1].
  rewrite (IH _ _ HC1 Hu1 Hp). by apply (step_hung ρ s e id u).
Qed.

Lemma run_allocated evs s p :
  p < length (heap s) → p < length (heap (run evs s)).
Proof.
  revert s. induction evs as [|e evs IH]; intros s Hp; [done|].
  apply (IH (step e s)), step_allocated, Hp.
Qed.

(** X19. A remote call has no timeout.  As long as the remote call behind
    the entry [u] of [updates] has not settled, whatever else happens, [u]
    stays pending and stays the entry, no further listing is started for
    that subscription id, and the cached result for the id is the one it
    was: a listing that hangs keeps the subscription from ever being
    refreshed again. *)
Theorem hung_listing_blocks_the_subscription s id u i k evs :
  reachable s →
  updates s !! id = Some u →
  calls s !! i = Some k → u = S (call_promise k) →
  pending (run evs s) (call_promise k) →
  pending (run evs s) u ∧
  updates (run evs s) !! id = Some u ∧
  calls_for id (run evs s) = calls_for id s ∧
  current (run evs s) !! id = current s !! id.
Proof.
  intros Hr Hu Hi -> Hp. destruct (reachable_Coherent _ Hr) as [ρ HC].
  assert (Hpu : pending (run evs s) (S (call_promise k))).
  { assert (Hlt : S (call_promise k) < length (heap (run evs s))).
    { apply run_allocated. destruct HC as [[HS _] _].
      rewrite <-(safe_len _ _ HS).
      eapply is_refresh_lt, safe_updates; eauto. }
    destruct (pending_or_settled _ _ Hlt) as [|[o Ho]]; [done|].
    exfalso. eapply pending_not_settled; [exact Hp|].
    apply (refresh_sound _ i); [by apply reachable_run|by apply calls_run|done]. }
  split; [done|].
  destruct (run_in_flight _ _ evs _ _ HC Hu Hpu) as [Hc Hu2].
  split; [done|]. split; [done|].
  by apply (run_hung ρ s evs id (S (call_promise k))).
Qed.

Lemma hung_listing_witness :
  let evs := [EvJob; EvFetch; EvJob; EvWait 3000; EvFetch; EvNotify [];
              EvNotify [sub1]; EvJob; EvJob; EvFetch] in
  calls_for "sub-1" (run evs fresh_cache) = calls_for "sub-1" fresh_cache.
Proof.
  intros evs.
  destruct (hung_listing_blocks_the_subscription fresh_cache "sub-1" 1 0
              {| call_credentials := creds1; call_subscription := "sub-1";
                 call_promise := 0 |} evs) as (_ & _ & H & _).
  - apply fresh_cache_reachable.
  - vm_compute. reflexivity.
  - vm_compute. reflexivity.
  - reflexivity.
  - eexists. vm_compute. reflexivity.
  - exact H.
Defined.

(** ** [fetchGroups] from call to answer *)

Lemma fetchGroups_entry s sub c :
  reachable s →
  defaultSubscription s = Some sub →
  login s !! tenantId sub = Some c →
  sub_id sub ∉ Object_prototype →
  ∃ u i k, updates (fetchGroups s).2 !! sub_id sub = Some u ∧
    calls (fetchGroups s).2 !! i = Some k ∧
    call_subscription k = sub_id sub ∧ u = S (call_promise k).
Proof.
  intros Hr Hd Hl Hown.
  assert (Hr' : reachable (fetchGroups s).2)
    by apply (reachable_run [EvFetch] s Hr).
  destruct (reachable_Coherent _ Hr) as [ρ0 HC].
  assert (HC0 : Coherent ρ0 (set_lookups (λ l, l ++ [tenantId sub]) s))
    by by eapply Coherent_same.
  destruct (updateGroups_spec_own ρ0 _ c sub HC0 Hown)
    as (ρ1 & x & u & _ & _ & Hu & _).
  assert (Hu' : updates (fetchGroups s).2 !! sub_id sub = Some u).
  { by rewrite (fetchGroups_delegates s sub c Hd Hl). }
  destruct (reachable_Traced _ Hr') as (ρ & _ & _ & HP).
  destruct (prov_updates _ HP _ _ Hu') as (i & k & Hi & Hid & ->).
  by exists (S (call_promise k)), i, k.
Qed.

(** X20. The first fetch.  With credentials and nothing cached for the
    default subscription, whose id is not a property name of
    [Object.prototype] (for such a name the read of line 75 finds the
    inherited value), the promise of [fetchGroups] settles exactly as the
    remote listing behind the refresh does: it is settled only with the
    outcome of that listing, a failure as it came from the remote call, and
    it is settled with it once the listing has settled and the microtasks
    have run.  No timer takes part. *)
Theorem first_fetchGroups_settles_as_the_listing s sub c evs o :
  reachable s →
  defaultSubscription s = Some sub →
  login s !! tenantId sub = Some c →
  sub_id sub ∉ Object_prototype →
  current s !! sub_id sub = None →
  let F := (fetchGroups s).1 in
  let s2 := run evs (fetchGroups s).2 in
  timers (fetchGroups s).2 = timers s ∧
  ∃ i k,
    calls (fetchGroups s).2 !! i = Some k ∧
    call_subscription k = sub_id sub ∧
    updates (fetchGroups s).2 !! sub_id sub = Some (S (call_promise k)) ∧
    (settled s2 F o → settled s2 (call_promise k) o) ∧
    (settled s2 (call_promise k) o → settled (drain s2) F o).
Proof.
  intros Hr Hd Hl Hown Hcur F s2.
  assert (Hr' : reachable (fetchGroups s).2)
    by apply (reachable_run [EvFetch] s Hr).
  split.
  { rewrite (fetchGroups_delegates s sub c Hd Hl). cbn [snd].
    change (timers (set_jobs ?f (set_heap ?g ?x))) with (timers x).
    destruct (updateGroups_first_fields
                (set_lookups (λ l, l ++ [tenantId sub]) s) c sub)
      as [-> _]; [|done].
    by apply get_None. }
  destruct (fetchGroups_entry s sub c Hr Hd Hl Hown)
    as (u & i & k & Hu & Hi & Hid & ->).
  exists i, k. split; [done|]. split; [done|]. split; [done|].
  destruct (fetchGroups_tracks s sub c Hr Hd Hl) as [ρF HtF].
  destruct (fetchGroups_inner_tracks s sub c _ Hr Hd Hl Hu) as [ρP HtP].
  rewrite Hcur in HtP. cbn [fmap option_fmap option_map] in HtP. split.
  - intros HF.
    destruct (tracks_run _ _ _ _ _ _ evs HtF) as [ρF2 HtF2].
    destruct (tracks_run _ _ _ _ _ _ evs HtP) as [ρP2 HtP2].
    apply (refresh_sound _ i); [by apply reachable_run|by apply calls_run|].
    apply (tracks_first_sound _ _ _ _ _ _ HtP2).
    by apply (tracks_first_sound _ _ _ _ _ _ HtF2).
  - intros Hk.
    destruct (tracks_run _ _ _ _ _ _
                (evs ++ repeat EvJob (measure s2)) HtF) as [ρF2 HtF2].
    destruct (tracks_run _ _ _ _ _ _
                (evs ++ repeat EvJob (measure s2)) HtP) as [ρP2 HtP2].
    rewrite run_app in HtF2, HtP2. fold s2 in HtF2, HtP2.
    fold (drain s2) in HtF2, HtP2.
    apply (tracks_first_complete _ _ _ _ _ _ HtF2 (drain_quiescent s2)).
    apply (tracks_first_complete _ _ _ _ _ _ HtP2 (drain_quiescent s2)).
    apply (refresh_complete _ i).
    + by do 2 apply reachable_run.
    + by do 2 apply calls_run.
    + apply drain_quiescent.
    + by apply settled_run.
Qed.

Lemma first_fetchGroups_witness :
  let s := constructor [sub1] ∅ 0 in
  let s1 := step (EvLogin login1) s in
  let evs := [EvJob; EvJob; EvWait 2000;
              EvSettle 0 (Rejected (ListError "timeout"))] in
  settled (drain (run evs (fetchGroups s1).2)) (fetchGroups s1).1
    (Rejected (ListError "timeout")).
Proof.
  intros s s1 evs.
  destruct (first_fetchGroups_settles_as_the_listing s1 sub1 creds1 evs
              (Rejected (ListError "timeout")))
    as (_ & i & k & Hi & _ & _ & _ & H).
  - by exists [sub1], ∅, 0, [EvLogin login1].
  - reflexivity.
  - reflexivity.
  - apply (bool_decide_unpack _). vm_compute. exact I.
  - reflexivity.
  - apply H.
    assert (E : calls (fetchGroups s1).2 !! i = Some k) by exact Hi.
    assert (Hc : calls (fetchGroups s1).2 =
                 [{| call_credentials := creds1; call_subscription := "sub-1";
                     call_promise := 0 |}]) by (vm_compute; reflexivity).
    rewrite Hc in E. destruct i as [|i]; [|destruct i; discriminate E].
    injection E as <-. vm_compute. reflexivity.
Defined.

(** X21. A fetch with a cached result.  With credentials and a cached
    result for the default subscription, the promise of [fetchGroups] is
    never rejected, and the clock cannot pass the deadline of 500ms after
    the call without the promise of [updateGroups] being fulfilled; once the
    microtasks have run the promise of [fetchGroups] is fulfilled too. *)
Theorem fetchGroups_with_a_cached_result_answers_by_the_deadline
    s sub c cur evs :
  reachable s →
  defaultSubscription s = Some sub →
  login s !! tenantId sub = Some c →
  current s !! sub_id sub = Some cur →
  let F := (fetchGroups s).1 in
  let s2 := run evs (fetchGroups s).2 in
  (∀ o, settled s2 F o → ∃ w, o = Fulfilled w) ∧
  (now s + 500 < now s2 → ∃ w, settled (drain s2) F (Fulfilled w)).
Proof.
  intros Hr Hd Hl Hcur F s2.
  destruct (reachable_Inv _ Hr) as [ρ0 [HS0 _]].
  destruct (safe_current _ _ HS0 _ _ Hcur) as [v Hv].
  assert (Hv1 : settled (fetchGroups s).2 cur (Fulfilled v))
    by by apply (step_evolves EvFetch s).
  pose proof (Own_current _ _ _ (reachable_Own _ Hr) Hcur) as Hown.
  destruct (fetchGroups_entry s sub c Hr Hd Hl Hown) as (u & _ & _ & Hu & _).
  destruct (fetchGroups_tracks s sub c Hr Hd Hl) as [ρF HtF].
  destruct (fetchGroups_inner_tracks s sub c _ Hr Hd Hl Hu) as [ρP HtP].
  rewrite Hcur in HtP. cbn [fmap option_fmap option_map] in HtP. split.
  - intros o HF.
    destruct (tracks_run _ _ _ _ _ _ evs HtF) as [ρF2 HtF2].
    destruct (tracks_run _ _ _ _ _ _ evs HtP) as [ρP2 HtP2].
    pose proof (tracks_first_sound _ _ _ _ _ _ HtF2 HF) as HP.
    destruct (tracks_race_fulfilled _ _ _ _ _ _ _ _ HtP2
                (settled_run evs _ _ _ Hv1) HP) as (w & -> & _).
    by exists w.
  - intros Hnow.
    destruct (deadline_bound _ _ _ _ _ _ _ evs HtP Hv1) as [w Hw].
    { rewrite now_fetchGroups. lia. }
    { done. }
    exists w.
    destruct (tracks_run _ _ _ _ _ _
                (evs ++ repeat EvJob (measure s2)) HtF) as [ρF2 HtF2].
    rewrite run_app in HtF2. fold s2 in HtF2. fold (drain s2) in HtF2.
    apply (tracks_first_complete _ _ _ _ _ _ HtF2 (drain_quiescent s2)).
    by apply settled_run.
Qed.

Lemma fetchGroups_with_a_cached_result_witness :
  let evs := [EvJob; EvJob; EvWait 500; EvTimer; EvJob; EvJob; EvJob; EvJob;
              EvJob; EvJob; EvWait 1] in
  ∃ w, settled (drain (run evs (fetchGroups warm_cache).2))
         (fetchGroups warm_cache).1 (Fulfilled w).
Proof.
  intros evs.
  destruct (fetchGroups_with_a_cached_result_answers_by_the_deadline
              warm_cache sub1 creds1 1 evs warm_cache_reachable)
    as [_ H]; [vm_compute; reflexivity..|].
  apply H. vm_compute. lia.
Defined.
